(** * Icon catalogue scripts: manifest generation and R2 upload

    A shallow embedding of [scripts/generate_icon_index.ts] and of the batched
    [scripts/upload-r2.ts], with the properties of the catalogue pipeline
    stated and proved over it.

    - [Js]       : the pieces of the JavaScript runtime the scripts call
                   (strings as UTF-16 code units, the regular expressions of
                   the scripts as list functions, [Number], [encodeURIComponent]).
    - [IconIndex]: [slugify], [parseFileDetails], [readJsonFile],
                   [generateManifest] and the run of the script over the
                   files of the working directory.
    - [UploadR2] : [getConfig], [uploadFile], [uploadBatch] and the batch loop
                   of [main].
    - [Discovery]: [collectSvgFiles], the recursive walk of the uploaders.
    - [SequentialUpload]: the uploader that sends one file after the other.
    - [Gallery]  : [getIconUrl], the filters, the paging and the category
                   options of [src/intents/design_editor/app.tsx]. *)

From Stdlib Require Import List NArith Bool Lia Arith.
From Stdlib Require Import Strings.String Strings.Ascii.
From stdpp Require Import gmap strings.
Import ListNotations.

#[local] Unset Default Proof Using.
#[local] Open Scope N_scope.

(* ===================================================================== *)
(** * The JavaScript runtime, as far as the scripts use it *)
(* ===================================================================== *)

Module Js.

(** A JavaScript string is a sequence of UTF-16 code units. *)
Definition jsstring := list N.

(** String literals of the scripts are ASCII; [js "abc"] is the code units. *)
Definition js (s : string) : jsstring :=
  map N_of_ascii (list_ascii_of_string s).

Definition in_range (lo hi c : N) : bool := (lo <=? c) && (c <=? hi).

Definition HYPHEN : N := 45.
Definition DOT : N := 46.
Definition SLASH : N := 47.
Definition BACKSLASH : N := 92.
Definition UNDERSCORE : N := 95.

Definition is_hyphen (c : N) : bool := c =? HYPHEN.
Definition is_slash (c : N) : bool := c =? SLASH.
(** [\d] *)
Definition is_digit (c : N) : bool := in_range 48 57 c.
Definition is_lower (c : N) : bool := in_range 97 122 c.
Definition is_upper (c : N) : bool := in_range 65 90 c.
(** [[a-z0-9]] *)
Definition is_az09 (c : N) : bool := is_lower c || is_digit c.
(** [[\u0300-\u036f]], the combining diacritical marks. *)
Definition is_combining (c : N) : bool := in_range 768 879 c.

Definition is_ascii (c : N) : bool := c <? 128.
Definition ascii_lower (c : N) : N := if is_upper c then c + 32 else c.
Definition all_ascii (s : jsstring) : bool := forallb is_ascii s.

(** What [String.prototype.toLowerCase] and [normalize("NFD")] do on strings
    of ASCII code units only: the Unicode tables are not reproduced, the
    scripts are verified for every pair of functions that agrees with these
    two on ASCII input. *)
Definition ascii_toLowerCase (s : jsstring) : jsstring := map ascii_lower s.
Definition ascii_normalizeNFD (s : jsstring) : jsstring := s.

Fixpoint drop_while (p : N -> bool) (s : jsstring) : jsstring :=
  match s with
  | [] => []
  | c :: t => if p c then drop_while p t else s
  end.

Fixpoint take_while (p : N -> bool) (s : jsstring) : jsstring :=
  match s with
  | [] => []
  | c :: t => if p c then c :: take_while p t else []
  end.

(** Removing the match of [/^c+/], and of [/c+$/], for a character class [c]. *)
Definition drop_leading (p : N -> bool) (s : jsstring) : jsstring :=
  drop_while p s.
Definition drop_trailing (p : N -> bool) (s : jsstring) : jsstring :=
  rev (drop_while p (rev s)).

(** [s.replace(/[^a-z0-9]+/g, "-")]: every maximal run of code units outside
    [a-z0-9] becomes one hyphen.  [in_run] says that the previous code unit
    belonged to the run being replaced. *)
Fixpoint hyphenate_from (in_run : bool) (s : jsstring) : jsstring :=
  match s with
  | [] => []
  | c :: t =>
      if is_az09 c then c :: hyphenate_from false t
      else if in_run then hyphenate_from true t
      else HYPHEN :: hyphenate_from true t
  end.
Definition hyphenate (s : jsstring) : jsstring := hyphenate_from false s.

(** [s.replace(/--+/g, "-")]: every maximal run of two or more hyphens becomes
    one hyphen; a hyphen followed by a hyphen is inside such a run and only
    the last hyphen of the run is kept. *)
Fixpoint collapse_hyphens (s : jsstring) : jsstring :=
  match s with
  | [] => []
  | c :: t =>
      match t with
      | d :: _ =>
          if is_hyphen c && is_hyphen d then collapse_hyphens t
          else c :: collapse_hyphens t
      | [] => [c]
      end
  end.

(** [s.endsWith(suffix)] *)
Definition endsWith (s suffix : jsstring) : bool :=
  let n := length s in
  let k := length suffix in
  (k <=? n)%nat && bool_decide (skipn (n - k) s = suffix).

(** [arr.join(sep)] *)
Fixpoint join (sep : jsstring) (parts : list jsstring) : jsstring :=
  match parts with
  | [] => []
  | [p] => p
  | p :: rest => p ++ sep ++ join sep rest
  end.

(** A string is truthy when it is not empty. *)
Definition truthy (s : jsstring) : bool :=
  match s with [] => false | _ :: _ => true end.

(** ** Numbers

    [Number(ds)] for a string of decimal digits is the IEEE 754 double
    nearest to its decimal value (ties to even).  Such a double is a natural
    number or [Infinity], so it is represented exactly. *)
Inductive number : Type :=
| Finite (n : N)
| Infinity.

Definition decimal_value (ds : jsstring) : N :=
  fold_left (fun acc c => 10 * acc + (c - 48)) ds 0.

Definition round_to_double (n : N) : number :=
  if n <? 2 ^ 53 then Finite n
  else
    let e := N.log2 n - 52 in
    let q := n / 2 ^ e in
    let r := n mod 2 ^ e in
    let half := 2 ^ (e - 1) in
    let q' := if (half <? r) || ((r =? half) && N.odd q) then q + 1 else q in
    let v := q' * 2 ^ e in
    if 2 ^ 1024 <=? v then Infinity else Finite v.

Definition Number_of_digits (ds : jsstring) : number :=
  round_to_double (decimal_value ds).

(** ** [encodeURIComponent]

    Code units in [A-Z a-z 0-9 - _ . ! ~ * ' ( )] are kept; any other code
    point is written as the percent-escaped bytes of its UTF-8 encoding; a
    surrogate that is not part of a pair raises [URIError] ([None]). *)
Definition is_uri_unreserved (c : N) : bool :=
  is_upper c || is_lower c || is_digit c
  || bool_decide (In c [45; 95; 46; 33; 126; 42; 39; 40; 41]).

Definition hex_digit (d : N) : N := if d <? 10 then 48 + d else 55 + d.

Definition percent (b : N) : jsstring :=
  [37; hex_digit (b / 16); hex_digit (b mod 16)].

Definition utf8 (cp : N) : list N :=
  if cp <? 128 then [cp]
  else if cp <? 2048 then [192 + cp / 64; 128 + cp mod 64]
  else if cp <? 65536 then
    [224 + cp / 4096; 128 + (cp / 64) mod 64; 128 + cp mod 64]
  else
    [240 + cp / 262144; 128 + (cp / 4096) mod 64;
     128 + (cp / 64) mod 64; 128 + cp mod 64].

Definition is_high_surrogate (c : N) : bool := in_range 55296 56319 c.
Definition is_low_surrogate (c : N) : bool := in_range 56320 57343 c.

Definition escape (cp : N) (rest : option jsstring) : option jsstring :=
  option_map (fun r => flat_map percent (utf8 cp) ++ r) rest.

Fixpoint encodeURIComponent (s : jsstring) : option jsstring :=
  match s with
  | [] => Some []
  | c :: t =>
      if is_uri_unreserved c then option_map (cons c) (encodeURIComponent t)
      else if is_low_surrogate c then None
      else if is_high_surrogate c then
        match t with
        | d :: t' =>
            if is_low_surrogate d
            then escape (65536 + (c - 55296) * 1024 + (d - 56320))
                        (encodeURIComponent t')
            else None
        | [] => None
        end
      else escape c (encodeURIComponent t)
  end.

(** ** Completion of a call that may throw, or of an awaited promise *)
Inductive result (E A : Type) : Type :=
| Ok (a : A)
| Throw (e : E).
Arguments Ok {E A} a.
Arguments Throw {E A} e.

Definition bind {E A B} (r : result E A) (k : A -> result E B) : result E B :=
  match r with
  | Ok a => k a
  | Throw e => Throw e
  end.

End Js.

Notation "'await' x <- r ; k" := (Js.bind r (fun x => k))
  (at level 10, x name, r at level 100, k at level 200).

(* ===================================================================== *)
(** * scripts/generate_icon_index.ts *)
(* ===================================================================== *)

Module IconIndex.
Import Js.

(** [type IconMetadata]: every field is optional. *)
Record IconMetadata : Type := mkIconMetadata {
  md_name : option jsstring;
  md_size : option (list number);
  md_style : option (list jsstring);
  md_keyword : option jsstring;
  md_description : option jsstring;
  md_metaphor : option (list jsstring)
}.

(** The object literal [{}]. *)
Definition empty_metadata : IconMetadata :=
  mkIconMetadata None None None None None None.

(** [type IconRecord]; [cdnUrl : string | null]. *)
Record IconRecord : Type := mkIconRecord {
  id : jsstring;
  category : jsstring;
  categorySlug : jsstring;
  name : jsstring;
  description : option jsstring;
  keyword : option jsstring;
  tags : list jsstring;
  size : option number;
  style : option jsstring;
  file : jsstring;
  relativePath : jsstring;
  cdnUrl : option jsstring
}.

(** The return type of [parseFileDetails]. *)
Record FileDetails : Type := mkFileDetails {
  fd_size : option number;
  fd_style : option jsstring;
  fd_baseName : jsstring
}.

(** The manifest object handed to [JSON.stringify]. *)
Record Manifest : Type := mkManifest {
  generatedAt : jsstring;
  count : nat;
  icons : list IconRecord
}.

(** ** The assets directory as the script observes it *)

Inductive FsError : Type := ENOENT | EACCES | ENOTDIR.

Inductive Exn : Type :=
| FsException (e : FsError)
| SyntaxError
| URIError.

(** What [JSON.parse] makes of the text of a [metadata.json]: it throws, or
    returns [null], or returns a value whose properties are read as an
    [IconMetadata] (a JSON number, string or array has none of them and reads
    as [{}]). *)
Inductive JsonText : Type :=
| Malformed
| JsonNull
| JsonObject (m : IconMetadata).

(** The file [<category>/metadata.json]. *)
Inductive MetadataFile : Type :=
| MetadataMissing
| MetadataUnreadable
| MetadataText (text : JsonText).

(** The entry [<category>/SVG]. *)
Inductive SvgEntry : Type :=
| SvgMissing
| SvgNotDirectory
| SvgDirectory (listing : result Exn (list jsstring)).

(** An entry of the assets directory, [readdir(ASSETS_DIR, {withFileTypes})]. *)
Inductive Dirent : Type :=
| FileEntry (entry_name : jsstring)
| DirEntry (entry_name : jsstring) (metadataFile : MetadataFile) (svg : SvgEntry).

Definition readFile (f : MetadataFile) : result Exn JsonText :=
  match f with
  | MetadataMissing => Throw (FsException ENOENT)
  | MetadataUnreadable => Throw (FsException EACCES)
  | MetadataText text => Ok text
  end.

Definition JSON_parse (text : JsonText) : result Exn (option IconMetadata) :=
  match text with
  | Malformed => Throw SyntaxError
  | JsonNull => Ok None
  | JsonObject m => Ok (Some m)
  end.

(** [stat(svgDir)], then [.isDirectory()]. *)
Definition stat (svg : SvgEntry) : result Exn bool :=
  match svg with
  | SvgMissing => Throw (FsException ENOENT)
  | SvgNotDirectory => Ok false
  | SvgDirectory _ => Ok true
  end.

(** [readdir(svgDir)] *)
Definition readdir (svg : SvgEntry) : result Exn (list jsstring) :=
  match svg with
  | SvgMissing => Throw (FsException ENOENT)
  | SvgNotDirectory => Throw (FsException ENOTDIR)
  | SvgDirectory listing => listing
  end.

(** [readJsonFile]: [try { return JSON.parse(await readFile(..)) } catch { return null }] *)
Definition readJsonFile (f : MetadataFile) : option IconMetadata :=
  match (await buffer <- readFile f; JSON_parse buffer) with
  | Ok v => v
  | Throw _ => None
  end.

(** [ICON_CDN_BASE_URL]: the environment's value with [/\/+$/] removed when
    it is a non-empty string, [undefined] otherwise. *)
Definition ICON_CDN_BASE_URL (env : gmap string jsstring) : option jsstring :=
  match env !! "ICON_CDN_BASE_URL"%string with
  | Some v => if truthy v then Some (drop_trailing is_slash v) else None
  | None => None
  end.

(** [fileName.replace(/\.svg$/i, empty)] *)
Definition strip_svg (fileName : jsstring) : jsstring :=
  let n := length fileName in
  if (4 <=? n)%nat
     && bool_decide (map ascii_lower (skipn (n - 4) fileName) = js ".svg")
  then firstn (n - 4) fileName
  else fileName.

(** [s.match(/_(\d+)_/)]: the capture of the leftmost match. *)
Fixpoint match_size (s : jsstring) : option jsstring :=
  match s with
  | [] => None
  | c :: t =>
      if c =? UNDERSCORE then
        match take_while is_digit t, drop_while is_digit t with
        | (_ :: _) as ds, d :: _ =>
            if d =? UNDERSCORE then Some ds else match_size t
        | _, _ => match_size t
        end
      else match_size t
  end.

Definition STYLES : list jsstring :=
  [js "regular"; js "filled"; js "light"; js "bold"; js "outline"].

(** [s.match(/_(regular|filled|light|bold|outline)$/i)]: the capture, in the
    letter case of [s]. *)
Definition match_style (s : jsstring) : option jsstring :=
  let n := length s in
  match
    find (fun alt => endsWith (map ascii_lower s) (UNDERSCORE :: alt)) STYLES
  with
  | Some alt => Some (skipn (n - length alt) s)
  | None => None
  end.

(** ** Writing the manifest

    The files of the working directory, by path, with their bytes. *)
Abbreviation FileSystem := (gmap string (list N)).

(** What [writeFile] asks of the file system.  [OpenW path] opens the path
    with Node's default flag ["w"]: the file is created when it does not
    exist and truncated to length zero when it does.  [WriteBytes path chunk]
    writes the next bytes at the end of what the call has written so far. *)
Inductive FsOp : Type :=
| OpenW (path : string)
| WriteBytes (path : string) (chunk : list N).

Definition perform (fs : FileSystem) (op : FsOp) : FileSystem :=
  match op with
  | OpenW path => <[path := []]> fs
  | WriteBytes path chunk => <[path := default [] (fs !! path) ++ chunk]> fs
  end.

(** The file system before the first operation and after each one: what a
    reader of the directory can see while the operations run. *)
Fixpoint observable (fs : FileSystem) (ops : list FsOp) : list FileSystem :=
  match ops with
  | [] => [fs]
  | op :: rest => fs :: observable (perform fs op) rest
  end.

(** The bytes go out in one or more writes; how many bytes each write takes
    is the system's choice: here [S n] bytes for each [n] of [sizes], and
    what is left after the last of them in one write. *)
Fixpoint chunks (sizes : list nat) (bytes : list N) {struct sizes}
  : list (list N) :=
  match bytes with
  | [] => []
  | _ :: _ =>
      match sizes with
      | [] => [bytes]
      | n :: rest => firstn (S n) bytes :: chunks rest (skipn (S n) bytes)
      end
  end.

(** [writeFile(path, data)] of [fs/promises], for a path that can be opened
    and written: open with ["w"], write the bytes, close. *)
Definition writeFile (sizes : list nat) (path : string) (bytes : list N)
  : list FsOp :=
  OpenW path :: map (WriteBytes path) (chunks sizes bytes).

(** [OUTPUT_FILE], as a path of the working directory. *)
Definition OUTPUT_FILE : string := "assets_manifest.json".

Section Script.

(** [String.prototype.toLowerCase] and [String.prototype.normalize("NFD")]. *)
Variable toLowerCase : jsstring -> jsstring.
Variable normalizeNFD : jsstring -> jsstring.

Definition slugify (value : jsstring) : jsstring :=
  drop_trailing is_hyphen
    (drop_leading is_hyphen
       (hyphenate
          (List.filter (fun c => negb (is_combining c))
             (normalizeNFD (toLowerCase value))))).

Definition parseFileDetails (fileName : jsstring) : FileDetails :=
  let withoutExtension := strip_svg fileName in
  let sizeMatch := match_size withoutExtension in
  let styleMatch := match_style withoutExtension in
  let size :=
    match sizeMatch with
    | Some ds => if truthy ds then Some (Number_of_digits ds) else None
    | None => None
    end in
  let style := option_map toLowerCase styleMatch in
  mkFileDetails size style withoutExtension.

(** [path.join("assets", entry.name, "SVG", svgFile)]: the names come from
    [readdir], so each is one path segment and nothing is normalised away. *)
Definition relativePath_of (entryName svgFile : jsstring) : jsstring :=
  js "assets/" ++ entryName ++ js "/SVG/" ++ svgFile.

(** The [cdnUrl] expression of [generateManifest]; [encodeURIComponent] may
    throw. *)
Definition cdnUrl_of (base : option jsstring) (entryName svgFile : jsstring)
  : result Exn (option jsstring) :=
  match base with
  | Some b =>
      if truthy b then
        match encodeURIComponent entryName, encodeURIComponent svgFile with
        | Some c, Some f => Ok (Some (b ++ js "/" ++ c ++ js "/SVG/" ++ f))
        | _, _ => Throw URIError
        end
      else Ok None
  | None => Ok None
  end.

(** The body of the inner loop for a file that has the [.svg] suffix. *)
Definition icon_of (base : option jsstring) (entryName slug : jsstring)
    (metadata : IconMetadata) (svgFile : jsstring) : result Exn IconRecord :=
  let d := parseFileDetails svgFile in
  let id := collapse_hyphens (slug ++ js "-" ++ fd_baseName d) in
  await cdnUrl <- cdnUrl_of base entryName svgFile;
  Ok {| id := id;
        category := entryName;
        categorySlug := slug;
        name := default entryName (md_name metadata);
        description := md_description metadata;
        keyword := md_keyword metadata;
        tags := default [] (md_metaphor metadata);
        size := fd_size d;
        style := fd_style d;
        file := svgFile;
        relativePath := relativePath_of entryName svgFile;
        cdnUrl := cdnUrl |}.

(** [for (const svgFile of svgFiles)], pushing onto [icons]. *)
Fixpoint push_icons (base : option jsstring) (entryName slug : jsstring)
    (metadata : IconMetadata) (svgFiles : list jsstring)
    (icons : list IconRecord) : result Exn (list IconRecord) :=
  match svgFiles with
  | [] => Ok icons
  | svgFile :: rest =>
      if negb (endsWith (toLowerCase svgFile) (js ".svg"))
      then push_icons base entryName slug metadata rest icons
      else
        await r <- icon_of base entryName slug metadata svgFile;
        push_icons base entryName slug metadata rest (icons ++ [r])
  end.

(** One turn of [for (const entry of entries)]. *)
Definition visit_entry (base : option jsstring) (entry : Dirent)
    (icons : list IconRecord) : result Exn (list IconRecord) :=
  match entry with
  | FileEntry _ => Ok icons
  | DirEntry entryName metadataFile svgDir =>
      match stat svgDir with
      | Throw _ => Ok icons
      | Ok false => Ok icons
      | Ok true =>
          let metadata := default empty_metadata (readJsonFile metadataFile) in
          await svgFiles <- readdir svgDir;
          let slug := slugify entryName in
          push_icons base entryName slug metadata svgFiles icons
      end
  end.

Fixpoint visit_entries (base : option jsstring) (entries : list Dirent)
    (icons : list IconRecord) : result Exn (list IconRecord) :=
  match entries with
  | [] => Ok icons
  | entry :: rest =>
      await icons' <- visit_entry base entry icons;
      visit_entries base rest icons'
  end.

(** The catalogue: [icons] when the loops of [generateManifest] are done. *)
Definition collect_icons (env : gmap string jsstring) (entries : list Dirent)
  : result Exn (list IconRecord) :=
  visit_entries (ICON_CDN_BASE_URL env) entries [].

(** [JSON.stringify(manifest, null, 2)] *)
Variable JSON_stringify : Manifest -> jsstring.

(** [generateManifest]: [assets] is what [readdir(ASSETS_DIR)] completes
    with and [now] is [new Date().toISOString()].  The result is the text
    passed to the one [writeFile(OUTPUT_FILE, ..)] call of the script; when
    it is [Throw], nothing is written. *)
Definition generateManifest (env : gmap string jsstring)
    (assets : result Exn (list Dirent)) (now : jsstring)
  : result Exn jsstring :=
  await entries <- assets;
  await icons <- collect_icons env entries;
  Ok (JSON_stringify
        {| generatedAt := now; count := length icons; icons := icons |}).

(** The UTF-8 bytes of a string, which is what [writeFile] writes. *)
Variable utf8 : jsstring -> list N.

(** The run of the script, [generateManifest().catch(..)]: what it asks of
    the file system through its one [writeFile(OUTPUT_FILE, ..)] call, and
    how it ends ([Throw]: the process exits with status 1).  The script has
    no other call that writes, renames or removes a file. *)
Definition script (env : gmap string jsstring)
    (assets : result Exn (list Dirent)) (now : jsstring) (sizes : list nat)
  : list FsOp * result Exn unit :=
  match generateManifest env assets now with
  | Ok text => (writeFile sizes OUTPUT_FILE (utf8 text), Ok tt)
  | Throw e => ([], Throw e)
  end.

End Script.

End IconIndex.

(* ===================================================================== *)
(** * scripts/upload-r2.ts (the batched uploader) *)
(* ===================================================================== *)

Module UploadR2.
Import Js.

(** [type UploadConfig] *)
Record UploadConfig : Type := mkUploadConfig {
  accountId : jsstring;
  accessKeyId : jsstring;
  secretAccessKey : jsstring;
  bucketName : jsstring;
  prefix : option jsstring
}.

(** What the script throws or an awaited promise rejects with. *)
Inductive Failure : Type :=
| Error (message : jsstring)
| ReadFileError (relativePath : jsstring).

(** [!v] is false for a variable of [process.env] that is set to a string
    that is not empty. *)
Definition is_set (v : option jsstring) : bool :=
  match v with
  | Some s => truthy s
  | None => false
  end.

(** Removing the matches of [/^\/+|\/+$/g]. *)
Definition trim_slashes (s : jsstring) : jsstring :=
  drop_trailing is_slash (drop_leading is_slash s).

(** [missing.push(name)] when the variable is not set. *)
Definition push_missing (v : option jsstring) (name : string)
    (missing : list jsstring) : list jsstring :=
  if negb (is_set v) then missing ++ [js name] else missing.

Definition getConfig (env : gmap string jsstring)
  : result Failure UploadConfig :=
  let R2_ACCOUNT_ID := env !! "R2_ACCOUNT_ID"%string in
  let R2_ACCESS_KEY_ID := env !! "R2_ACCESS_KEY_ID"%string in
  let R2_SECRET_ACCESS_KEY := env !! "R2_SECRET_ACCESS_KEY"%string in
  let R2_BUCKET_NAME := env !! "R2_BUCKET_NAME"%string in
  let R2_PREFIX := env !! "R2_PREFIX"%string in
  let missing := [] in
  let missing := push_missing R2_ACCOUNT_ID "R2_ACCOUNT_ID" missing in
  let missing := push_missing R2_ACCESS_KEY_ID "R2_ACCESS_KEY_ID" missing in
  let missing :=
    push_missing R2_SECRET_ACCESS_KEY "R2_SECRET_ACCESS_KEY" missing in
  let missing := push_missing R2_BUCKET_NAME "R2_BUCKET_NAME" missing in
  if (0 <? length missing)%nat then
    Throw (Error (js "Missing required environment variables: "
                    ++ join (js ", ") missing))
  else
    Ok {| accountId := default [] R2_ACCOUNT_ID;
          accessKeyId := default [] R2_ACCESS_KEY_ID;
          secretAccessKey := default [] R2_SECRET_ACCESS_KEY;
          bucketName := default [] R2_BUCKET_NAME;
          prefix := option_map trim_slashes R2_PREFIX |}.

(** ** The world of one run

    [file_content p] is what [readFile] of the asset [p] completes with
    ([None]: it rejects).  [send_ok key n] says whether the [n]-th
    [client.send] of the object [key] succeeds; each pair is asked at most
    once in a run. *)
Record World : Type := mkWorld {
  file_content : jsstring -> option (list N);
  send_ok : jsstring -> nat -> bool
}.

Inductive Event : Type :=
| Read (relativePath : jsstring)
| Send (key : jsstring) (attempt : nat)
| Sleep (ms : N)
| Failed (relativePath : jsstring).

(** [segment.replace(/\\/g, "/")] *)
Definition to_slashes (s : jsstring) : jsstring :=
  map (fun c => if c =? BACKSLASH then SLASH else c) s.

(** [[config.prefix, relativePath].filter(Boolean).map(..).join("/")] *)
Definition object_key (config : UploadConfig) (relativePath : jsstring)
  : jsstring :=
  let keySegments :=
    map to_slashes
      (List.filter truthy
         (match prefix config with Some p => [p] | None => [] end
          ++ [relativePath])) in
  join (js "/") keySegments.

(** [Math.min(1000 * Math.pow(2, attempt - 1), 10000)] *)
Definition backoff (attempt : nat) : N :=
  N.min (1000 * 2 ^ N.of_nat (attempt - 1)) 10000.

(** [for (let attempt = 1; attempt <= retries; attempt++)] of [uploadFile];
    the loop runs at most [retries] times, which [fuel] counts down. *)
Fixpoint send_loop (w : World) (key relativePath : jsstring) (retries : nat)
    (fuel attempt : nat) : list Event * bool :=
  match fuel with
  | O => ([], false)
  | S fuel' =>
      if (attempt <=? retries)%nat then
        if send_ok w key attempt then ([Send key attempt], true)
        else if (attempt =? retries)%nat
        then ([Send key attempt; Failed relativePath], false)
        else
          let '(log, r) :=
            send_loop w key relativePath retries fuel' (S attempt) in
          (Send key attempt :: Sleep (backoff attempt) :: log, r)
      else ([], false)
  end.

Definition uploadFile (w : World) (config : UploadConfig)
    (relativePath : jsstring) (retries : nat)
  : list Event * result Failure bool :=
  match file_content w relativePath with
  | None => ([Read relativePath], Throw (ReadFileError relativePath))
  | Some buffer =>
      let key := object_key config relativePath in
      let '(log, r) := send_loop w key relativePath retries retries 1 in
      (Read relativePath :: log, Ok r)
  end.

(** [Promise.all]: the values when every promise is fulfilled, the first
    rejection otherwise. *)
Fixpoint promise_all {A} (ps : list (result Failure A))
  : result Failure (list A) :=
  match ps with
  | [] => Ok []
  | p :: rest =>
      await a <- p;
      await l <- promise_all rest;
      Ok (a :: l)
  end.

(** [uploadBatch]: every [uploadFile] of the batch is started by [files.map]
    and calls [readFile] at once, so every file of the batch is read.  When
    the reads succeed the uploads overlap in time; the log keeps the events
    of each file together, in the order of [files], and the result is
    [{success, failed}].  When a read fails, [Promise.all] rejects with it,
    [main] rejects, and the handler of [main().catch] ends the process at
    that rejection: the log of such a batch is its reads, no upload of the
    batch having gone further when the process ends. *)
Definition uploadBatch (w : World) (config : UploadConfig)
    (files : list jsstring) : list Event * result Failure (nat * nat) :=
  let runs := map (fun f => uploadFile w config f 5) files in
  match promise_all (map snd runs) with
  | Ok results =>
      let success := length (List.filter (fun r : bool => r) results) in
      let failed := (length results - success)%nat in
      (concat (map fst runs), Ok (success, failed))
  | Throw e => (map Read files, Throw e)
  end.

Definition BATCH_SIZE : nat := 50.

(** [files.slice(i, j)] *)
Definition slice {A} (i j : nat) (l : list A) : list A :=
  firstn (j - i) (skipn i l).

(** [for (let i = 0; i < files.length; i += BATCH_SIZE) batches.push(..)];
    the loop runs at most [files.length] times, which [fuel] counts down. *)
Fixpoint batches_from (fuel i : nat) (files : list jsstring)
  : list (list jsstring) :=
  match fuel with
  | O => []
  | S fuel' =>
      if (i <? length files)%nat
      then slice i (i + BATCH_SIZE) files
             :: batches_from fuel' (i + BATCH_SIZE) files
      else []
  end.

Definition split_batches (files : list jsstring) : list (list jsstring) :=
  batches_from (length files) 0 files.

(** [for (let i = 0; i < batches.length; i++)] of [main]: a batch is started
    when the one before it has completed; a rejection ends [main]. *)
Fixpoint upload_batches (w : World) (config : UploadConfig)
    (batches : list (list jsstring)) (totalSuccess totalFailed : nat)
  : list Event * result Failure (nat * nat) :=
  match batches with
  | [] => ([], Ok (totalSuccess, totalFailed))
  | batch :: rest =>
      match uploadBatch w config batch with
      | (log, Throw e) => (log, Throw e)
      | (log, Ok (success, failed)) =>
          let '(log', r) :=
            upload_batches w config rest
              (totalSuccess + success)%nat (totalFailed + failed)%nat in
          (log ++ log', r)
      end
  end.

(** [main]: [assets] is what the [stat] and [collectSvgFiles] of the assets
    directory complete with.  The result is the pair of totals that the last
    [console.log] reports ([None] when no file was found); on [Throw] the
    process exits with status 1. *)
Definition main (env : gmap string jsstring) (w : World)
    (assets : result Failure (list jsstring))
  : list Event * result Failure (option (nat * nat)) :=
  match getConfig env with
  | Throw e => ([], Throw e)
  | Ok config =>
      match assets with
      | Throw e => ([], Throw e)
      | Ok files =>
          if (length files =? 0)%nat then ([], Ok None)
          else
            match upload_batches w config (split_batches files) 0 0 with
            | (log, Throw e) => (log, Throw e)
            | (log, Ok totals) => (log, Ok (Some totals))
            end
      end
  end.

End UploadR2.

(* ===================================================================== *)
(** * Facts about the string functions *)
(* ===================================================================== *)

Import Js.

Section StringFacts.

Variable p : N -> bool.

Lemma take_drop_while (s : jsstring) :
  take_while p s ++ drop_while p s = s.
Proof.
  induction s as [|c t IH]; simpl; [reflexivity|].
  destruct (p c); simpl; [now rewrite IH | reflexivity].
Qed.

Lemma take_while_all (s : jsstring) : forallb p (take_while p s) = true.
Proof.
  induction s as [|c t IH]; simpl; [reflexivity|].
  destruct (p c) eqn:E; simpl; [now rewrite E | reflexivity].
Qed.

Lemma drop_while_head (s : jsstring) c t :
  drop_while p s = c :: t -> p c = false.
Proof.
  induction s as [|d u IH]; simpl; [discriminate|].
  destruct (p d) eqn:E; [exact IH|].
  intros H; injection H as -> _; exact E.
Qed.

Lemma drop_while_id (s : jsstring) :
  (forall c t, s = c :: t -> p c = false) -> drop_while p s = s.
Proof.
  destruct s as [|c t]; simpl; [reflexivity|].
  intros H; now rewrite (H c t eq_refl).
Qed.

(** What [drop_leading] removes is a prefix inside the class. *)
Lemma drop_leading_split (s : jsstring) :
  exists pre, s = pre ++ drop_leading p s /\ forallb p pre = true.
Proof.
  exists (take_while p s); split.
  - symmetry; apply take_drop_while.
  - apply take_while_all.
Qed.

(** What [drop_trailing] removes is a suffix inside the class. *)
Lemma drop_trailing_split (s : jsstring) :
  exists post, s = drop_trailing p s ++ post /\ forallb p post = true.
Proof.
  unfold drop_trailing.
  exists (rev (take_while p (rev s))); split.
  - rewrite <- rev_app_distr, take_drop_while. symmetry; apply rev_involutive.
  - rewrite forallb_forall; intros x Hx. apply in_rev in Hx.
    pose proof (take_while_all (rev s)) as H.
    rewrite forallb_forall in H; now apply H.
Qed.

Lemma drop_trailing_last (s : jsstring) t c :
  drop_trailing p s = t ++ [c] -> p c = false.
Proof.
  unfold drop_trailing; intros H.
  apply (f_equal (@rev N)) in H.
  rewrite rev_involutive, rev_app_distr in H; simpl in H.
  now apply drop_while_head in H.
Qed.

Lemma drop_trailing_id (s : jsstring) :
  (forall t c, s = t ++ [c] -> p c = false) -> drop_trailing p s = s.
Proof.
  intros H; unfold drop_trailing.
  rewrite drop_while_id; [apply rev_involutive|].
  intros c t E. apply (H (rev t) c).
  rewrite <- (rev_involutive s), E; reflexivity.
Qed.

End StringFacts.

Lemma is_hyphen_eq c : is_hyphen c = true <-> c = HYPHEN.
Proof. unfold is_hyphen; apply N.eqb_eq. Qed.

Lemma is_az09_cases c :
  is_az09 c = true -> is_lower c = true \/ is_digit c = true.
Proof. unfold is_az09; intros H; apply orb_true_iff in H; exact H. Qed.

Lemma is_az09_not_hyphen c : is_az09 c = true -> is_hyphen c = false.
Proof.
  unfold is_az09, is_lower, is_digit, in_range, is_hyphen, HYPHEN.
  intros H; apply N.eqb_neq; intros ->; discriminate H.
Qed.

Lemma is_az09_bounds c : is_az09 c = true -> 48 <= c <= 122.
Proof.
  unfold is_az09, is_lower, is_digit, in_range; intros H.
  apply orb_true_iff in H.
  destruct H as [H|H]; apply andb_true_iff in H; destruct H as [H1 H2];
    apply N.leb_le in H1, H2; lia.
Qed.

(** ** Slugs: the normal form of [slugify] *)

(** A code unit of a slug: a lowercase ASCII letter, a digit or a hyphen. *)
Definition slug_unit (c : N) : Prop :=
  is_lower c = true \/ is_digit c = true \/ c = HYPHEN.

(** No two adjacent hyphens. *)
Definition single_hyphens (s : jsstring) : Prop :=
  forall pre post, s <> pre ++ HYPHEN :: HYPHEN :: post.

Definition no_leading_hyphen (s : jsstring) : Prop :=
  forall t, s <> HYPHEN :: t.

Definition no_trailing_hyphen (s : jsstring) : Prop :=
  forall t, s <> t ++ [HYPHEN].

Fixpoint no_hyphen_pair (s : jsstring) : bool :=
  match s with
  | [] => true
  | c :: t =>
      match t with
      | d :: _ => negb (is_hyphen c && is_hyphen d) && no_hyphen_pair t
      | [] => true
      end
  end.

Lemma no_hyphen_pair_single (s : jsstring) :
  no_hyphen_pair s = true -> single_hyphens s.
Proof.
  intros H pre; revert s H.
  induction pre as [|c pre IH]; intros s H post E; subst s.
  - simpl in H. discriminate H.
  - simpl in H. destruct (pre ++ HYPHEN :: HYPHEN :: post) as [|d u] eqn:E.
    + destruct pre; discriminate E.
    + apply andb_true_iff in H; destruct H as [_ H].
      rewrite <- E in H. exact (IH _ H post eq_refl).
Qed.

Lemma slug_unit_az09 c : is_az09 c = true -> slug_unit c.
Proof.
  intros H; destruct (is_az09_cases c H); [left | right; left]; assumption.
Qed.

Lemma hyphenate_from_units b (s : jsstring) :
  Forall slug_unit (hyphenate_from b s).
Proof.
  revert b; induction s as [|c t IH]; intros b; simpl; [constructor|].
  destruct (is_az09 c) eqn:E.
  - constructor; [now apply slug_unit_az09 | apply IH].
  - destruct b; [apply IH|].
    constructor; [right; right; reflexivity | apply IH].
Qed.

Lemma hyphenate_from_run_head (s : jsstring) c t :
  hyphenate_from true s = c :: t -> is_hyphen c = false.
Proof.
  induction s as [|d u IH]; simpl; [discriminate|].
  destruct (is_az09 d) eqn:E; [|exact IH].
  intros H; injection H as <- _. now apply is_az09_not_hyphen.
Qed.

Lemma no_hyphen_pair_cons c d (u : jsstring) :
  no_hyphen_pair (c :: d :: u)
  = negb (is_hyphen c && is_hyphen d) && no_hyphen_pair (d :: u).
Proof. reflexivity. Qed.

Lemma hyphenate_from_no_pair b (s : jsstring) :
  no_hyphen_pair (hyphenate_from b s) = true.
Proof.
  revert b; induction s as [|c t IH]; intros b; simpl; [reflexivity|].
  destruct (is_az09 c) eqn:E.
  - specialize (IH false).
    destruct (hyphenate_from false t) as [|d u]; [reflexivity|].
    now rewrite no_hyphen_pair_cons, (is_az09_not_hyphen c E), IH.
  - destruct b; [apply IH|].
    pose proof (hyphenate_from_run_head t) as Hh. specialize (IH true).
    destruct (hyphenate_from true t) as [|d u]; [reflexivity|].
    now rewrite no_hyphen_pair_cons, (Hh d u eq_refl), andb_false_r, IH.
Qed.

(** On a string of slug units with single hyphens, the replacement of
    [/[^a-z0-9]+/g] changes nothing. *)
Lemma hyphenate_from_fixed (s : jsstring) :
  Forall slug_unit s -> single_hyphens s ->
  hyphenate_from false s = s
  /\ (no_leading_hyphen s -> hyphenate_from true s = s).
Proof.
  induction s as [|c t IH]; intros Hu Hs; simpl; [split; reflexivity|].
  inversion Hu as [|? ? Hc Ht]; subst.
  assert (Hs' : single_hyphens t).
  { intros pre post E. apply (Hs (c :: pre) post). now rewrite E. }
  destruct (IH Ht Hs') as [IH1 IH2].
  destruct (is_az09 c) eqn:E.
  - rewrite IH1; split; reflexivity.
  - assert (c = HYPHEN) as ->.
    { destruct Hc as [Hc|[Hc|Hc]]; [| |exact Hc];
        unfold is_az09 in E; rewrite Hc in E; simpl in E;
        [discriminate E | rewrite orb_true_r in E; discriminate E]. }
    split.
    + rewrite IH2; [reflexivity|].
      intros u Eu. apply (Hs [] u). now rewrite Eu.
    + intros Hl. exfalso. exact (Hl t eq_refl).
Qed.

Lemma slug_unit_facts c :
  slug_unit c ->
  is_ascii c = true /\ is_upper c = false /\ is_combining c = false.
Proof.
  unfold slug_unit, is_lower, is_digit, is_ascii, is_upper, is_combining,
    in_range, HYPHEN.
  intros H.
  assert (45 <= c <= 122) as Hb.
  { destruct H as [H|[H|H]]; [| |lia];
      apply andb_true_iff in H; destruct H as [H1 H2];
      apply N.leb_le in H1, H2; lia. }
  assert (~ (65 <= c <= 90)) as Hu.
  { destruct H as [H|[H|H]]; [| |lia];
      apply andb_true_iff in H; destruct H as [H1 H2];
      apply N.leb_le in H1, H2; lia. }
  repeat split.
  - apply N.ltb_lt; lia.
  - apply andb_false_iff.
    destruct (N.leb_spec 65 c); [right | left; reflexivity].
    apply N.leb_gt; lia.
  - apply andb_false_iff; left; apply N.leb_gt; lia.
Qed.

Lemma slug_units_ascii (s : jsstring) :
  Forall slug_unit s ->
  all_ascii s = true
  /\ ascii_toLowerCase s = s
  /\ List.filter (fun c => negb (is_combining c)) s = s.
Proof.
  induction 1 as [|c t Hc Ht IH]; [repeat split|].
  destruct IH as (IH1 & IH2 & IH3).
  destruct (slug_unit_facts c Hc) as (H1 & H2 & H3).
  unfold all_ascii, ascii_toLowerCase, ascii_lower in *; simpl.
  rewrite H1, H2, H3, IH1, IH2, IH3; repeat split.
Qed.

(** ** The string functions on sample inputs *)

Example hyphenate_sample :
  hyphenate (js "  hello,  world!! ") = js "-hello-world-".
Proof. reflexivity. Qed.

Example collapse_hyphens_sample :
  collapse_hyphens (js "--a---b-c--") = js "-a-b-c-".
Proof. reflexivity. Qed.

Example slugify_sample :
  IconIndex.slugify ascii_toLowerCase ascii_normalizeNFD
    (js "  Hello,  World!! ")
  = js "hello-world".
Proof. reflexivity. Qed.

Example strip_svg_sample :
  IconIndex.strip_svg (js "Clock_24_Bold.SVG") = js "Clock_24_Bold"
  /\ IconIndex.strip_svg (js "svg") = js "svg"
  /\ IconIndex.strip_svg (js "a.svg.bak") = js "a.svg.bak".
Proof. repeat split. Qed.

Example match_size_sample :
  IconIndex.match_size (js "a_1b_20_c_30_") = Some (js "20")
  /\ IconIndex.match_size (js "icon_20") = None
  /\ IconIndex.match_size (js "a__7_") = Some (js "7").
Proof. repeat split. Qed.

Example match_style_sample :
  IconIndex.match_style (js "clock_24_BOLD") = Some (js "BOLD")
  /\ IconIndex.match_style (js "clock_bold_24") = None
  /\ IconIndex.match_style (js "bold") = None.
Proof. repeat split. Qed.

Example Number_of_digits_sample :
  Number_of_digits (js "007") = Finite 7
  /\ Number_of_digits (js "9007199254740993") = Finite 9007199254740992
  /\ Number_of_digits (js "9007199254740995") = Finite 9007199254740996.
Proof. repeat split; vm_compute; reflexivity. Qed.

Example encodeURIComponent_sample :
  encodeURIComponent (js "Access Time") = Some (js "Access%20Time")
  /\ encodeURIComponent [233; 8364; 55357; 56832]
     = Some (js "%C3%A9%E2%82%AC%F0%9F%98%80")
  /\ encodeURIComponent [55357] = None.
Proof. repeat split; vm_compute; reflexivity. Qed.

(* ===================================================================== *)
(** * The slug normaliser *)
(* ===================================================================== *)

Section SlugNormalizer.

Variable toLowerCase : jsstring -> jsstring.
Variable normalizeNFD : jsstring -> jsstring.

(** The two runtime functions on ASCII input. *)
Hypothesis toLowerCase_ascii :
  forall s, all_ascii s = true -> toLowerCase s = ascii_toLowerCase s.
Hypothesis normalizeNFD_ascii :
  forall s, all_ascii s = true -> normalizeNFD s = ascii_normalizeNFD s.

#[local] Abbreviation slugify := (IconIndex.slugify toLowerCase normalizeNFD).

(** The slug is what is left of the hyphenated string between the hyphens
    trimmed at its two ends. *)
Lemma slugify_split (value : jsstring) :
  exists pre post,
    hyphenate
      (List.filter (fun c => negb (is_combining c))
         (normalizeNFD (toLowerCase value)))
    = pre ++ slugify value ++ post.
Proof.
  unfold IconIndex.slugify.
  set (h := hyphenate _).
  destruct (drop_leading_split is_hyphen h) as (pre & Hpre & _).
  destruct (drop_trailing_split is_hyphen (drop_leading is_hyphen h))
    as (post & Hpost & _).
  exists pre, post. now rewrite <- Hpost.
Qed.

Lemma slugify_units (value : jsstring) : Forall slug_unit (slugify value).
Proof.
  destruct (slugify_split value) as (pre & post & E).
  pose proof (hyphenate_from_units false
    (List.filter (fun c => negb (is_combining c))
       (normalizeNFD (toLowerCase value)))) as H.
  unfold hyphenate in E; rewrite E in H.
  apply Forall_app in H; destruct H as [_ H].
  apply Forall_app in H; tauto.
Qed.

Lemma slugify_single_hyphens (value : jsstring) :
  single_hyphens (slugify value).
Proof.
  destruct (slugify_split value) as (pre & post & E).
  intros a b Eab.
  unfold hyphenate in E.
  match type of E with hyphenate_from false ?x = _ =>
    apply (no_hyphen_pair_single _ (hyphenate_from_no_pair false x)
             (pre ++ a) (b ++ post))
  end.
  rewrite E, Eab. now rewrite <- !app_assoc.
Qed.

Lemma slugify_no_trailing_hyphen (value : jsstring) :
  no_trailing_hyphen (slugify value).
Proof.
  intros t E. unfold IconIndex.slugify in E.
  apply drop_trailing_last in E. discriminate E.
Qed.

Lemma slugify_no_leading_hyphen (value : jsstring) :
  no_leading_hyphen (slugify value).
Proof.
  intros t E. unfold IconIndex.slugify in E.
  match type of E with drop_trailing _ ?l = _ =>
    destruct (drop_trailing_split is_hyphen l) as (post & Hpost & _);
    rewrite E in Hpost
  end.
  simpl in Hpost. apply drop_while_head in Hpost. discriminate Hpost.
Qed.

(** A slug is left unchanged. *)
Lemma slugify_fixed (s : jsstring) :
  Forall slug_unit s -> single_hyphens s ->
  no_leading_hyphen s -> no_trailing_hyphen s ->
  slugify s = s.
Proof.
  intros Hu Hs Hl Ht.
  destruct (slug_units_ascii s Hu) as (Ha & Hlow & Hcomb).
  unfold IconIndex.slugify.
  rewrite (toLowerCase_ascii s Ha), Hlow.
  rewrite (normalizeNFD_ascii s Ha); unfold ascii_normalizeNFD.
  rewrite Hcomb.
  unfold hyphenate. rewrite (proj1 (hyphenate_from_fixed s Hu Hs)).
  unfold drop_leading. rewrite drop_while_id.
  - apply drop_trailing_id. intros t c E.
    destruct (is_hyphen c) eqn:Ec; [|reflexivity].
    apply is_hyphen_eq in Ec; subst c. now destruct (Ht t).
  - intros c t E.
    destruct (is_hyphen c) eqn:Ec; [|reflexivity].
    apply is_hyphen_eq in Ec; subst c. now destruct (Hl t).
Qed.

(** C2. For every input string, the output of [slugify] holds only lowercase
    ASCII letters, digits and hyphens, never two adjacent hyphens, and no
    leading or trailing hyphen; and [slugify] applied to its own output
    returns that output unchanged.  (The first four parts hold for any
    [toLowerCase] and [normalize]; idempotence uses what the two do on
    ASCII strings.) *)
Theorem slugify_normal_form_idempotent (value : jsstring) :
  Forall slug_unit (slugify value)
  /\ single_hyphens (slugify value)
  /\ no_leading_hyphen (slugify value)
  /\ no_trailing_hyphen (slugify value)
  /\ slugify (slugify value) = slugify value.
Proof.
  pose proof (slugify_units value) as Hu.
  pose proof (slugify_single_hyphens value) as Hs.
  pose proof (slugify_no_leading_hyphen value) as Hl.
  pose proof (slugify_no_trailing_hyphen value) as Ht.
  repeat split; try assumption.
  now apply slugify_fixed.
Qed.

End SlugNormalizer.

(** The ASCII functions meet the two hypotheses. *)
Lemma ascii_toLowerCase_ascii :
  forall s, all_ascii s = true -> ascii_toLowerCase s = ascii_toLowerCase s.
Proof. reflexivity. Qed.

Lemma ascii_normalizeNFD_ascii :
  forall s, all_ascii s = true -> ascii_normalizeNFD s = ascii_normalizeNFD s.
Proof. reflexivity. Qed.

Lemma slugify_normal_form_idempotent_witness :
  Forall slug_unit
    (IconIndex.slugify ascii_toLowerCase ascii_normalizeNFD (js "Access Time"))
  /\ single_hyphens
       (IconIndex.slugify ascii_toLowerCase ascii_normalizeNFD (js "Access Time"))
  /\ no_leading_hyphen
       (IconIndex.slugify ascii_toLowerCase ascii_normalizeNFD (js "Access Time"))
  /\ no_trailing_hyphen
       (IconIndex.slugify ascii_toLowerCase ascii_normalizeNFD (js "Access Time"))
  /\ IconIndex.slugify ascii_toLowerCase ascii_normalizeNFD
       (IconIndex.slugify ascii_toLowerCase ascii_normalizeNFD (js "Access Time"))
     = IconIndex.slugify ascii_toLowerCase ascii_normalizeNFD (js "Access Time").
Proof.
  exact (slugify_normal_form_idempotent ascii_toLowerCase ascii_normalizeNFD
           ascii_toLowerCase_ascii ascii_normalizeNFD_ascii (js "Access Time")).
Defined.

(* ===================================================================== *)
(** * The catalogue builder *)
(* ===================================================================== *)

Import IconIndex.

(** [String.prototype.isWellFormed]: no surrogate outside a pair.  The names
    that [readdir] returns are decoded from UTF-8 and are well formed. *)
Fixpoint isWellFormed (s : jsstring) : bool :=
  match s with
  | [] => true
  | c :: t =>
      if is_low_surrogate c then false
      else if is_high_surrogate c then
        match t with
        | d :: t' => is_low_surrogate d && isWellFormed t'
        | [] => false
        end
      else isWellFormed t
  end.

Lemma unreserved_not_surrogate c :
  is_uri_unreserved c = true ->
  is_low_surrogate c = false /\ is_high_surrogate c = false.
Proof.
  unfold is_uri_unreserved, is_upper, is_lower, is_digit, is_low_surrogate,
    is_high_surrogate, in_range.
  intros H.
  assert (c <= 126) as Hb.
  { repeat (apply orb_true_iff in H; destruct H as [H|H]).
    - apply andb_true_iff in H; destruct H as [_ H]; apply N.leb_le in H; lia.
    - apply andb_true_iff in H; destruct H as [_ H]; apply N.leb_le in H; lia.
    - apply andb_true_iff in H; destruct H as [_ H]; apply N.leb_le in H; lia.
    - apply bool_decide_eq_true in H. simpl in H.
      repeat (destruct H as [H|H]; [subst c; lia|]). destruct H. }
  split; apply andb_false_iff; left; apply N.leb_gt; lia.
Qed.

(** [encodeURIComponent] returns on every well-formed string. *)
Lemma encodeURIComponent_total (s : jsstring) :
  isWellFormed s = true -> exists e, encodeURIComponent s = Some e.
Proof.
  assert (forall n (s : jsstring), (length s <= n)%nat ->
            isWellFormed s = true -> exists e, encodeURIComponent s = Some e)
    as H; [|exact (H (length s) s (le_n _))].
  clear s; induction n as [|n IH]; intros s Hn Hw.
  - destruct s; [exists []; reflexivity | simpl in Hn; lia].
  - destruct s as [|c t]; [exists []; reflexivity|].
    simpl in Hn, Hw |- *.
    destruct (is_uri_unreserved c) eqn:Eu.
    + destruct (unreserved_not_surrogate c Eu) as [El Eh].
      rewrite El, Eh in Hw.
      destruct (IH t ltac:(lia) Hw) as [e ->]. eexists; reflexivity.
    + destruct (is_low_surrogate c); [discriminate Hw|].
      destruct (is_high_surrogate c).
      * destruct t as [|d t']; [discriminate Hw|].
        apply andb_true_iff in Hw; destruct Hw as [Hd Hw]. rewrite Hd.
        simpl in Hn.
        destruct (IH t' ltac:(lia) Hw) as [e ->]. eexists; reflexivity.
      * destruct (IH t ltac:(lia) Hw) as [e ->]. eexists; reflexivity.
Qed.

Section Catalogue.

Variable toLowerCase : jsstring -> jsstring.
Variable normalizeNFD : jsstring -> jsstring.

#[local] Abbreviation slugify := (IconIndex.slugify toLowerCase normalizeNFD).
#[local] Abbreviation parseFileDetails :=
  (IconIndex.parseFileDetails toLowerCase).
#[local] Abbreviation icon_of := (IconIndex.icon_of toLowerCase).
#[local] Abbreviation push_icons := (IconIndex.push_icons toLowerCase).
#[local] Abbreviation visit_entry :=
  (IconIndex.visit_entry toLowerCase normalizeNFD).
#[local] Abbreviation visit_entries :=
  (IconIndex.visit_entries toLowerCase normalizeNFD).
#[local] Abbreviation collect_icons :=
  (IconIndex.collect_icons toLowerCase normalizeNFD).

(** The test of the inner loop: [svgFile.toLowerCase().endsWith(".svg")]. *)
Definition has_svg_suffix (svgFile : jsstring) : bool :=
  endsWith (toLowerCase svgFile) (js ".svg").

(** The record that [icon_of] builds, field by field. *)
Lemma icon_of_fields base entryName slug metadata svgFile r :
  icon_of base entryName slug metadata svgFile = Ok r ->
  id r = collapse_hyphens (slug ++ js "-" ++ strip_svg svgFile)
  /\ category r = entryName
  /\ categorySlug r = slug
  /\ name r = default entryName (md_name metadata)
  /\ description r = md_description metadata
  /\ keyword r = md_keyword metadata
  /\ tags r = default [] (md_metaphor metadata)
  /\ size r = fd_size (parseFileDetails svgFile)
  /\ style r = fd_style (parseFileDetails svgFile)
  /\ file r = svgFile
  /\ relativePath r = relativePath_of entryName svgFile
  /\ cdnUrl_of base entryName svgFile = Ok (cdnUrl r).
Proof.
  unfold IconIndex.icon_of.
  destruct (cdnUrl_of base entryName svgFile) as [u|e]; simpl;
    [|discriminate].
  intros H; injection H as <-; simpl. repeat split.
Qed.

Lemma icon_of_total base entryName slug metadata svgFile u :
  cdnUrl_of base entryName svgFile = Ok u ->
  exists r, icon_of base entryName slug metadata svgFile = Ok r.
Proof.
  intros H; unfold IconIndex.icon_of; rewrite H; simpl.
  eexists; reflexivity.
Qed.

Lemma cdnUrl_of_total base entryName svgFile :
  isWellFormed entryName = true -> isWellFormed svgFile = true ->
  exists u, cdnUrl_of base entryName svgFile = Ok u.
Proof.
  intros H1 H2; unfold cdnUrl_of.
  destruct base as [b|]; [|eexists; reflexivity].
  destruct (truthy b); [|eexists; reflexivity].
  destruct (encodeURIComponent_total _ H1) as [c ->].
  destruct (encodeURIComponent_total _ H2) as [f ->].
  eexists; reflexivity.
Qed.

(** The inner loop appends one record per file with the suffix, in order. *)
Lemma push_icons_sound base entryName slug metadata svgFiles :
  forall icons out,
    push_icons base entryName slug metadata svgFiles icons = Ok out ->
    exists recs,
      out = icons ++ recs
      /\ Forall2 (fun f r => icon_of base entryName slug metadata f = Ok r)
           (List.filter has_svg_suffix svgFiles) recs.
Proof.
  induction svgFiles as [|f rest IH]; intros icons out H; simpl in H.
  - injection H as <-. exists []; split; [now rewrite app_nil_r | constructor].
  - simpl. unfold has_svg_suffix at 1.
    destruct (endsWith (toLowerCase f) (js ".svg")); simpl in H.
    + destruct (icon_of base entryName slug metadata f) as [r|e] eqn:E;
        simpl in H; [|discriminate H].
      destruct (IH _ _ H) as (recs & -> & HF).
      exists (r :: recs); split; [now rewrite <- app_assoc|].
      now constructor.
    + exact (IH _ _ H).
Qed.

Lemma push_icons_complete base entryName slug metadata svgFiles :
  forall icons recs,
    Forall2 (fun f r => icon_of base entryName slug metadata f = Ok r)
      (List.filter has_svg_suffix svgFiles) recs ->
    push_icons base entryName slug metadata svgFiles icons
    = Ok (icons ++ recs).
Proof.
  induction svgFiles as [|f rest IH]; intros icons recs H; simpl in H |- *.
  - inversion H; subst. now rewrite app_nil_r.
  - unfold has_svg_suffix at 1 in H.
    destruct (endsWith (toLowerCase f) (js ".svg")); simpl.
    + inversion H as [|? r ? recs' Hr HF]; subst.
      rewrite Hr; simpl. rewrite (IH _ _ HF). now rewrite <- app_assoc.
    + exact (IH _ _ H).
Qed.

(** Every file of a well-formed listing gets its record. *)
Lemma push_icons_total base entryName slug metadata svgFiles icons :
  isWellFormed entryName = true ->
  Forall (fun f => isWellFormed f = true) svgFiles ->
  exists recs,
    push_icons base entryName slug metadata svgFiles icons
    = Ok (icons ++ recs)
    /\ Forall2 (fun f r => icon_of base entryName slug metadata f = Ok r)
         (List.filter has_svg_suffix svgFiles) recs.
Proof.
  intros Hn Hf.
  assert (exists recs,
    Forall2 (fun f r => icon_of base entryName slug metadata f = Ok r)
      (List.filter has_svg_suffix svgFiles) recs) as [recs HF].
  { clear icons. induction Hf as [|f rest Hw _ IH]; simpl.
    - exists []; constructor.
    - destruct IH as [recs IH].
      destruct (has_svg_suffix f); [|exists recs; exact IH].
      destruct (cdnUrl_of_total base entryName f Hn Hw) as [u Hu].
      destruct (icon_of_total base entryName slug metadata f u Hu) as [r Hr].
      exists (r :: recs); now constructor. }
  exists recs; split; [|exact HF].
  now apply push_icons_complete.
Qed.

(** A record of the catalogue is the record of its category and file. *)
Definition built_by (base : option jsstring) (r : IconRecord) : Prop :=
  exists metadata,
    icon_of base (category r) (slugify (category r)) metadata (file r) = Ok r.

Lemma built_by_intro base entryName metadata svgFile r :
  icon_of base entryName (slugify entryName) metadata svgFile = Ok r ->
  built_by base r.
Proof.
  intros H. destruct (icon_of_fields _ _ _ _ _ _ H)
    as (_ & Hc & _ & _ & _ & _ & _ & _ & _ & Hf & _).
  exists metadata. now rewrite Hc, Hf.
Qed.

Lemma visit_entry_built base entry icons out :
  visit_entry base entry icons = Ok out ->
  Forall (built_by base) icons -> Forall (built_by base) out.
Proof.
  destruct entry as [n|n mf svg]; simpl.
  - intros H; injection H as <-; trivial.
  - destruct (stat svg) as [[|]|e]; try (intros H; injection H as <-; trivial).
    destruct (readdir svg) as [files|e]; simpl; [|discriminate].
    intros H Hi. apply push_icons_sound in H.
    destruct H as (recs & -> & HF).
    apply Forall_app; split; [exact Hi|].
    clear Hi. induction HF as [|f r fs rs Hr _ IH]; constructor; [|exact IH].
    eapply built_by_intro; exact Hr.
Qed.

Lemma visit_entries_built base entries :
  forall icons out,
    visit_entries base entries icons = Ok out ->
    Forall (built_by base) icons -> Forall (built_by base) out.
Proof.
  induction entries as [|e rest IH]; intros icons out H Hi; simpl in H.
  - injection H as <-; exact Hi.
  - destruct (visit_entry base e icons) as [icons'|x] eqn:E; simpl in H;
      [|discriminate H].
    eapply IH; [exact H|]. eapply visit_entry_built; eassumption.
Qed.

Lemma collect_icons_built env entries icons :
  collect_icons env entries = Ok icons ->
  Forall (built_by (ICON_CDN_BASE_URL env)) icons.
Proof.
  intros H. eapply visit_entries_built; [exact H | constructor].
Qed.

Lemma visit_entries_app base a b icons :
  visit_entries base (a ++ b) icons
  = (await icons' <- visit_entries base a icons;
     visit_entries base b icons').
Proof.
  revert icons; induction a as [|e a IH]; intros icons; simpl; [reflexivity|].
  destruct (visit_entry base e icons); simpl; [apply IH | reflexivity].
Qed.

End Catalogue.

(** ** The replacement of [/--+/g] *)

Lemma collapse_hyphens_cons2 c d (u : jsstring) :
  collapse_hyphens (c :: d :: u)
  = if is_hyphen c && is_hyphen d then collapse_hyphens (d :: u)
    else c :: collapse_hyphens (d :: u).
Proof. reflexivity. Qed.

(** The first code unit is kept. *)
Lemma collapse_hyphens_head (s : jsstring) :
  hd_error (collapse_hyphens s) = hd_error s.
Proof.
  induction s as [|c t IH]; [reflexivity|].
  destruct t as [|d u]; [reflexivity|].
  rewrite collapse_hyphens_cons2.
  destruct (is_hyphen c && is_hyphen d) eqn:E; [|reflexivity].
  rewrite IH. apply andb_true_iff in E; destruct E as [Ec Ed].
  apply is_hyphen_eq in Ec, Ed. now subst.
Qed.

(** The last code unit is kept. *)
Lemma collapse_hyphens_last (t : jsstring) c :
  exists t', collapse_hyphens (t ++ [c]) = t' ++ [c].
Proof.
  induction t as [|a t IH]; [exists []; reflexivity|].
  destruct IH as [t' IH]. simpl app.
  destruct (t ++ [c]) as [|d u] eqn:E; [destruct t; discriminate E|].
  rewrite collapse_hyphens_cons2, IH.
  destruct (is_hyphen a && is_hyphen d);
    [exists t' | exists (a :: t')]; reflexivity.
Qed.

(** A run of hyphens, however long, becomes one hyphen. *)
Lemma collapse_hyphens_run n (t : jsstring) :
  no_leading_hyphen t ->
  collapse_hyphens (repeat HYPHEN (S n) ++ t) = HYPHEN :: collapse_hyphens t.
Proof.
  intros Ht. induction n as [|n IH].
  - destruct t as [|d u]; [reflexivity|].
    change (repeat HYPHEN 1 ++ d :: u) with (HYPHEN :: d :: u).
    rewrite collapse_hyphens_cons2.
    destruct (is_hyphen d) eqn:Ed; [|reflexivity].
    apply is_hyphen_eq in Ed. subst d. now destruct (Ht u).
  - change (repeat HYPHEN (S (S n)) ++ t)
      with (HYPHEN :: HYPHEN :: repeat HYPHEN n ++ t).
    rewrite collapse_hyphens_cons2. exact IH.
Qed.

(** No run of hyphens is left. *)
Lemma collapse_hyphens_single (s : jsstring) :
  single_hyphens (collapse_hyphens s).
Proof.
  apply no_hyphen_pair_single.
  induction s as [|c t IH]; [reflexivity|].
  destruct t as [|d u]; [reflexivity|].
  rewrite collapse_hyphens_cons2.
  destruct (is_hyphen c && is_hyphen d) eqn:E; [exact IH|].
  pose proof (collapse_hyphens_head (d :: u)) as Hh.
  destruct (collapse_hyphens (d :: u)) as [|d' u']; [reflexivity|].
  simpl in Hh; injection Hh as ->.
  now rewrite no_hyphen_pair_cons, E, IH.
Qed.

(** ** The end-to-end example of the specification *)

Definition access_time_metadata : IconMetadata :=
  {| md_name := Some (js "Access Time");
     md_size := None;
     md_style := None;
     md_keyword := Some (js "fluent-icon");
     md_description := None;
     md_metaphor := Some [js "number"; js "24"; js "Circle"] |}.

Definition access_time_entry : Dirent :=
  DirEntry (js "Access Time")
    (MetadataText (JsonObject access_time_metadata))
    (SvgDirectory (Ok [js "access_time_20_filled.svg"])).

(** The record of the example, up to its [cdnUrl]. *)
Definition access_time_record (url : option jsstring) : IconRecord :=
  {| id := js "access-time-access_time_20_filled";
     category := js "Access Time";
     categorySlug := js "access-time";
     name := js "Access Time";
     description := None;
     keyword := Some (js "fluent-icon");
     tags := [js "number"; js "24"; js "Circle"];
     size := Some (Finite 20);
     style := Some (js "filled");
     file := js "access_time_20_filled.svg";
     relativePath := js "assets/Access Time/SVG/access_time_20_filled.svg";
     cdnUrl := url |}.

Definition access_time_url : jsstring :=
  js "https://cdn.example.com/icons/Access%20Time/SVG/access_time_20_filled.svg".

Section RecordIdentifier.

Variable toLowerCase : jsstring -> jsstring.
Variable normalizeNFD : jsstring -> jsstring.

Hypothesis toLowerCase_ascii :
  forall s, all_ascii s = true -> toLowerCase s = ascii_toLowerCase s.
Hypothesis normalizeNFD_ascii :
  forall s, all_ascii s = true -> normalizeNFD s = ascii_normalizeNFD s.

#[local] Abbreviation slugify := (IconIndex.slugify toLowerCase normalizeNFD).
#[local] Abbreviation collect_icons :=
  (IconIndex.collect_icons toLowerCase normalizeNFD).

Lemma all_ascii_lower (s : jsstring) :
  all_ascii s = true -> all_ascii (ascii_toLowerCase s) = true.
Proof.
  unfold all_ascii, ascii_toLowerCase.
  induction s as [|c t IH]; simpl; [reflexivity|].
  intros H; apply andb_true_iff in H; destruct H as [Hc Ht].
  rewrite (IH Ht), andb_true_r.
  unfold ascii_lower, is_upper, in_range, is_ascii in *.
  destruct (65 <=? c) eqn:E1; simpl; [|exact Hc].
  destruct (c <=? 90) eqn:E2; [|exact Hc].
  apply N.leb_le in E2. apply N.ltb_lt. lia.
Qed.

Lemma slugify_ascii (s : jsstring) :
  all_ascii s = true ->
  slugify s = IconIndex.slugify ascii_toLowerCase ascii_normalizeNFD s.
Proof.
  intros H. unfold IconIndex.slugify.
  rewrite (toLowerCase_ascii s H).
  now rewrite (normalizeNFD_ascii _ (all_ascii_lower s H)).
Qed.

Lemma access_time_details :
  IconIndex.parseFileDetails toLowerCase (js "access_time_20_filled.svg")
  = {| fd_size := Some (Finite 20);
       fd_style := Some (js "filled");
       fd_baseName := js "access_time_20_filled" |}.
Proof.
  unfold IconIndex.parseFileDetails.
  replace (strip_svg (js "access_time_20_filled.svg"))
    with (js "access_time_20_filled") by (vm_compute; reflexivity).
  replace (match_style (js "access_time_20_filled"))
    with (Some (js "filled")) by (vm_compute; reflexivity).
  simpl option_map. rewrite (toLowerCase_ascii (js "filled") eq_refl).
  vm_compute; reflexivity.
Qed.

(** C1. Every record of the catalogue has [categorySlug] the slug of its
    category and [id] the slug, a hyphen and the file name without its
    [.svg] suffix, with every run of hyphens collapsed to one.  For the
    category [Access Time] with the descriptor
    [{name: Access Time, keyword: fluent-icon, metaphor: [number, 24, Circle]}]
    and the file [access_time_20_filled.svg], the catalogue is one record
    with [id = access-time-access_time_20_filled],
    [categorySlug = access-time], [size = 20], [style = filled] and
    [tags = [number, 24, Circle]]. *)
Theorem record_id_of_slug_and_stem :
  (forall env entries icons r,
      collect_icons env entries = Ok icons -> In r icons ->
      categorySlug r = slugify (category r)
      /\ id r = collapse_hyphens
                  (categorySlug r ++ js "-" ++ strip_svg (file r))
      /\ single_hyphens (id r))
  /\ (forall env, exists r,
         collect_icons env [access_time_entry] = Ok [r]
         /\ id r = js "access-time-access_time_20_filled"
         /\ categorySlug r = js "access-time"
         /\ size r = Some (Finite 20)
         /\ style r = Some (js "filled")
         /\ tags r = [js "number"; js "24"; js "Circle"]).
Proof.
  split.
  - intros env entries icons r H Hr.
    pose proof (collect_icons_built _ _ _ _ _ H) as Hb.
    rewrite List.Forall_forall in Hb. destruct (Hb r Hr) as [md Hmd].
    destruct (icon_of_fields _ _ _ _ _ _ _ Hmd) as (Hid & _ & Hs & _).
    rewrite Hs. split; [reflexivity|]. rewrite Hid.
    split; [reflexivity | apply collapse_hyphens_single].
  - intros env.
    assert (exists u,
      cdnUrl_of (ICON_CDN_BASE_URL env) (js "Access Time")
        (js "access_time_20_filled.svg") = Ok u) as [u Hu].
    { apply cdnUrl_of_total; reflexivity. }
    unfold IconIndex.collect_icons, access_time_entry.
    cbn [IconIndex.visit_entries IconIndex.visit_entry stat readdir bind
         IconIndex.push_icons].
    rewrite (toLowerCase_ascii (js "access_time_20_filled.svg") eq_refl).
    replace (endsWith (ascii_toLowerCase (js "access_time_20_filled.svg"))
               (js ".svg")) with true by (vm_compute; reflexivity).
    cbn [negb]. unfold IconIndex.icon_of.
    rewrite Hu, access_time_details, (slugify_ascii (js "Access Time") eq_refl).
    cbn [bind app]. eexists; split; [reflexivity|].
    cbn [id categorySlug size style tags fd_size fd_style fd_baseName].
    repeat split; vm_compute; reflexivity.
Qed.

End RecordIdentifier.

Lemma record_id_of_slug_and_stem_witness :
  (categorySlug (access_time_record None)
   = IconIndex.slugify ascii_toLowerCase ascii_normalizeNFD
       (category (access_time_record None))
   /\ id (access_time_record None)
      = collapse_hyphens
          (categorySlug (access_time_record None) ++ js "-"
           ++ strip_svg (file (access_time_record None)))
   /\ single_hyphens (id (access_time_record None)))
  /\ exists r,
       IconIndex.collect_icons ascii_toLowerCase ascii_normalizeNFD ∅
         [access_time_entry] = Ok [r]
       /\ id r = js "access-time-access_time_20_filled"
       /\ categorySlug r = js "access-time"
       /\ size r = Some (Finite 20)
       /\ style r = Some (js "filled")
       /\ tags r = [js "number"; js "24"; js "Circle"].
Proof.
  pose proof (record_id_of_slug_and_stem ascii_toLowerCase ascii_normalizeNFD
                ascii_toLowerCase_ascii ascii_normalizeNFD_ascii) as [T1 T2].
  split; [|exact (T2 ∅)].
  apply (T1 ∅ [access_time_entry] [(access_time_record None)]).
  - vm_compute; reflexivity.
  - left; reflexivity.
Defined.

Lemma hyphenate_from_no_alnum (s : jsstring) :
  forallb (fun c => negb (is_az09 c)) s = true ->
  hyphenate_from true s = []
  /\ (hyphenate_from false s = [] \/ hyphenate_from false s = [HYPHEN]).
Proof.
  induction s as [|c t IH]; simpl; [intros _; split; [|left]; reflexivity|].
  intros H; apply andb_true_iff in H; destruct H as [Hc Ht].
  apply negb_true_iff in Hc; rewrite Hc.
  destruct (IH Ht) as [IH1 _]. rewrite IH1.
  split; [reflexivity | right; reflexivity].
Qed.

Lemma forallb_filter (p q : N -> bool) (s : jsstring) :
  forallb p s = true -> forallb p (List.filter q s) = true.
Proof.
  induction s as [|c t IH]; simpl; [trivial|].
  intros H; apply andb_true_iff in H; destruct H as [Hc Ht].
  destruct (q c); simpl; [rewrite Hc|]; now apply IH.
Qed.

Definition separator_only_env : gmap string jsstring :=
  {[ "ICON_CDN_BASE_URL"%string := js "/" ]}.

Section CatalogueRecords.

Variable toLowerCase : jsstring -> jsstring.
Variable normalizeNFD : jsstring -> jsstring.

#[local] Abbreviation slugify := (IconIndex.slugify toLowerCase normalizeNFD).
#[local] Abbreviation visit_entry :=
  (IconIndex.visit_entry toLowerCase normalizeNFD).
#[local] Abbreviation collect_icons :=
  (IconIndex.collect_icons toLowerCase normalizeNFD).

Lemma slugify_no_alnum (label : jsstring) :
  forallb (fun c => negb (is_az09 c)) (normalizeNFD (toLowerCase label))
  = true ->
  slugify label = [].
Proof.
  intros H. unfold IconIndex.slugify, hyphenate.
  destruct (hyphenate_from_no_alnum _
              (forallb_filter _ (fun c => negb (is_combining c)) _ H))
    as [_ [-> | ->]]; reflexivity.
Qed.

(** C10. When no code unit of the lowercased and decomposed label is in
    [a-z0-9], [categorySlug] is the empty string and every [id] of the
    category begins with a hyphen: the collapse of hyphen runs keeps a
    leading and a trailing hyphen.  It merges runs: a run of hyphens, however
    long, becomes one hyphen, so that no [id] has two adjacent hyphens and
    the hyphens at the start of a stem merge with the one that joins the slug
    and the stem. *)
Theorem empty_slug_id_begins_with_hyphen (label : jsstring) :
  forallb (fun c => negb (is_az09 c)) (normalizeNFD (toLowerCase label))
  = true ->
  slugify label = []
  /\ (forall env entries icons r,
         collect_icons env entries = Ok icons -> In r icons ->
         category r = label ->
         categorySlug r = [] /\ exists t, id r = HYPHEN :: t)
  /\ (forall t, exists t', collapse_hyphens (HYPHEN :: t) = HYPHEN :: t')
  /\ (forall t, exists t', collapse_hyphens (t ++ [HYPHEN]) = t' ++ [HYPHEN])
  /\ (forall n t,
         no_leading_hyphen t ->
         collapse_hyphens (repeat HYPHEN (S n) ++ t)
         = HYPHEN :: collapse_hyphens t)
  /\ (forall env entries icons r,
         collect_icons env entries = Ok icons -> In r icons ->
         category r = label ->
         single_hyphens (id r)
         /\ forall n t,
              strip_svg (file r) = repeat HYPHEN n ++ t ->
              no_leading_hyphen t ->
              id r = HYPHEN :: collapse_hyphens t).
Proof.
  intros H. pose proof (slugify_no_alnum label H) as Hs.
  assert (forall t, exists t', collapse_hyphens (HYPHEN :: t) = HYPHEN :: t')
    as Hhead.
  { intros t. pose proof (collapse_hyphens_head (HYPHEN :: t)) as Hh.
    destruct (collapse_hyphens (HYPHEN :: t)) as [|c t']; [discriminate Hh|].
    injection Hh as ->. now exists t'. }
  split; [exact Hs|]. split; [|split; [exact Hhead|]].
  - intros env entries icons r Hrun Hr Hcat.
    pose proof (collect_icons_built _ _ _ _ _ Hrun) as Hb.
    rewrite List.Forall_forall in Hb. destruct (Hb r Hr) as [md Hmd].
    destruct (icon_of_fields _ _ _ _ _ _ _ Hmd) as (-> & _ & -> & _).
    rewrite Hcat, Hs. split; [reflexivity | apply Hhead].
  - split; [intros t; apply collapse_hyphens_last|].
    split; [exact collapse_hyphens_run|].
    intros env entries icons r Hrun Hr Hcat.
    pose proof (collect_icons_built _ _ _ _ _ Hrun) as Hb.
    rewrite List.Forall_forall in Hb. destruct (Hb r Hr) as [md Hmd].
    destruct (icon_of_fields _ _ _ _ _ _ _ Hmd) as (-> & _ & _).
    split; [apply collapse_hyphens_single|].
    intros n t Hstem Ht. rewrite Hcat, Hs, Hstem.
    exact (collapse_hyphens_run n t Ht).
Qed.

(** C4, as the code has it. For every record of the catalogue: when
    [ICON_CDN_BASE_URL] is set and is not empty once its trailing slashes are
    removed, [cdnUrl] is that base, a slash, the percent-encoded category
    name, [/SVG/] and the percent-encoded file name; when the variable is
    not set, is empty or holds only slashes, [cdnUrl] is [null]. *)
Theorem cdnUrl_of_record env entries icons r :
  collect_icons env entries = Ok icons -> In r icons ->
  match env !! "ICON_CDN_BASE_URL"%string with
  | Some v =>
      if truthy (drop_trailing is_slash v) then
        exists c f,
          encodeURIComponent (category r) = Some c
          /\ encodeURIComponent (file r) = Some f
          /\ cdnUrl r
             = Some (drop_trailing is_slash v ++ js "/" ++ c ++ js "/SVG/" ++ f)
      else cdnUrl r = None
  | None => cdnUrl r = None
  end.
Proof.
  intros H Hr.
  pose proof (collect_icons_built _ _ _ _ _ H) as Hb.
  rewrite List.Forall_forall in Hb. destruct (Hb r Hr) as [md Hmd].
  destruct (icon_of_fields _ _ _ _ _ _ _ Hmd)
    as (_ & _ & _ & _ & _ & _ & _ & _ & _ & _ & _ & Hu).
  unfold ICON_CDN_BASE_URL, cdnUrl_of in Hu.
  destruct (env !! "ICON_CDN_BASE_URL"%string) as [v|];
    [|now injection Hu as <-].
  destruct (truthy v) eqn:Ev.
  - destruct (truthy (drop_trailing is_slash v)); [|now injection Hu as <-].
    destruct (encodeURIComponent (category r)) as [c|]; [|discriminate Hu].
    destruct (encodeURIComponent (file r)) as [f|]; [|discriminate Hu].
    exists c, f. injection Hu as <-. repeat split.
  - destruct v; [|discriminate Ev]. simpl. now injection Hu as <-.
Qed.

(** C5. When the descriptor of a category is missing, unreadable or
    malformed, [readJsonFile] returns [null] and the metadata is the empty
    record; every file of the category with the [.svg] suffix still gets its
    record, whose [name] is the directory name and whose [tags] are empty. *)
Theorem category_without_descriptor base entryName metadataFile svgFiles icons :
  metadataFile = MetadataMissing \/ metadataFile = MetadataUnreadable
  \/ metadataFile = MetadataText Malformed ->
  isWellFormed entryName = true ->
  Forall (fun f => isWellFormed f = true) svgFiles ->
  readJsonFile metadataFile = None
  /\ default empty_metadata (readJsonFile metadataFile) = empty_metadata
  /\ exists recs,
       visit_entry base
         (DirEntry entryName metadataFile (SvgDirectory (Ok svgFiles))) icons
       = Ok (icons ++ recs)
       /\ map file recs = List.filter (has_svg_suffix toLowerCase) svgFiles
       /\ Forall (fun r => category r = entryName
                           /\ name r = entryName /\ tags r = []) recs.
Proof.
  intros Hm Hn Hf.
  assert (readJsonFile metadataFile = None) as Hnull.
  { destruct Hm as [-> | [-> | ->]]; reflexivity. }
  split; [exact Hnull|]. split; [now rewrite Hnull|].
  cbn [IconIndex.visit_entry stat readdir bind]. rewrite Hnull.
  cbn [default].
  destruct (push_icons_total toLowerCase base entryName (slugify entryName)
              empty_metadata svgFiles icons Hn Hf) as (recs & -> & HF).
  exists recs; split; [reflexivity|].
  induction HF as [|f r fs rs Hr _ [IH1 IH2]]; [split; [reflexivity|constructor]|].
  destruct (icon_of_fields _ _ _ _ _ _ _ Hr)
    as (_ & Hc & _ & Hname & _ & _ & Htags & _ & _ & Hfile & _).
  split; [simpl; now rewrite Hfile, IH1|].
  constructor; [|exact IH2]. repeat split; assumption.
Qed.

(** C6. A category directory whose [SVG] entry is missing or is not a
    directory adds no record and raises nothing: the catalogue is the one
    built from the other entries. *)
Theorem category_without_svg_directory env pre post entryName metadataFile svg :
  svg = SvgMissing \/ svg = SvgNotDirectory ->
  (forall base icons,
      visit_entry base (DirEntry entryName metadataFile svg) icons = Ok icons)
  /\ collect_icons env (pre ++ DirEntry entryName metadataFile svg :: post)
     = collect_icons env (pre ++ post).
Proof.
  intros Hs.
  assert (forall base icons,
    visit_entry base (DirEntry entryName metadataFile svg) icons = Ok icons)
    as Hskip.
  { intros base icons. destruct Hs as [-> | ->]; reflexivity. }
  split; [exact Hskip|].
  unfold IconIndex.collect_icons. rewrite !visit_entries_app.
  destruct (IconIndex.visit_entries toLowerCase normalizeNFD
              (ICON_CDN_BASE_URL env) pre []) as [icons'|e];
    [|reflexivity].
  cbn [bind IconIndex.visit_entries]. now rewrite Hskip.
Qed.

End CatalogueRecords.

(** ** Examples for the catalogue *)

Definition cdn_env : gmap string jsstring :=
  {[ "ICON_CDN_BASE_URL"%string := js "https://cdn.example.com/icons/" ]}.

Lemma collect_icons_cdn_env :
  IconIndex.collect_icons ascii_toLowerCase ascii_normalizeNFD cdn_env
    [access_time_entry]
  = Ok [access_time_record (Some access_time_url)].
Proof. vm_compute; reflexivity. Qed.

Lemma empty_slug_id_begins_with_hyphen_witness :
  IconIndex.slugify ascii_toLowerCase ascii_normalizeNFD (js "!!!") = []
  /\ (forall env entries icons r,
         IconIndex.collect_icons ascii_toLowerCase ascii_normalizeNFD env
           entries = Ok icons ->
         In r icons -> category r = js "!!!" ->
         categorySlug r = [] /\ exists t, id r = HYPHEN :: t)
  /\ (forall t, exists t', collapse_hyphens (HYPHEN :: t) = HYPHEN :: t')
  /\ (forall t, exists t', collapse_hyphens (t ++ [HYPHEN]) = t' ++ [HYPHEN])
  /\ (forall n t,
         no_leading_hyphen t ->
         collapse_hyphens (repeat HYPHEN (S n) ++ t)
         = HYPHEN :: collapse_hyphens t)
  /\ (forall env entries icons r,
         IconIndex.collect_icons ascii_toLowerCase ascii_normalizeNFD env
           entries = Ok icons ->
         In r icons -> category r = js "!!!" ->
         single_hyphens (id r)
         /\ forall n t,
              strip_svg (file r) = repeat HYPHEN n ++ t ->
              no_leading_hyphen t ->
              id r = HYPHEN :: collapse_hyphens t).
Proof.
  exact (empty_slug_id_begins_with_hyphen ascii_toLowerCase
           ascii_normalizeNFD (js "!!!") eq_refl).
Defined.

(** A category named with punctuation only: the slug is empty, and the
    hyphens at the start of a stem merge with the joining hyphen. *)
Example punctuation_category_ids :
  match
    IconIndex.collect_icons ascii_toLowerCase ascii_normalizeNFD
      (∅ : gmap string jsstring)
      [DirEntry (js "!!!") MetadataMissing
         (SvgDirectory (Ok [js "--a--b-.svg"; js "c.svg"]))]
  with
  | Ok icons => map (fun r => (categorySlug r, id r)) icons
  | Throw _ => []
  end
  = [([], js "-a-b-"); ([], js "-c")].
Proof. vm_compute; reflexivity. Qed.

Lemma cdnUrl_of_record_witness :
  match cdn_env !! "ICON_CDN_BASE_URL"%string with
  | Some v =>
      if truthy (drop_trailing is_slash v) then
        exists c f,
          encodeURIComponent (category (access_time_record (Some access_time_url)))
          = Some c
          /\ encodeURIComponent (file (access_time_record (Some access_time_url)))
             = Some f
          /\ cdnUrl (access_time_record (Some access_time_url))
             = Some (drop_trailing is_slash v ++ js "/" ++ c ++ js "/SVG/" ++ f)
      else cdnUrl (access_time_record (Some access_time_url)) = None
  | None => cdnUrl (access_time_record (Some access_time_url)) = None
  end.
Proof.
  apply (cdnUrl_of_record ascii_toLowerCase ascii_normalizeNFD cdn_env
           [access_time_entry] [access_time_record (Some access_time_url)]).
  - exact collect_icons_cdn_env.
  - left; reflexivity.
Defined.

(** C4 as stated fails: with [ICON_CDN_BASE_URL=/] the setting is present,
    the stripped base is the empty string, and [cdnUrl] is [null], not the
    base followed by the encoded segments. *)
Lemma cdnUrl_null_for_slash_base :
  separator_only_env !! "ICON_CDN_BASE_URL"%string = Some (js "/")
  /\ IconIndex.collect_icons ascii_toLowerCase ascii_normalizeNFD
       separator_only_env [access_time_entry]
     = Ok [access_time_record None]
  /\ cdnUrl (access_time_record None)
     <> Some (drop_trailing is_slash (js "/") ++ js "/" ++ js "Access%20Time"
              ++ js "/SVG/" ++ js "access_time_20_filled.svg").
Proof.
  split; [reflexivity|]. split; [vm_compute; reflexivity | discriminate].
Qed.

Lemma category_without_descriptor_witness :
  readJsonFile MetadataMissing = None
  /\ default empty_metadata (readJsonFile MetadataMissing) = empty_metadata
  /\ exists recs,
       IconIndex.visit_entry ascii_toLowerCase ascii_normalizeNFD None
         (DirEntry (js "Misc") MetadataMissing
            (SvgDirectory (Ok [js "a_16_bold.svg"; js "notes.txt"]))) []
       = Ok ([] ++ recs)
       /\ map file recs
          = List.filter (has_svg_suffix ascii_toLowerCase)
              [js "a_16_bold.svg"; js "notes.txt"]
       /\ Forall (fun r => category r = js "Misc"
                           /\ name r = js "Misc" /\ tags r = []) recs.
Proof.
  apply (category_without_descriptor ascii_toLowerCase ascii_normalizeNFD
           None (js "Misc") MetadataMissing
           [js "a_16_bold.svg"; js "notes.txt"] []).
  - left; reflexivity.
  - reflexivity.
  - repeat constructor.
Defined.

Lemma category_without_svg_directory_witness :
  (forall base icons,
      IconIndex.visit_entry ascii_toLowerCase ascii_normalizeNFD base
        (DirEntry (js "Empty") MetadataMissing SvgMissing) icons = Ok icons)
  /\ IconIndex.collect_icons ascii_toLowerCase ascii_normalizeNFD cdn_env
       ([access_time_entry]
        ++ DirEntry (js "Empty") MetadataMissing SvgMissing :: [])
     = IconIndex.collect_icons ascii_toLowerCase ascii_normalizeNFD cdn_env
         ([access_time_entry] ++ []).
Proof.
  apply (category_without_svg_directory ascii_toLowerCase ascii_normalizeNFD
           cdn_env [access_time_entry] [] (js "Empty") MetadataMissing
           SvgMissing).
  left; reflexivity.
Defined.

(* ===================================================================== *)
(** * The filename parser: the size facet *)
(* ===================================================================== *)

(** [ds] is a run of digits between two underscores of [stem], after [pre]. *)
Definition size_token_at (stem pre ds post : jsstring) : Prop :=
  stem = pre ++ UNDERSCORE :: ds ++ UNDERSCORE :: post
  /\ ds <> []
  /\ forallb is_digit ds = true.

(** ... and no such run starts further to the left. *)
Definition first_size_token (stem ds : jsstring) : Prop :=
  exists pre post,
    size_token_at stem pre ds post
    /\ forall pre' ds' post',
         size_token_at stem pre' ds' post' -> (length pre <= length pre')%nat.

Definition no_size_token (stem : jsstring) : Prop :=
  forall pre ds post, ~ size_token_at stem pre ds post.

(** The test that [/_(\d+)_/] matches at the start of the string. *)
Definition token_here (s : jsstring) : bool :=
  match s with
  | c :: t =>
      (c =? UNDERSCORE)
      && truthy (take_while is_digit t)
      && match drop_while is_digit t with
         | d :: _ => d =? UNDERSCORE
         | [] => false
         end
  | [] => false
  end.

Lemma match_size_cons c (t : jsstring) :
  match_size (c :: t)
  = if token_here (c :: t) then Some (take_while is_digit t)
    else match_size t.
Proof.
  simpl. destruct (c =? UNDERSCORE); [|reflexivity].
  destruct (take_while is_digit t); [reflexivity|].
  destruct (drop_while is_digit t) as [|d u]; [reflexivity|].
  simpl. now destruct (d =? UNDERSCORE).
Qed.

Lemma digits_then_underscore (ds post : jsstring) :
  forallb is_digit ds = true ->
  take_while is_digit (ds ++ UNDERSCORE :: post) = ds
  /\ drop_while is_digit (ds ++ UNDERSCORE :: post) = UNDERSCORE :: post.
Proof.
  induction ds as [|d ds IH]; simpl; [intros _; split; reflexivity|].
  intros H; apply andb_true_iff in H; destruct H as [Hd Hds].
  rewrite Hd. destruct (IH Hds) as [-> ->]. split; reflexivity.
Qed.

Lemma token_here_spec (s : jsstring) :
  token_here s = true <->
  exists ds post, size_token_at s [] ds post.
Proof.
  split.
  - destruct s as [|c t]; [discriminate|]. simpl.
    intros H. apply andb_true_iff in H; destruct H as [H H3].
    apply andb_true_iff in H; destruct H as [H1 H2].
    apply N.eqb_eq in H1; subst c.
    destruct (drop_while is_digit t) as [|d u] eqn:E; [discriminate H3|].
    apply N.eqb_eq in H3; subst d.
    exists (take_while is_digit t), u. repeat split.
    + simpl. now rewrite <- E, take_drop_while.
    + intros E0; rewrite E0 in H2; discriminate H2.
    + apply take_while_all.
  - intros (ds & post & E & Hne & Hd). subst s. simpl.
    destruct (digits_then_underscore ds post Hd) as [-> ->].
    rewrite !N.eqb_refl. destruct ds; [now destruct Hne | reflexivity].
Qed.

Lemma token_here_capture (t ds post : jsstring) :
  size_token_at (UNDERSCORE :: t) [] ds post -> take_while is_digit t = ds.
Proof.
  intros (E & _ & Hd). simpl in E. injection E as ->.
  now destruct (digits_then_underscore ds post Hd).
Qed.

(** [match_size] returns the capture of the leftmost match. *)
Lemma match_size_some (s ds : jsstring) :
  match_size s = Some ds -> first_size_token s ds.
Proof.
  revert ds; induction s as [|c t IH]; intros ds; [discriminate|].
  rewrite match_size_cons. destruct (token_here (c :: t)) eqn:E.
  - intros H; injection H as <-.
    apply token_here_spec in E. destruct E as (ds & post & Ht).
    assert (c = UNDERSCORE) as -> by (destruct Ht as [Ht _]; now injection Ht).
    rewrite (token_here_capture _ _ _ Ht).
    exists [], post; split; [exact Ht | intros; simpl; lia].
  - intros H. destruct (IH ds H) as (pre & post & (Et & Hne & Hd) & Hmin).
    exists (c :: pre), post; split.
    + repeat split; [simpl; now rewrite <- Et | exact Hne | exact Hd].
    + intros pre' ds' post' (Et' & Hne' & Hd').
      destruct pre' as [|c' pre''].
      * assert (token_here (c :: t) = true) as E'.
        { apply token_here_spec. exists ds', post'. repeat split; assumption. }
        rewrite E in E'; discriminate E'.
      * simpl in Et'; injection Et' as -> Et'. simpl.
        apply le_n_S. apply (Hmin pre'' ds' post'). repeat split; assumption.
Qed.

Lemma match_size_none (s : jsstring) :
  match_size s = None -> no_size_token s.
Proof.
  induction s as [|c t IH]; intros H pre ds post (Et & Hne & Hd).
  - destruct pre; discriminate Et.
  - rewrite match_size_cons in H.
    destruct (token_here (c :: t)) eqn:E; [discriminate H|].
    destruct pre as [|c' pre'].
    + assert (token_here (c :: t) = true) as E'.
      { apply token_here_spec. exists ds, post. repeat split; assumption. }
      rewrite E in E'; discriminate E'.
    + simpl in Et; injection Et as -> Et.
      apply (IH H pre' ds post). repeat split; assumption.
Qed.

Lemma app_same_length (a a' b b' : jsstring) :
  a ++ b = a' ++ b' -> length a = length a' -> a = a' /\ b = b'.
Proof.
  revert a'; induction a as [|x a IH]; intros [|x' a'] E Hl;
    try discriminate Hl; [split; [reflexivity | exact E]|].
  simpl in E; injection E as -> E. injection Hl as Hl.
  destruct (IH _ E Hl) as [-> ->]. split; reflexivity.
Qed.

Lemma first_size_token_unique (s ds ds' : jsstring) :
  first_size_token s ds -> first_size_token s ds' -> ds = ds'.
Proof.
  intros (pre & post & Ht & Hmin) (pre' & post' & Ht' & Hmin').
  pose proof (Hmin _ _ _ Ht') as L1. pose proof (Hmin' _ _ _ Ht) as L2.
  destruct Ht as (E & _ & Hd), Ht' as (E' & _ & Hd').
  rewrite E in E'. apply app_same_length in E'; [|lia].
  destruct E' as [_ E']. injection E' as E'.
  destruct (digits_then_underscore ds post Hd) as [<- _].
  destruct (digits_then_underscore ds' post' Hd') as [<- _].
  now rewrite E'.
Qed.

(** [Number] is exact up to [2^53]. *)
Lemma round_to_double_exact (n : N) :
  n <= 2 ^ 53 -> round_to_double n = Finite n.
Proof.
  intros H. unfold round_to_double.
  destruct (n <? 2 ^ 53) eqn:E; [reflexivity|].
  apply N.ltb_ge in E. assert (n = 2 ^ 53) as -> by lia.
  vm_compute; reflexivity.
Qed.

Section FilenameParser.

Variable toLowerCase : jsstring -> jsstring.

#[local] Abbreviation parseFileDetails :=
  (IconIndex.parseFileDetails toLowerCase).

Lemma fd_size_match (fileName : jsstring) :
  fd_size (parseFileDetails fileName)
  = option_map Number_of_digits (match_size (strip_svg fileName)).
Proof.
  unfold IconIndex.parseFileDetails; simpl.
  destruct (match_size (strip_svg fileName)) as [ds|] eqn:E; [|reflexivity].
  apply match_size_some in E. destruct E as (pre & post & (_ & Hne & _) & _).
  destruct ds; [now destruct Hne | reflexivity].
Qed.

(** C3, as the code has it. With the [.svg] suffix stripped without regard
    to case, [size] is [Number] of the first run of digits between two
    underscores of the stem: the double nearest to its decimal value, which
    is that value whenever it is at most [2^53]; when the stem has no such
    run, [size] is absent.  [parseFileDetails] is a total function. *)
Theorem size_of_first_digit_run (fileName : jsstring) :
  (forall ds,
      first_size_token (strip_svg fileName) ds ->
      fd_size (parseFileDetails fileName) = Some (Number_of_digits ds)
      /\ (decimal_value ds <= 2 ^ 53 ->
          fd_size (parseFileDetails fileName)
          = Some (Finite (decimal_value ds))))
  /\ (no_size_token (strip_svg fileName) ->
      fd_size (parseFileDetails fileName) = None)
  /\ fd_baseName (parseFileDetails fileName) = strip_svg fileName.
Proof.
  rewrite fd_size_match. split; [|split; [|reflexivity]].
  - intros ds H.
    destruct (match_size (strip_svg fileName)) as [ds'|] eqn:E.
    + apply match_size_some in E.
      rewrite <- (first_size_token_unique _ _ _ H E). simpl.
      split; [reflexivity|]. intros Hv.
      unfold Number_of_digits. now rewrite round_to_double_exact.
    + destruct H as (pre & post & Ht & _).
      now destruct (match_size_none _ E pre ds post).
  - intros Hn.
    destruct (match_size (strip_svg fileName)) as [ds|] eqn:E; [|reflexivity].
    apply match_size_some in E. destruct E as (pre & post & Ht & _).
    now destruct (Hn pre ds post).
Qed.

End FilenameParser.

(** C3 as stated fails: the stem of [icon_9007199254740993_regular.svg] has
    the digit run [9007199254740993] between underscores, and [size] is
    9007199254740992. *)
Lemma size_is_rounded_to_double :
  first_size_token (strip_svg (js "icon_9007199254740993_regular.svg"))
    (js "9007199254740993")
  /\ decimal_value (js "9007199254740993") = 9007199254740993
  /\ fd_size (IconIndex.parseFileDetails ascii_toLowerCase
                (js "icon_9007199254740993_regular.svg"))
     = Some (Finite 9007199254740992)
  /\ Finite 9007199254740992 <> Finite 9007199254740993.
Proof.
  split; [apply match_size_some; vm_compute; reflexivity|].
  split; [vm_compute; reflexivity|].
  split; [vm_compute; reflexivity | discriminate].
Qed.

(* ===================================================================== *)
(** * The manifest writer *)
(* ===================================================================== *)

Section ManifestWriter.

Variable toLowerCase : jsstring -> jsstring.
Variable normalizeNFD : jsstring -> jsstring.
Variable JSON_stringify : Manifest -> jsstring.
Variable utf8 : jsstring -> list N.

#[local] Abbreviation collect_icons :=
  (IconIndex.collect_icons toLowerCase normalizeNFD).
#[local] Abbreviation script :=
  (IconIndex.script toLowerCase normalizeNFD JSON_stringify utf8).

Lemma chunks_written path sizes (fs : FileSystem) :
  forall written rest s,
    In s (observable (<[path := written]> fs)
            (map (WriteBytes path) (chunks sizes rest))) ->
    exists k, s = <[path := written ++ firstn k rest]> fs.
Proof.
  induction sizes as [|n sizes IH]; intros written rest s.
  - destruct rest as [|b rest]; cbn [chunks map observable perform].
    + intros [<-|[]]. exists 0%nat. now rewrite app_nil_r.
    + rewrite lookup_insert_eq, insert_insert_eq. cbn [default].
      intros [<-|[<-|[]]].
      * exists 0%nat. now rewrite app_nil_r.
      * exists (length (b :: rest)). now rewrite firstn_all.
  - destruct rest as [|b rest]; cbn [chunks map observable perform].
    + intros [<-|[]]. exists 0%nat. now rewrite app_nil_r.
    + rewrite lookup_insert_eq, insert_insert_eq. cbn [default].
      intros [<-|H].
      * exists 0%nat. now rewrite app_nil_r.
      * destruct (IH _ _ _ H) as [k ->].
        exists (S n + k)%nat. rewrite <- app_assoc. do 2 f_equal.
        rewrite <- (firstn_skipn (S n) (b :: rest)) at 3.
        rewrite firstn_app, firstn_firstn, length_firstn.
        destruct (Nat.le_gt_cases (S n) (length (b :: rest))) as [Hle|Hgt].
        -- rewrite (Nat.min_l (S n)) by lia.
           rewrite (Nat.min_r (S n + k) (S n)) by lia.
           replace (S n + k - S n)%nat with k by lia. reflexivity.
        -- rewrite (skipn_all2 (b :: rest)) by lia. rewrite !firstn_nil.
           rewrite !app_nil_r. rewrite (Nat.min_r (S n + k) (S n)) by lia.
           reflexivity.
Qed.

Lemma last_observable (s fs d : FileSystem) ops :
  List.last (s :: observable fs ops) d = List.last (observable fs ops) d.
Proof. destruct ops; reflexivity. Qed.

Lemma chunks_complete path sizes (fs : FileSystem) :
  forall written rest,
    List.last (observable (<[path := written]> fs)
                 (map (WriteBytes path) (chunks sizes rest))) fs
    = <[path := written ++ rest]> fs.
Proof.
  induction sizes as [|n sizes IH]; intros written rest.
  - destruct rest as [|b rest]; cbn [chunks map observable perform List.last].
    + now rewrite app_nil_r.
    + now rewrite lookup_insert_eq, insert_insert_eq.
  - destruct rest as [|b rest]; cbn [chunks map observable perform].
    + cbn [List.last]. now rewrite app_nil_r.
    + rewrite lookup_insert_eq, insert_insert_eq. cbn [default].
      rewrite last_observable, IH, <- app_assoc.
      now rewrite (firstn_skipn (S n) (b :: rest)).
Qed.

(** C7, as the code has it. When the catalogue is built, the script makes
    one [writeFile] call on the output path itself, with the whole serialised
    manifest, whose [count] is the number of its [icons]: once the call has
    completed, the output file holds exactly that text, whatever it held
    before, and no other path has been created or changed at any time of the
    run.  The file is written in place: it is truncated first, and what a
    reader finds at the output path during the run is the prior content, the
    empty file or the first bytes of the new manifest.  When listing the
    assets directory or building the catalogue throws, the script asks
    nothing of the file system. *)
Theorem manifest_written_in_place env entries now sizes (fs : FileSystem) :
  (forall e, script env (Throw e) now sizes = ([], Throw e))
  /\
  match collect_icons env entries with
  | Ok icons =>
      let text :=
        JSON_stringify
          {| generatedAt := now; count := length icons; icons := icons |} in
      fst (script env (Ok entries) now sizes)
      = writeFile sizes OUTPUT_FILE (utf8 text)
      /\ snd (script env (Ok entries) now sizes) = Ok tt
      /\ List.last (observable fs (fst (script env (Ok entries) now sizes))) fs
         = <[OUTPUT_FILE := utf8 text]> fs
      /\ (forall s,
            In s (observable fs (fst (script env (Ok entries) now sizes))) ->
            s = fs \/ exists k, s = <[OUTPUT_FILE := firstn k (utf8 text)]> fs)
      /\ In (<[OUTPUT_FILE := []]> fs)
           (observable fs (fst (script env (Ok entries) now sizes)))
  | Throw e => script env (Ok entries) now sizes = ([], Throw e)
  end.
Proof.
  split; [intros e; reflexivity|].
  unfold IconIndex.script, IconIndex.generateManifest. cbn [bind].
  destruct (collect_icons env entries) as [icons|e]; cbn [bind fst snd];
    [|reflexivity].
  split; [reflexivity|]. split; [reflexivity|].
  unfold writeFile. cbn [observable perform].
  split; [|split].
  - rewrite last_observable.
    apply (chunks_complete OUTPUT_FILE sizes fs []).
  - intros s [<-|H]; [now left|]. right.
    exact (chunks_written OUTPUT_FILE sizes fs [] _ s H).
  - right. destruct (chunks sizes _); left; reflexivity.
Qed.

End ManifestWriter.

(** A run over a prior manifest. *)
Definition prior_manifest : list N := js "{ count: 0 }".

Definition prior_files : FileSystem := {[ OUTPUT_FILE := prior_manifest ]}.

(** Stand-ins for [JSON.stringify] and for the UTF-8 encoding (which leaves
    ASCII text as it is) in the sample runs. *)
Definition sample_stringify (m : Manifest) : jsstring :=
  js "manifest of " ++ generatedAt m.

Definition ascii_utf8 (s : jsstring) : list N := s.

Definition sample_now : jsstring := js "2024-05-01T00:00:00.000Z".

Definition sample_script : list FsOp * result Exn unit :=
  IconIndex.script ascii_toLowerCase ascii_normalizeNFD sample_stringify
    ascii_utf8 cdn_env (Ok [access_time_entry]) sample_now [7%nat].

(** What a reader finds at the output path, state after state. *)
Definition output_seen (states : list FileSystem) : list (option (list N)) :=
  map (fun fs : FileSystem => fs !! OUTPUT_FILE) states.

(** C7 as stated fails: while the script writes the new manifest over a
    prior one, a reader of the output path finds first the empty file and
    then the first eight bytes of the new manifest, which are neither the
    prior manifest nor the new one. *)
Lemma truncated_manifest_is_observable :
  output_seen (observable prior_files (fst sample_script))
  = [Some prior_manifest;
     Some [];
     Some (js "manifest");
     Some (js "manifest of 2024-05-01T00:00:00.000Z")]
  /\ snd sample_script = Ok tt
  /\ In (Some []) (output_seen (observable prior_files (fst sample_script)))
  /\ js "" <> prior_manifest
  /\ js "" <> js "manifest of 2024-05-01T00:00:00.000Z"
  /\ js "manifest" <> prior_manifest
  /\ js "manifest" <> js "manifest of 2024-05-01T00:00:00.000Z".
Proof.
  assert (output_seen (observable prior_files (fst sample_script))
          = [Some prior_manifest; Some []; Some (js "manifest");
             Some (js "manifest of 2024-05-01T00:00:00.000Z")]) as E
    by (vm_compute; reflexivity).
  rewrite E. split; [reflexivity|]. split; [vm_compute; reflexivity|].
  split; [right; left; reflexivity|].
  repeat split; discriminate.
Qed.

(* ===================================================================== *)
(** * The uploader: configuration *)
(* ===================================================================== *)

Import UploadR2.

Definition REQUIRED : list string :=
  ["R2_ACCOUNT_ID"; "R2_ACCESS_KEY_ID"; "R2_SECRET_ACCESS_KEY";
   "R2_BUCKET_NAME"]%string.

(** A setting is absent when the environment has no value for it, or the
    empty string. *)
Definition absent (env : gmap string jsstring) (name : string) : bool :=
  negb (is_set (env !! name)).

Definition missing_message (names : list string) : jsstring :=
  js "Missing required environment variables: " ++ join (js ", ") (map js names).

Lemma is_set_value (v : option jsstring) :
  is_set v = true -> v = Some (default [] v).
Proof. destruct v as [s|]; [reflexivity | discriminate]. Qed.

(** C8. When at least one of the four required settings is absent (not set,
    or set to the empty string), [getConfig] throws one error whose message lists the names of all the
    absent ones, and [main] ends with that error before doing anything else;
    when all four are present, [getConfig] returns the configuration made of
    their values. *)
Theorem getConfig_lists_every_missing_setting (env : gmap string jsstring) :
  (List.filter (absent env) REQUIRED <> [] ->
   getConfig env
   = Throw (Error (missing_message (List.filter (absent env) REQUIRED)))
   /\ forall w assets,
        main env w assets
        = ([], Throw (Error (missing_message
                               (List.filter (absent env) REQUIRED)))))
  /\ (List.filter (absent env) REQUIRED = [] ->
      exists config,
        getConfig env = Ok config
        /\ env !! "R2_ACCOUNT_ID"%string = Some (accountId config)
        /\ env !! "R2_ACCESS_KEY_ID"%string = Some (accessKeyId config)
        /\ env !! "R2_SECRET_ACCESS_KEY"%string = Some (secretAccessKey config)
        /\ env !! "R2_BUCKET_NAME"%string = Some (bucketName config)).
Proof.
  unfold main, getConfig, push_missing, REQUIRED, absent. cbn [List.filter].
  destruct (is_set (env !! "R2_ACCOUNT_ID"%string)) eqn:E1;
  destruct (is_set (env !! "R2_ACCESS_KEY_ID"%string)) eqn:E2;
  destruct (is_set (env !! "R2_SECRET_ACCESS_KEY"%string)) eqn:E3;
  destruct (is_set (env !! "R2_BUCKET_NAME"%string)) eqn:E4;
  cbn [negb app length Nat.ltb Nat.leb map];
  (split; [intros Hne; first [now destruct Hne | split; reflexivity]
          | intros Hnil; try discriminate Hnil]).
  eexists; split; [reflexivity|]. cbn [accountId accessKeyId secretAccessKey bucketName].
  repeat split; now apply is_set_value.
Qed.

(* ===================================================================== *)
(** * The uploader: batches *)
(* ===================================================================== *)

(** [uploadFile] has been called for the file: its [readFile] is in the log. *)
Definition reads (p : jsstring) (e : Event) : bool :=
  match e with
  | Read q => bool_decide (q = p)
  | _ => false
  end.

Definition attempted (p : jsstring) (log : list Event) : bool :=
  existsb (reads p) log.

Lemma attempted_In p log : In (Read p) log -> attempted p log = true.
Proof.
  intros H. apply existsb_exists. exists (Read p); split; [exact H|].
  simpl. now apply bool_decide_eq_true.
Qed.

(** One of the five [client.send] calls for the file succeeds. *)
Definition uploaded (w : World) (config : UploadConfig) (f : jsstring) : bool :=
  existsb (send_ok w (object_key config f)) (seq 1 5).

Definition readable (w : World) (files : list jsstring) : Prop :=
  forall f, In f files -> file_content w f <> None.

Section Batches.

Variable w : World.
Variable config : UploadConfig.

(** The retry loop returns [true] exactly when one of the attempts that
    are left succeeds, and it does return: the fuel is enough. *)
Lemma send_loop_result key p retries :
  forall fuel attempt,
    (attempt + fuel = retries + 1)%nat ->
    snd (send_loop w key p retries fuel attempt)
    = existsb (send_ok w key) (seq attempt fuel).
Proof.
  induction fuel as [|fuel IH]; intros attempt H; [reflexivity|].
  cbn [send_loop seq existsb].
  assert ((attempt <=? retries)%nat = true) as -> by (apply Nat.leb_le; lia).
  destruct (send_ok w key attempt); [reflexivity|]. cbn [orb].
  destruct (Nat.eqb_spec attempt retries) as [E|E].
  - assert (fuel = 0%nat) as -> by lia. reflexivity.
  - specialize (IH (S attempt) ltac:(lia)).
    destruct (send_loop w key p retries fuel (S attempt)) as [log r].
    exact IH.
Qed.

Lemma send_loop_first key p retries fuel :
  (0 < retries)%nat ->
  In (Send key 1) (fst (send_loop w key p retries (S fuel) 1)).
Proof.
  intros H. cbn [send_loop].
  assert ((1 <=? retries)%nat = true) as -> by (apply Nat.leb_le; lia).
  destruct (send_ok w key 1); [left; reflexivity|].
  destruct (1 =? retries)%nat; [left; reflexivity|].
  destruct (send_loop w key p retries fuel 2); left; reflexivity.
Qed.

(** A file that can be read is attempted and its promise is fulfilled. *)
Lemma uploadFile_readable f :
  file_content w f <> None ->
  snd (uploadFile w config f 5) = Ok (uploaded w config f)
  /\ In (Read f) (fst (uploadFile w config f 5))
  /\ In (Send (object_key config f) 1) (fst (uploadFile w config f 5)).
Proof.
  intros H. unfold uploadFile.
  destruct (file_content w f) as [buffer|]; [|now destruct H].
  pose proof (send_loop_result (object_key config f) f 5 5 1 eq_refl) as Hr.
  pose proof (send_loop_first (object_key config f) f 5 4 ltac:(lia)) as Hs.
  destruct (send_loop w (object_key config f) f 5 5 1) as [log r].
  cbn [fst snd] in *. subst r. unfold uploaded.
  repeat split; [left; reflexivity | right; exact Hs].
Qed.

Lemma length_filter_map (f : jsstring -> bool) (l : list jsstring) :
  length (List.filter (fun r : bool => r) (map f l))
  = length (List.filter f l).
Proof.
  induction l as [|x l IH]; [reflexivity|]. simpl.
  destruct (f x); simpl; now rewrite IH.
Qed.

Lemma promise_all_readable files :
  readable w files ->
  promise_all (map snd (map (fun f => uploadFile w config f 5) files))
  = Ok (map (uploaded w config) files).
Proof.
  induction files as [|f files IH]; intros H; [reflexivity|].
  cbn [map promise_all].
  destruct (uploadFile_readable f (H f (or_introl eq_refl))) as (-> & _).
  rewrite IH; [reflexivity|].
  intros g Hg; apply H; now right.
Qed.

(** A batch of readable files: the events of each upload, and the counts. *)
Lemma uploadBatch_fulfilled files :
  readable w files ->
  uploadBatch w config files
  = (concat (map fst (map (fun f => uploadFile w config f 5) files)),
     Ok (length (List.filter (uploaded w config) files),
         (length files
          - length (List.filter (uploaded w config) files))%nat)).
Proof.
  intros H. unfold uploadBatch.
  rewrite (promise_all_readable files H).
  now rewrite length_filter_map, length_map.
Qed.

(** A batch of readable files completes with its two counts, whatever the
    sends do, and every file of it is attempted. *)
Lemma uploadBatch_readable files :
  readable w files ->
  snd (uploadBatch w config files)
  = Ok (length (List.filter (uploaded w config) files),
        (length files
         - length (List.filter (uploaded w config) files))%nat)
  /\ forall f, In f files ->
       In (Read f) (fst (uploadBatch w config files))
       /\ In (Send (object_key config f) 1) (fst (uploadBatch w config files)).
Proof.
  intros H. rewrite (uploadBatch_fulfilled files H). cbn [fst snd]. split.
  - reflexivity.
  - intros f Hf.
    destruct (uploadFile_readable f (H f Hf)) as (_ & Hr & Hs).
    split; apply in_concat;
      exists (fst (uploadFile w config f 5));
      (split; [|assumption]);
      apply in_map, (in_map (fun f => uploadFile w config f 5)), Hf.
Qed.

Lemma upload_batches_readable batches :
  forall totalSuccess totalFailed,
    readable w (concat batches) ->
    snd (upload_batches w config batches totalSuccess totalFailed)
    = Ok ((totalSuccess
           + length (List.filter (uploaded w config) (concat batches)))%nat,
          (totalFailed
           + (length (concat batches)
              - length (List.filter (uploaded w config) (concat batches))))%nat)
    /\ forall f, In f (concat batches) ->
         In (Read f)
           (fst (upload_batches w config batches totalSuccess totalFailed))
         /\ In (Send (object_key config f) 1)
              (fst (upload_batches w config batches totalSuccess totalFailed)).
Proof.
  induction batches as [|b rest IH]; intros ts tf H.
  - cbn [upload_batches concat List.filter length fst snd].
    split; [f_equal; f_equal; lia | intros f []].
  - cbn [upload_batches concat] in *.
    assert (readable w b) as Hb by (intros f Hf; apply H, in_or_app; now left).
    assert (readable w (concat rest)) as Hrest
      by (intros f Hf; apply H, in_or_app; now right).
    destruct (uploadBatch_readable b Hb) as [Hres Hlog].
    destruct (uploadBatch w config b) as [log r]. cbn [fst snd] in Hres, Hlog.
    subst r.
    specialize (IH (ts + length (List.filter (uploaded w config) b))%nat
                   (tf + (length b
                          - length (List.filter (uploaded w config) b)))%nat
                   Hrest).
    destruct (upload_batches w config rest _ _) as [log' r'].
    cbn [fst snd] in *. destruct IH as [-> IHlog]. split.
    + rewrite List.filter_app, !length_app.
      pose proof (List.filter_length_le (uploaded w config) b).
      pose proof (List.filter_length_le (uploaded w config) (concat rest)).
      f_equal; f_equal; lia.
    + intros f Hf. apply in_app_or in Hf. destruct Hf as [Hf|Hf].
      * destruct (Hlog f Hf). split; apply in_or_app; now left.
      * destruct (IHlog f Hf). split; apply in_or_app; now right.
Qed.

End Batches.

(** The batches are the file list, cut every [BATCH_SIZE] files; the loop
    that cuts it has enough fuel. *)
Lemma batches_from_concat (files : list jsstring) :
  forall fuel i,
    (length files - i <= fuel)%nat ->
    concat (batches_from fuel i files) = skipn i files.
Proof.
  induction fuel as [|fuel IH]; intros i H.
  - simpl. symmetry; apply skipn_all2; lia.
  - cbn [batches_from].
    destruct (Nat.ltb_spec i (length files)) as [Hi|Hi].
    + cbn [concat]. rewrite IH by (unfold BATCH_SIZE; lia).
      unfold slice. replace (i + BATCH_SIZE - i)%nat with BATCH_SIZE by lia.
      rewrite (Nat.add_comm i BATCH_SIZE), <- skipn_skipn.
      apply firstn_skipn.
    + simpl. symmetry; apply skipn_all2; lia.
Qed.

Lemma split_batches_concat (files : list jsstring) :
  concat (split_batches files) = files.
Proof.
  unfold split_batches. rewrite batches_from_concat by lia. reflexivity.
Qed.

(** C9, as the code has it. When every discovered file can be read, no
    outcome of the sends aborts anything: each batch completes with its
    [success] and [failed] counts, the run completes with the totals, the
    files whose five sends all fail are counted as failed, and every file of
    every batch is attempted. *)
Theorem send_failures_do_not_abort w config files :
  readable w files ->
  (forall batch, In batch (split_batches files) ->
     snd (uploadBatch w config batch)
     = Ok (length (List.filter (uploaded w config) batch),
           (length batch
            - length (List.filter (uploaded w config) batch))%nat))
  /\ snd (upload_batches w config (split_batches files) 0 0)
     = Ok (length (List.filter (uploaded w config) files),
           (length files
            - length (List.filter (uploaded w config) files))%nat)
  /\ forall f, In f files ->
       In (Read f) (fst (upload_batches w config (split_batches files) 0 0))
       /\ In (Send (object_key config f) 1)
            (fst (upload_batches w config (split_batches files) 0 0)).
Proof.
  intros H. split; [|].
  - intros batch Hb. apply uploadBatch_readable.
    intros f Hf. apply H. rewrite <- (split_batches_concat files).
    apply in_concat. exists batch; split; assumption.
  - pose proof (upload_batches_readable w config (split_batches files) 0 0)
      as Hu.
    rewrite split_batches_concat in Hu. exact (Hu H).
Qed.

(** ** Examples for the uploader: 51 files, so two batches *)

Definition numbered_file (i : nat) : jsstring :=
  js "Misc/SVG/icon_" ++ [48 + N.of_nat (i / 10); 48 + N.of_nat (i mod 10)]
  ++ js "_regular.svg".

Definition discovered_files : list jsstring := map numbered_file (seq 0 51).

Definition plain_config : UploadConfig :=
  {| accountId := js "account";
     accessKeyId := js "key";
     secretAccessKey := js "secret";
     bucketName := js "icons";
     prefix := None |}.

(** Every file can be read; no send for [icon_01] ever succeeds. *)
Definition flaky_world : World :=
  {| file_content := fun _ => Some [];
     send_ok := fun key _ => negb (bool_decide (key = numbered_file 1)) |}.

(** The first file cannot be read; every send succeeds. *)
Definition unreadable_world : World :=
  {| file_content :=
       fun p => if bool_decide (p = numbered_file 0) then None else Some [];
     send_ok := fun _ _ => true |}.

Lemma send_failures_do_not_abort_witness :
  (forall batch, In batch (split_batches discovered_files) ->
     snd (uploadBatch flaky_world plain_config batch)
     = Ok (length (List.filter (uploaded flaky_world plain_config) batch),
           (length batch
            - length (List.filter (uploaded flaky_world plain_config) batch))%nat))
  /\ snd (upload_batches flaky_world plain_config
            (split_batches discovered_files) 0 0)
     = Ok (length (List.filter (uploaded flaky_world plain_config)
                     discovered_files),
           (length discovered_files
            - length (List.filter (uploaded flaky_world plain_config)
                        discovered_files))%nat)
  /\ forall f, In f discovered_files ->
       In (Read f)
         (fst (upload_batches flaky_world plain_config
                 (split_batches discovered_files) 0 0))
       /\ In (Send (object_key plain_config f) 1)
            (fst (upload_batches flaky_world plain_config
                    (split_batches discovered_files) 0 0)).
Proof.
  apply (send_failures_do_not_abort flaky_world plain_config discovered_files).
  intros f _; discriminate.
Defined.

(** In [flaky_world] the run completes with 50 files uploaded and 1 failed. *)
Lemma flaky_world_totals :
  snd (upload_batches flaky_world plain_config
         (split_batches discovered_files) 0 0)
  = Ok (50%nat, 1%nat).
Proof. vm_compute; reflexivity. Qed.

(** C9 as stated fails: a file that cannot be read rejects its [uploadFile],
    so [Promise.all] rejects, the batch yields no counts, [main] ends, and
    the file of the second batch, which can be read, is never attempted. *)
Lemma read_failure_aborts_the_run :
  In (numbered_file 0) (firstn 50 discovered_files)
  /\ snd (uploadBatch unreadable_world plain_config (firstn 50 discovered_files))
     = Throw (ReadFileError (numbered_file 0))
  /\ snd (upload_batches unreadable_world plain_config
            (split_batches discovered_files) 0 0)
     = Throw (ReadFileError (numbered_file 0))
  /\ split_batches discovered_files
     = [firstn 50 discovered_files; [numbered_file 50]]
  /\ file_content unreadable_world (numbered_file 50) = Some []
  /\ attempted (numbered_file 50)
       (fst (upload_batches unreadable_world plain_config
               (split_batches discovered_files) 0 0))
     = false.
Proof.
  split; [left; reflexivity|].
  repeat split; vm_compute; reflexivity.
Qed.

(** ** Examples for the filename parser and the configuration *)

Lemma size_of_first_digit_run_example :
  fd_size (IconIndex.parseFileDetails ascii_toLowerCase
             (js "access_time_20_filled.svg"))
  = Some (Finite 20).
Proof.
  assert (first_size_token (strip_svg (js "access_time_20_filled.svg"))
            (js "20")) as H
    by (apply match_size_some; vm_compute; reflexivity).
  destruct (size_of_first_digit_run ascii_toLowerCase
              (js "access_time_20_filled.svg")) as (Hsize & _).
  destruct (Hsize (js "20") H) as [_ Hexact].
  rewrite Hexact by (vm_compute; discriminate).
  vm_compute; reflexivity.
Defined.

Definition partial_env : gmap string jsstring :=
  {[ "R2_ACCESS_KEY_ID"%string := js "key";
     "R2_BUCKET_NAME"%string := [] ]}.

Lemma getConfig_partial_env :
  getConfig partial_env
  = Throw (Error (js "Missing required environment variables: R2_ACCOUNT_ID, R2_SECRET_ACCESS_KEY, R2_BUCKET_NAME")).
Proof. vm_compute; reflexivity. Qed.

(* ===================================================================== *)
(** * More of the filename parser: suffix and style facet *)
(* ===================================================================== *)

Lemma endsWith_spec (s suffix : jsstring) :
  endsWith s suffix = true <-> exists pre, s = pre ++ suffix.
Proof.
  unfold endsWith; split.
  - intros H; apply andb_true_iff in H; destruct H as [_ H].
    apply bool_decide_eq_true in H.
    exists (firstn (length s - length suffix) s).
    pose proof (firstn_skipn (length s - length suffix) s) as E.
    rewrite H in E. now symmetry.
  - intros [pre ->]. apply andb_true_iff; split.
    + apply Nat.leb_le. rewrite length_app; lia.
    + apply bool_decide_eq_true. rewrite length_app.
      replace (length pre + length suffix - length suffix)%nat
        with (length pre) by lia.
      apply drop_app_length.
Qed.

Lemma ascii_lower_underscore c : ascii_lower c = UNDERSCORE -> c = UNDERSCORE.
Proof.
  unfold ascii_lower, is_upper, in_range, UNDERSCORE.
  destruct (65 <=? c) eqn:E1; simpl; [|trivial].
  destruct (c <=? 90) eqn:E2; [|trivial].
  apply N.leb_le in E1, E2. lia.
Qed.

Lemma ascii_lower_ascii c : is_ascii (ascii_lower c) = true -> is_ascii c = true.
Proof.
  unfold ascii_lower, is_upper, in_range, is_ascii.
  destruct ((65 <=? c) && (c <=? 90)); [|trivial].
  intros H; apply N.ltb_lt in H; apply N.ltb_lt; lia.
Qed.

Lemma all_ascii_of_lower (s : jsstring) :
  all_ascii (map ascii_lower s) = true -> all_ascii s = true.
Proof.
  unfold all_ascii. induction s as [|c t IH]; simpl; [trivial|].
  intros H; apply andb_true_iff in H; destruct H as [Hc Ht].
  now rewrite (ascii_lower_ascii c Hc), IH.
Qed.

(** The text after the last underscore is determined by the string. *)
Lemma last_underscore_unique (x y a b : jsstring) :
  x ++ UNDERSCORE :: a = y ++ UNDERSCORE :: b ->
  ~ In UNDERSCORE a -> ~ In UNDERSCORE b -> x = y /\ a = b.
Proof.
  revert y; induction x as [|c x IH]; intros [|d y] E Ha Hb; simpl in E.
  - injection E as ->. split; reflexivity.
  - injection E as <- ->. destruct Ha. apply in_or_app; right; left; reflexivity.
  - injection E as -> <-. destruct Hb. apply in_or_app; right; left; reflexivity.
  - injection E as -> E. destruct (IH _ E Ha Hb) as [-> ->]. split; reflexivity.
Qed.

Lemma STYLES_plain (alt : jsstring) :
  In alt STYLES ->
  ~ In UNDERSCORE alt /\ all_ascii alt = true /\ map ascii_lower alt = alt.
Proof.
  intros H. simpl in H.
  repeat (destruct H as [<- | H];
          [split; [|split; reflexivity];
           intros Hin; simpl in Hin;
           repeat (destruct Hin as [Hin|Hin]; [discriminate Hin|]);
           exact Hin|]).
  destruct H.
Qed.

(** What [match_style] captures: the text after the last underscore, when
    it is one of the style names up to ASCII letter case. *)
Lemma match_style_some (s m : jsstring) :
  match_style s = Some m ->
  In (map ascii_lower m) STYLES /\ exists pre, s = pre ++ UNDERSCORE :: m.
Proof.
  unfold match_style.
  match goal with |- context [find ?f ?l] =>
    destruct (find f l) as [alt|] eqn:E; [|discriminate]
  end.
  intros H; injection H as <-.
  apply find_some in E. destruct E as [Hin He].
  apply endsWith_spec in He. destruct He as [pre He].
  assert (length s = (length pre + S (length alt))%nat) as Hlen.
  { rewrite <- (length_map ascii_lower s), He, length_app. reflexivity. }
  pose proof (firstn_skipn (length pre) s) as Hs.
  assert (map ascii_lower (skipn (length pre) s) = UNDERSCORE :: alt) as Hm.
  { rewrite <- skipn_map, He. apply drop_app_length'.
    rewrite <- (firstn_skipn (length pre) s) in He.
    apply (f_equal (@length N)) in He.
    rewrite length_map, !length_app, length_firstn, length_skipn in He.
    simpl in He. lia. }
  destruct (skipn (length pre) s) as [|c m] eqn:Ek; [discriminate Hm|].
  simpl in Hm. injection Hm as Hc Hm.
  apply ascii_lower_underscore in Hc; subst c.
  assert (skipn (length s - length alt) s = m) as ->.
  { replace (length s - length alt)%nat with (1 + length pre)%nat by lia.
    rewrite <- skipn_skipn, Ek. reflexivity. }
  rewrite Hm. split; [exact Hin|].
  exists (firstn (length pre) s). now rewrite Hs.
Qed.

Lemma match_style_complete (pre m : jsstring) :
  In (map ascii_lower m) STYLES ->
  match_style (pre ++ UNDERSCORE :: m) = Some m.
Proof.
  intros Hin.
  destruct (match_style (pre ++ UNDERSCORE :: m)) as [m'|] eqn:E.
  - destruct (match_style_some _ _ E) as (Hin' & pre' & Hs).
    assert (~ In UNDERSCORE m /\ ~ In UNDERSCORE m') as [H1 H2].
    { destruct (STYLES_plain _ Hin) as (Hu & _).
      destruct (STYLES_plain _ Hin') as (Hu' & _).
      split; intros Hx; [apply Hu | apply Hu'];
        apply in_map_iff; exists UNDERSCORE; split; trivial. }
    destruct (last_underscore_unique _ _ _ _ Hs H1 H2) as [_ ->].
    reflexivity.
  - exfalso. unfold match_style in E.
    match type of E with context [find ?f ?l] =>
      destruct (find f l) as [alt|] eqn:Ef; [discriminate E|]
    end.
    pose proof (find_none _ _ Ef _ Hin) as Hf. simpl in Hf.
    assert (endsWith (map ascii_lower (pre ++ UNDERSCORE :: m))
              (UNDERSCORE :: map ascii_lower m) = true) as Ht.
    { apply endsWith_spec. exists (map ascii_lower pre).
      now rewrite map_app. }
    rewrite Ht in Hf; discriminate Hf.
Qed.

Section StyleFacet.

Variable toLowerCase : jsstring -> jsstring.
Hypothesis toLowerCase_ascii :
  forall s, all_ascii s = true -> toLowerCase s = ascii_toLowerCase s.

#[local] Abbreviation parseFileDetails :=
  (IconIndex.parseFileDetails toLowerCase).

(** X1. The [style] of a file name, when present, is one of the five style
    names in lowercase, and it is present exactly when the stem ends with an
    underscore followed by one of them in any letter case. *)
Theorem style_is_a_known_suffix (fileName : jsstring) :
  (forall st,
      fd_style (parseFileDetails fileName) = Some st ->
      In st STYLES
      /\ exists pre m, strip_svg fileName = pre ++ UNDERSCORE :: m
                       /\ map ascii_lower m = st)
  /\ (forall pre m,
         strip_svg fileName = pre ++ UNDERSCORE :: m ->
         In (map ascii_lower m) STYLES ->
         fd_style (parseFileDetails fileName) = Some (map ascii_lower m)).
Proof.
  unfold IconIndex.parseFileDetails; cbn [fd_style]. split.
  - intros st H.
    destruct (match_style (strip_svg fileName)) as [m|] eqn:E;
      [|discriminate H].
    destruct (match_style_some _ _ E) as (Hin & pre & Hs).
    simpl in H. injection H as <-.
    destruct (STYLES_plain _ Hin) as (_ & Ha & _).
    rewrite (toLowerCase_ascii m (all_ascii_of_lower m Ha)).
    split; [exact Hin|]. now exists pre, m.
  - intros pre m Hs Hin. rewrite Hs, (match_style_complete pre m Hin).
    destruct (STYLES_plain _ Hin) as (_ & Ha & _). simpl.
    now rewrite (toLowerCase_ascii m (all_ascii_of_lower m Ha)).
Qed.

End StyleFacet.

Lemma style_is_a_known_suffix_witness :
  fd_style (IconIndex.parseFileDetails ascii_toLowerCase
              (js "Clock_24_BOLD.svg"))
  = Some (map ascii_lower (js "BOLD")).
Proof.
  apply (proj2 (style_is_a_known_suffix ascii_toLowerCase
                  ascii_toLowerCase_ascii (js "Clock_24_BOLD.svg"))
           (js "Clock_24")).
  - reflexivity.
  - right; right; right; left; reflexivity.
Defined.

(* ===================================================================== *)
(** * More of the catalogue builder *)
(* ===================================================================== *)

(** The files of an entry that get a record: those with the [.svg] suffix
    in the listing of the [SVG] directory of a category directory. *)
Definition listed_files (toLowerCase : jsstring -> jsstring) (entry : Dirent)
  : list (jsstring * jsstring) :=
  match entry with
  | DirEntry entryName _ (SvgDirectory (Ok svgFiles)) =>
      map (pair entryName) (List.filter (has_svg_suffix toLowerCase) svgFiles)
  | _ => []
  end.

(** The [SVG] directory of the entry, if it has one, can be listed. *)
Definition listable (entry : Dirent) : bool :=
  match entry with
  | DirEntry _ _ (SvgDirectory (Throw _)) => false
  | _ => true
  end.

(** The names of the entry and of its files are well formed. *)
Definition well_formed_names (entry : Dirent) : bool :=
  match entry with
  | DirEntry entryName _ (SvgDirectory (Ok svgFiles)) =>
      isWellFormed entryName && forallb isWellFormed svgFiles
  | _ => true
  end.

Section CatalogueContents.

Variable toLowerCase : jsstring -> jsstring.
Variable normalizeNFD : jsstring -> jsstring.
Variable JSON_stringify : Manifest -> jsstring.

#[local] Abbreviation slugify := (IconIndex.slugify toLowerCase normalizeNFD).
#[local] Abbreviation icon_of := (IconIndex.icon_of toLowerCase).
#[local] Abbreviation push_icons := (IconIndex.push_icons toLowerCase).
#[local] Abbreviation visit_entry :=
  (IconIndex.visit_entry toLowerCase normalizeNFD).
#[local] Abbreviation visit_entries :=
  (IconIndex.visit_entries toLowerCase normalizeNFD).
#[local] Abbreviation collect_icons :=
  (IconIndex.collect_icons toLowerCase normalizeNFD).
#[local] Abbreviation generateManifest :=
  (IconIndex.generateManifest toLowerCase normalizeNFD JSON_stringify).

Definition record_key (r : IconRecord) : jsstring * jsstring :=
  (category r, file r).

(** The record comes from a category directory among [entries]: its file is
    in the listing, its other fields are built from the descriptor of that
    directory. *)
Definition recorded_from (base : option jsstring) (entries : list Dirent)
    (r : IconRecord) : Prop :=
  exists metadataFile svgFiles,
    In (DirEntry (category r) metadataFile (SvgDirectory (Ok svgFiles)))
      entries
    /\ In (file r) svgFiles
    /\ icon_of base (category r) (slugify (category r))
         (default empty_metadata (readJsonFile metadataFile)) (file r)
       = Ok r.

Lemma visit_entry_contents base entry icons out :
  visit_entry base entry icons = Ok out ->
  exists recs,
    out = icons ++ recs
    /\ map record_key recs = listed_files toLowerCase entry
    /\ Forall (recorded_from base [entry]) recs.
Proof.
  destruct entry as [n|n mf svg]; simpl.
  - intros H; injection H as <-. exists []; rewrite app_nil_r.
    repeat split; constructor.
  - destruct svg as [| |[files|e]]; simpl;
      try (intros H; injection H as <-; exists []; rewrite app_nil_r;
           repeat split; constructor);
      [|discriminate].
    intros H. apply push_icons_sound in H. destruct H as (recs & -> & HF).
    exists recs; split; [reflexivity|].
    assert (forall f, In f (List.filter (has_svg_suffix toLowerCase) files) ->
                      In f files) as Hsub
      by (intros f Hf; apply List.filter_In in Hf; tauto).
    revert Hsub.
    induction HF as [|f r fs rs Hr _ IH]; intros Hsub;
      [split; constructor|].
    destruct (IH (fun g Hg => Hsub g (or_intror Hg))) as [IH1 IH2].
    destruct (icon_of_fields _ _ _ _ _ _ _ Hr)
      as (_ & Hc & _ & _ & _ & _ & _ & _ & _ & Hf & _).
    split.
    + simpl. unfold record_key at 1. now rewrite Hc, Hf, IH1.
    + constructor; [|exact IH2].
      exists mf, files. rewrite Hc, Hf.
      repeat split; [left; reflexivity | apply Hsub; left; reflexivity
                    | exact Hr].
Qed.

Lemma recorded_from_weaken base entries entries' r :
  (forall e, In e entries -> In e entries') ->
  recorded_from base entries r -> recorded_from base entries' r.
Proof.
  intros Hsub (mf & files & Hin & Hf & Hr).
  exists mf, files. repeat split; [apply Hsub; exact Hin | exact Hf | exact Hr].
Qed.

Lemma visit_entries_contents base entries :
  forall icons out,
    visit_entries base entries icons = Ok out ->
    exists recs,
      out = icons ++ recs
      /\ map record_key recs = flat_map (listed_files toLowerCase) entries
      /\ Forall (recorded_from base entries) recs.
Proof.
  induction entries as [|e rest IH]; intros icons out H; simpl in H.
  - injection H as <-. exists []; rewrite app_nil_r. repeat split; constructor.
  - destruct (visit_entry base e icons) as [icons'|x] eqn:E; simpl in H;
      [|discriminate H].
    destruct (visit_entry_contents _ _ _ _ E) as (recs1 & -> & K1 & F1).
    destruct (IH _ _ H) as (recs2 & -> & K2 & F2).
    exists (recs1 ++ recs2). split; [now rewrite app_assoc|]. split.
    + simpl. now rewrite map_app, K1, K2.
    + apply Forall_app; split.
      * eapply List.Forall_impl; [|exact F1].
        intros r; apply recorded_from_weaken.
        intros x [<-|[]]; left; reflexivity.
      * eapply List.Forall_impl; [|exact F2].
        intros r; apply recorded_from_weaken. intros x Hx; now right.
Qed.

(** X2. The catalogue holds one record for each file with the [.svg]
    suffix in the [SVG] directory of each category directory, in the order
    of the directory entries and then of the files; entries that are not
    directories, categories without an [SVG] directory and other files add
    nothing. *)
Theorem catalogue_follows_enumeration_order env entries icons :
  collect_icons env entries = Ok icons ->
  map record_key icons = flat_map (listed_files toLowerCase) entries
  /\ length icons = length (flat_map (listed_files toLowerCase) entries).
Proof.
  intros H. apply visit_entries_contents in H.
  destruct H as (recs & -> & K & _). simpl.
  split; [exact K|]. now rewrite <- K, length_map.
Qed.

(** X3. Each record takes its fields from its own category directory: the
    file is in the listing of that directory, [name] is the name of the
    descriptor or else the directory name, [tags] its metaphors or else
    empty, [description] and [keyword] are the descriptor's, and
    [relativePath] is [assets/<directory>/SVG/<file>]. *)
Theorem record_fields_from_own_category env entries icons r :
  collect_icons env entries = Ok icons -> In r icons ->
  exists metadataFile svgFiles,
    In (DirEntry (category r) metadataFile (SvgDirectory (Ok svgFiles)))
      entries
    /\ In (file r) svgFiles
    /\ has_svg_suffix toLowerCase (file r) = true
    /\ name r
       = default (category r)
           (md_name (default empty_metadata (readJsonFile metadataFile)))
    /\ tags r
       = default []
           (md_metaphor (default empty_metadata (readJsonFile metadataFile)))
    /\ description r
       = md_description (default empty_metadata (readJsonFile metadataFile))
    /\ keyword r
       = md_keyword (default empty_metadata (readJsonFile metadataFile))
    /\ relativePath r
       = js "assets/" ++ category r ++ js "/SVG/" ++ file r.
Proof.
  intros H Hr.
  pose proof (visit_entries_contents _ _ _ _ H) as (recs & E & K & F).
  simpl in E; subst recs.
  rewrite List.Forall_forall in F.
  destruct (F r Hr) as (mf & files & Hin & Hf & Hic).
  exists mf, files.
  destruct (icon_of_fields _ _ _ _ _ _ _ Hic)
    as (_ & _ & _ & Hn & Hd & Hk & Ht & _ & _ & _ & Hp & _).
  repeat split; try assumption.
  assert (In (record_key r) (flat_map (listed_files toLowerCase) entries))
    as Hk' by (rewrite <- K; now apply in_map).
  apply in_flat_map in Hk'. destruct Hk' as (e & _ & He).
  destruct e as [|n mf' [| |[fs|x]]]; simpl in He; try contradiction.
  apply in_map_iff in He. destruct He as (f & Hpair & Hfilter).
  injection Hpair as _ ->. apply List.filter_In in Hfilter. tauto.
Qed.

(** X4. When the [SVG] directory of a category exists but cannot be listed,
    the error is not caught: the run throws it, whatever comes after, and
    no manifest is written. *)
Theorem unlistable_svg_directory_aborts env pre post entryName metadataFile e
    icons now :
  collect_icons env pre = Ok icons ->
  collect_icons env
    (pre ++ DirEntry entryName metadataFile (SvgDirectory (Throw e)) :: post)
  = Throw e
  /\ generateManifest env
       (Ok (pre ++ DirEntry entryName metadataFile (SvgDirectory (Throw e))
                :: post)) now
     = Throw e.
Proof.
  intros H.
  assert (collect_icons env
            (pre ++ DirEntry entryName metadataFile (SvgDirectory (Throw e))
                 :: post) = Throw e) as Hc.
  { unfold IconIndex.collect_icons in *. rewrite visit_entries_app, H.
    reflexivity. }
  split; [exact Hc|].
  unfold IconIndex.generateManifest. cbn [bind]. now rewrite Hc.
Qed.

Lemma push_icons_defined base entryName slug metadata svgFiles icons :
  (forall f, In f svgFiles -> exists u, cdnUrl_of base entryName f = Ok u) ->
  exists out, push_icons base entryName slug metadata svgFiles icons = Ok out.
Proof.
  revert icons; induction svgFiles as [|f rest IH]; intros icons H; simpl.
  - eexists; reflexivity.
  - destruct (endsWith (toLowerCase f) (js ".svg")); simpl.
    + destruct (H f (or_introl eq_refl)) as [u Hu].
      destruct (icon_of_total toLowerCase base entryName slug metadata f u Hu)
        as [r ->].
      simpl. apply IH. intros g Hg; apply H; now right.
    + apply IH. intros g Hg; apply H; now right.
Qed.

(** X5. The catalogue is built, and the manifest text is produced, whenever
    every [SVG] directory can be listed and either no CDN base is configured
    or all names are well formed. *)
Theorem catalogue_is_built env entries now :
  forallb listable entries = true ->
  ICON_CDN_BASE_URL env = None
  \/ forallb well_formed_names entries = true ->
  exists icons,
    collect_icons env entries = Ok icons
    /\ generateManifest env (Ok entries) now
       = Ok (JSON_stringify
               {| generatedAt := now; count := length icons; icons := icons |}).
Proof.
  intros Hl Hw.
  assert (exists icons, collect_icons env entries = Ok icons) as [icons Hc].
  { unfold IconIndex.collect_icons. generalize (@nil IconRecord).
    induction entries as [|e rest IH]; intros acc; simpl;
      [eexists; reflexivity|].
    simpl in Hl. apply andb_true_iff in Hl. destruct Hl as [Hle Hlr].
    assert (exists acc', visit_entry (ICON_CDN_BASE_URL env) e acc = Ok acc')
      as [acc' ->].
    { destruct e as [n|n mf [| |[files|x]]]; simpl;
        try (eexists; reflexivity); [|discriminate Hle].
      apply push_icons_defined. intros f Hf.
      destruct Hw as [-> | Hw]; [eexists; reflexivity|].
      simpl in Hw. apply andb_true_iff in Hw. destruct Hw as [Hw _].
      apply andb_true_iff in Hw. destruct Hw as [Hn Hfs].
      rewrite forallb_forall in Hfs.
      apply cdnUrl_of_total; [exact Hn | now apply Hfs]. }
    simpl. apply IH; [exact Hlr|].
    destruct Hw as [Hw|Hw]; [now left | right].
    simpl in Hw. apply andb_true_iff in Hw. tauto. }
  exists icons; split; [exact Hc|].
  unfold IconIndex.generateManifest. cbn [bind]. now rewrite Hc.
Qed.

End CatalogueContents.

(* ===================================================================== *)
(** * The CDN location *)
(* ===================================================================== *)

(** Strings of 16-bit code units. *)
Definition code_units (s : jsstring) : bool := forallb (fun c => c <? 65536) s.

Definition PERCENT : N := 37.

(** What a percent-encoded segment is made of. *)
Definition segment_unit (c : N) : bool := is_uri_unreserved c || (c =? PERCENT).

Lemma hex_digit_unreserved d : d < 16 -> is_uri_unreserved (hex_digit d) = true.
Proof.
  intros H. unfold hex_digit.
  assert (d = 0 \/ d = 1 \/ d = 2 \/ d = 3 \/ d = 4 \/ d = 5 \/ d = 6 \/ d = 7
          \/ d = 8 \/ d = 9 \/ d = 10 \/ d = 11 \/ d = 12 \/ d = 13 \/ d = 14
          \/ d = 15) as Hd by lia.
  repeat (destruct Hd as [-> | Hd]; [reflexivity|]). subst d; reflexivity.
Qed.

Lemma percent_units b : b < 256 -> forallb segment_unit (percent b) = true.
Proof.
  intros H. unfold percent, segment_unit. cbn [forallb].
  assert (b / 16 < 16) as H1 by (apply N.Div0.div_lt_upper_bound; lia).
  assert (b mod 16 < 16) as H2 by (apply N.mod_lt; lia).
  rewrite (hex_digit_unreserved _ H1), (hex_digit_unreserved _ H2).
  reflexivity.
Qed.

Lemma utf8_bytes cp : cp < 1114112 -> Forall (fun b => b < 256) (utf8 cp).
Proof.
  intros H. unfold utf8.
  destruct (N.ltb_spec cp 128); [repeat constructor; lia|].
  destruct (N.ltb_spec cp 2048).
  { assert (cp / 64 < 32) by (apply N.Div0.div_lt_upper_bound; lia).
    assert (cp mod 64 < 64) by (apply N.mod_lt; lia).
    repeat constructor; lia. }
  assert (cp mod 64 < 64) by (apply N.mod_lt; lia).
  assert ((cp / 64) mod 64 < 64) by (apply N.mod_lt; lia).
  destruct (N.ltb_spec cp 65536).
  { assert (cp / 4096 < 16) by (apply N.Div0.div_lt_upper_bound; lia).
    repeat constructor; lia. }
  assert (cp / 262144 < 5) by (apply N.Div0.div_lt_upper_bound; lia).
  assert ((cp / 4096) mod 64 < 64) by (apply N.mod_lt; lia).
  repeat constructor; lia.
Qed.

Lemma escape_units cp rest e :
  cp < 1114112 ->
  (forall r, rest = Some r -> forallb segment_unit r = true) ->
  escape cp rest = Some e -> forallb segment_unit e = true.
Proof.
  intros Hcp Hrest. unfold escape.
  destruct rest as [r|]; [|discriminate]. cbn [option_map].
  intros H; injection H as <-.
  rewrite forallb_app, (Hrest r eq_refl), andb_true_r.
  pose proof (utf8_bytes cp Hcp) as Hb.
  induction Hb as [|b bs Hb _ IH]; [reflexivity|].
  change (flat_map percent (b :: bs))
    with (percent b ++ flat_map percent bs).
  now rewrite forallb_app, (percent_units b Hb), IH.
Qed.

(** Every code unit of the result of [encodeURIComponent] is unreserved or
    a percent sign. *)
Lemma encodeURIComponent_units (s : jsstring) :
  forall e,
    code_units s = true -> encodeURIComponent s = Some e ->
    forallb segment_unit e = true.
Proof.
  assert (forall n (s : jsstring), (length s <= n)%nat ->
            forall e, code_units s = true -> encodeURIComponent s = Some e ->
                      forallb segment_unit e = true)
    as H; [|exact (H (length s) s (le_n _))].
  clear s; induction n as [|n IH]; intros s Hn e Hc He.
  - destruct s; [|simpl in Hn; lia]. injection He as <-; reflexivity.
  - destruct s as [|c t]; [injection He as <-; reflexivity|].
    simpl in Hn, Hc, He. apply andb_true_iff in Hc. destruct Hc as [Hc Ht].
    apply N.ltb_lt in Hc.
    destruct (is_uri_unreserved c) eqn:Eu.
    + destruct (encodeURIComponent t) as [r|] eqn:Er; [|discriminate He].
      injection He as <-. simpl. unfold segment_unit at 1. rewrite Eu. simpl.
      apply (IH t ltac:(lia) r Ht Er).
    + destruct (is_low_surrogate c); [discriminate He|].
      destruct (is_high_surrogate c) eqn:Eh.
      * destruct t as [|d t']; [discriminate He|].
        destruct (is_low_surrogate d) eqn:El; [|discriminate He].
        simpl in Ht, Hn. apply andb_true_iff in Ht. destruct Ht as [_ Ht].
        unfold is_high_surrogate, is_low_surrogate, in_range in Eh, El.
        apply andb_true_iff in Eh, El. destruct Eh as [Eh1 Eh2], El as [El1 El2].
        apply N.leb_le in Eh1, Eh2, El1, El2.
        refine (escape_units _ _ _ _ _ He); [lia|].
        intros r Hr. apply (IH t' ltac:(lia) r Ht Hr).
      * refine (escape_units _ _ _ _ _ He); [lia|].
        intros r Hr. apply (IH t ltac:(lia) r Ht Hr).
Qed.

Lemma segment_unit_not_separator c :
  segment_unit c = true ->
  c <> SLASH /\ c <> 32 /\ c <> 35 /\ c <> 63 /\ is_ascii c = true.
Proof.
  intros H.
  assert (is_ascii c = true /\ c <> 47 /\ c <> 32 /\ c <> 35 /\ c <> 63)
    as (Ha & H1 & H2 & H3 & H4).
  { unfold segment_unit in H. apply orb_true_iff in H. destruct H as [H|H].
    - unfold is_uri_unreserved in H.
      repeat (apply orb_true_iff in H; destruct H as [H|H]).
      + unfold is_upper, in_range in H. apply andb_true_iff in H.
        destruct H as [Hl Hu]. apply N.leb_le in Hl, Hu.
        repeat split; [apply N.ltb_lt|..]; lia.
      + unfold is_lower, in_range in H. apply andb_true_iff in H.
        destruct H as [Hl Hu]. apply N.leb_le in Hl, Hu.
        repeat split; [apply N.ltb_lt|..]; lia.
      + unfold is_digit, in_range in H. apply andb_true_iff in H.
        destruct H as [Hl Hu]. apply N.leb_le in Hl, Hu.
        repeat split; [apply N.ltb_lt|..]; lia.
      + apply bool_decide_eq_true in H. simpl in H.
        repeat (destruct H as [<- | H];
                [repeat split; first [reflexivity | lia]|]).
        destruct H.
    - apply N.eqb_eq in H; subst c. unfold PERCENT.
      repeat split; first [reflexivity | lia]. }
  unfold SLASH. tauto.
Qed.

Section CdnLocation.

Variable toLowerCase : jsstring -> jsstring.
Variable normalizeNFD : jsstring -> jsstring.

#[local] Abbreviation collect_icons :=
  (IconIndex.collect_icons toLowerCase normalizeNFD).

(** X6. The configured base is the value of the setting with nothing but
    its trailing slashes removed, and it does not end with a slash. *)
Theorem cdn_base_has_no_trailing_slash (env : gmap string jsstring) base :
  ICON_CDN_BASE_URL env = Some base ->
  (exists k, env !! "ICON_CDN_BASE_URL"%string
             = Some (base ++ repeat SLASH k))
  /\ forall t, base <> t ++ [SLASH].
Proof.
  unfold ICON_CDN_BASE_URL.
  destruct (env !! "ICON_CDN_BASE_URL"%string) as [v|]; [|discriminate].
  destruct (truthy v); [|discriminate].
  intros H; injection H as <-. split.
  - destruct (drop_trailing_split is_slash v) as (post & Hv & Hp).
    exists (length post). rewrite Hv at 1. do 2 f_equal.
    clear Hv. induction post as [|c post IH]; [reflexivity|].
    simpl in Hp. apply andb_true_iff in Hp. destruct Hp as [Hc Hp].
    apply N.eqb_eq in Hc. subst c. simpl. now rewrite <- IH.
  - intros t E. apply drop_trailing_last in E. discriminate E.
Qed.

(** X7. A [cdnUrl] that is not [null] is the base, a slash, one segment for
    the category, [/SVG/] and one segment for the file: the two segments are
    ASCII and hold no slash, space, [#] or [?]. *)
Theorem cdnUrl_has_two_encoded_segments env entries icons r url :
  collect_icons env entries = Ok icons -> In r icons ->
  code_units (category r) = true -> code_units (file r) = true ->
  cdnUrl r = Some url ->
  exists base c f,
    ICON_CDN_BASE_URL env = Some base
    /\ url = base ++ js "/" ++ c ++ js "/SVG/" ++ f
    /\ encodeURIComponent (category r) = Some c
    /\ encodeURIComponent (file r) = Some f
    /\ (forall u, In u (c ++ f) ->
          u <> SLASH /\ u <> 32 /\ u <> 35 /\ u <> 63 /\ is_ascii u = true).
Proof.
  intros H Hr Hcc Hcf Hu.
  pose proof (collect_icons_built _ _ _ _ _ H) as Hb.
  rewrite List.Forall_forall in Hb. destruct (Hb r Hr) as [md Hmd].
  destruct (icon_of_fields _ _ _ _ _ _ _ Hmd)
    as (_ & _ & _ & _ & _ & _ & _ & _ & _ & _ & _ & Hcdn).
  rewrite Hu in Hcdn. unfold cdnUrl_of in Hcdn.
  destruct (ICON_CDN_BASE_URL env) as [base|]; [|discriminate Hcdn].
  destruct (truthy base); [|discriminate Hcdn].
  destruct (encodeURIComponent (category r)) as [c|] eqn:Ec;
    [|discriminate Hcdn].
  destruct (encodeURIComponent (file r)) as [f|] eqn:Ef; [|discriminate Hcdn].
  exists base, c, f.
  split; [reflexivity|]. split; [congruence|].
  split; [reflexivity|]. split; [reflexivity|].
  intros u Hin. apply segment_unit_not_separator.
  pose proof (encodeURIComponent_units _ _ Hcc Ec) as H1.
  pose proof (encodeURIComponent_units _ _ Hcf Ef) as H2.
  rewrite forallb_forall in H1, H2.
  apply in_app_or in Hin. destruct Hin as [Hin|Hin];
    [now apply H1 | now apply H2].
Qed.

End CdnLocation.

(* ===================================================================== *)
(** * More of the identifiers *)
(* ===================================================================== *)

Lemma strip_svg_suffix (stem ext : jsstring) :
  map ascii_lower ext = js ".svg" -> strip_svg (stem ++ ext) = stem.
Proof.
  intros H. unfold strip_svg.
  assert (length ext = 4%nat) as Hl
    by (rewrite <- (length_map ascii_lower), H; reflexivity).
  rewrite length_app, Hl.
  replace (length stem + 4 - 4)%nat with (length stem) by lia.
  rewrite drop_app_length, take_app_length, H.
  assert ((4 <=? length stem + 4)%nat = true) as -> by (apply Nat.leb_le; lia).
  now rewrite bool_decide_eq_true_2.
Qed.

Lemma collapse_hyphens_pair (a b : jsstring) :
  collapse_hyphens (a ++ HYPHEN :: HYPHEN :: b)
  = collapse_hyphens (a ++ HYPHEN :: b).
Proof.
  induction a as [|c a IH]; [reflexivity|].
  destruct a as [|d a].
  - simpl app. rewrite !collapse_hyphens_cons2.
    change (collapse_hyphens (HYPHEN :: HYPHEN :: b))
      with (collapse_hyphens (HYPHEN :: b)).
    reflexivity.
  - simpl app in *. rewrite !collapse_hyphens_cons2. now rewrite IH.
Qed.

Lemma collapse_hyphens_fixed (s : jsstring) :
  single_hyphens s -> collapse_hyphens s = s.
Proof.
  induction s as [|c t IH]; intros H; [reflexivity|].
  assert (single_hyphens t) as Ht.
  { intros pre post E. apply (H (c :: pre) post). now rewrite E. }
  destruct t as [|d u]; [reflexivity|].
  rewrite collapse_hyphens_cons2, (IH Ht).
  destruct (is_hyphen c && is_hyphen d) eqn:E; [|reflexivity].
  apply andb_true_iff in E. destruct E as [Ec Ed].
  apply is_hyphen_eq in Ec, Ed. subst. now destruct (H [] u).
Qed.

Lemma single_hyphens_join (a b : jsstring) :
  single_hyphens a -> no_trailing_hyphen a ->
  single_hyphens b -> no_leading_hyphen b ->
  single_hyphens (a ++ HYPHEN :: b).
Proof.
  induction a as [|c a IH]; intros Ha Hta Hb Hlb pre post E.
  - destruct pre as [|c' pre]; simpl in E.
    + injection E as E. now destruct (Hlb post).
    + injection E as _ E. now destruct (Hb pre post).
  - destruct pre as [|c' pre]; simpl in E.
    + injection E as -> E. destruct a as [|d a]; simpl in E.
      * now destruct (Hta []).
      * injection E as -> _. now destruct (Ha [] a).
    + injection E as _ E. revert E. apply IH; try assumption.
      * intros p q Eq. apply (Ha (c :: p) q). now rewrite Eq.
      * intros t Et. apply (Hta (c :: t)). now rewrite Et.
Qed.

(** A run of code units outside [a-z0-9] counts as one hyphen, however long
    it is and whatever it holds. *)
Lemma hyphenate_from_skip (x c : jsstring) :
  forallb (fun u => negb (is_az09 u)) x = true ->
  hyphenate_from true (x ++ c) = hyphenate_from true c.
Proof.
  induction x as [|d x IH]; simpl; [trivial|].
  intros H. apply andb_true_iff in H. destruct H as [Hd Hx].
  apply negb_true_iff in Hd. rewrite Hd. now apply IH.
Qed.

Lemma hyphenate_from_run b0 (a x c : jsstring) :
  x <> [] -> forallb (fun u => negb (is_az09 u)) x = true ->
  hyphenate_from b0 (a ++ x ++ c) = hyphenate_from b0 (a ++ HYPHEN :: c).
Proof.
  intros Hne Hx. revert b0. induction a as [|d a IH]; intros b0.
  - destruct x as [|u x]; [now destruct Hne|].
    simpl in Hx |- *. apply andb_true_iff in Hx. destruct Hx as [Hu Hx].
    apply negb_true_iff in Hu. rewrite Hu.
    change (is_az09 HYPHEN) with false. cbv iota.
    now rewrite (hyphenate_from_skip x c Hx).
  - simpl. rewrite !IH. reflexivity.
Qed.

(** ASCII code units that are neither letters nor digits. *)
Definition is_separator (c : N) : bool :=
  is_ascii c && negb (is_az09 (ascii_lower c)).

Lemma separators_plain (x : jsstring) :
  forallb is_separator x = true ->
  all_ascii x = true
  /\ forallb (fun u => negb (is_az09 u))
       (List.filter (fun c => negb (is_combining c)) (ascii_toLowerCase x))
     = true
  /\ (x <> [] ->
      List.filter (fun c => negb (is_combining c)) (ascii_toLowerCase x) <> []).
Proof.
  induction x as [|c x IH]; [repeat split; easy|].
  simpl. intros H. apply andb_true_iff in H. destruct H as [Hc Hx].
  destruct (IH Hx) as (IH1 & IH2 & _).
  unfold is_separator in Hc. apply andb_true_iff in Hc. destruct Hc as [Ha Hn].
  assert (is_combining (ascii_lower c) = false) as Hcomb.
  { pose proof (all_ascii_lower [c]) as Hl. unfold all_ascii in Hl. simpl in Hl.
    rewrite Ha in Hl. specialize (Hl eq_refl).
    rewrite andb_true_r in Hl. unfold is_ascii in Hl. apply N.ltb_lt in Hl.
    unfold is_combining, in_range. apply andb_false_iff; left.
    apply N.leb_gt. lia. }
  unfold all_ascii in *. simpl. rewrite Ha, IH1, Hcomb. simpl.
  rewrite Hn, IH2. repeat split. intros _; discriminate.
Qed.

Section Identifiers.

Variable toLowerCase : jsstring -> jsstring.
Variable normalizeNFD : jsstring -> jsstring.

Hypothesis toLowerCase_ascii :
  forall s, all_ascii s = true -> toLowerCase s = ascii_toLowerCase s.
Hypothesis normalizeNFD_ascii :
  forall s, all_ascii s = true -> normalizeNFD s = ascii_normalizeNFD s.

#[local] Abbreviation slugify := (IconIndex.slugify toLowerCase normalizeNFD).
#[local] Abbreviation icon_of := (IconIndex.icon_of toLowerCase).
#[local] Abbreviation collect_icons :=
  (IconIndex.collect_icons toLowerCase normalizeNFD).

(** X8. Two file names of one category that differ only by a hyphen at the
    start of the stem get the same [id]. *)
Theorem id_ignores_a_leading_hyphen base entryName slug metadata stem ext
    r1 r2 :
  map ascii_lower ext = js ".svg" ->
  icon_of base entryName slug metadata (HYPHEN :: stem ++ ext) = Ok r1 ->
  icon_of base entryName slug metadata (stem ++ ext) = Ok r2 ->
  id r1 = id r2 /\ file r1 <> file r2.
Proof.
  intros He H1 H2.
  destruct (icon_of_fields _ _ _ _ _ _ _ H1)
    as (-> & _ & _ & _ & _ & _ & _ & _ & _ & -> & _).
  destruct (icon_of_fields _ _ _ _ _ _ _ H2)
    as (-> & _ & _ & _ & _ & _ & _ & _ & _ & -> & _).
  split.
  - change (HYPHEN :: stem ++ ext) with ((HYPHEN :: stem) ++ ext).
    rewrite !(strip_svg_suffix _ ext He).
    change (js "-" ++ HYPHEN :: stem) with (HYPHEN :: HYPHEN :: stem).
    change (js "-" ++ stem) with (HYPHEN :: stem).
    apply collapse_hyphens_pair.
  - intros E. apply (f_equal (@length N)) in E. simpl in E. lia.
Qed.

(** X9. ASCII labels that differ only in letter case, or only in which
    separators (ASCII code units that are neither letters nor digits) stand
    between two parts and how many, have the same slug. *)
Theorem slug_ignores_case_and_separators :
  (forall a b,
      all_ascii a = true -> all_ascii b = true ->
      ascii_toLowerCase a = ascii_toLowerCase b -> slugify a = slugify b)
  /\ (forall a x y b,
         all_ascii a = true -> all_ascii b = true ->
         x <> [] -> y <> [] ->
         forallb is_separator x = true -> forallb is_separator y = true ->
         slugify (a ++ x ++ b) = slugify (a ++ y ++ b)).
Proof.
  split.
  - intros a b Ha Hb E.
    rewrite (slugify_ascii _ _ toLowerCase_ascii normalizeNFD_ascii a Ha).
    rewrite (slugify_ascii _ _ toLowerCase_ascii normalizeNFD_ascii b Hb).
    unfold IconIndex.slugify. now rewrite E.
  - assert (forall a x b,
      all_ascii a = true -> all_ascii b = true -> x <> [] ->
      forallb is_separator x = true ->
      slugify (a ++ x ++ b) = slugify (a ++ HYPHEN :: b)) as Hone.
    { intros a x b Ha Hb Hne Hx.
      destruct (separators_plain x Hx) as (Hax & Hrun & Hnil).
      assert (all_ascii (a ++ x ++ b) = true) as H1
        by (unfold all_ascii in *; now rewrite !forallb_app, Ha, Hax, Hb).
      assert (all_ascii (a ++ HYPHEN :: b) = true) as H2
        by (unfold all_ascii in *; rewrite forallb_app, Ha; simpl;
            now rewrite Hb).
      rewrite (slugify_ascii _ _ toLowerCase_ascii normalizeNFD_ascii _ H1).
      rewrite (slugify_ascii _ _ toLowerCase_ascii normalizeNFD_ascii _ H2).
      unfold IconIndex.slugify, ascii_normalizeNFD, hyphenate.
      do 2 f_equal. unfold ascii_toLowerCase in *.
      rewrite !map_app, !List.filter_app.
      rewrite (hyphenate_from_run false _ _ _ (Hnil Hne) Hrun).
      reflexivity. }
    intros a x y b Ha Hb Hx Hy Hsx Hsy.
    now rewrite (Hone a x b), (Hone a y b).
Qed.

(** X10. When the stem of the file has no two adjacent hyphens and does not
    start with a hyphen, the [id] is exactly the slug, a hyphen and the stem:
    the collapse changes nothing. *)
Theorem id_is_slug_hyphen_stem env entries icons r :
  collect_icons env entries = Ok icons -> In r icons ->
  single_hyphens (strip_svg (file r)) ->
  no_leading_hyphen (strip_svg (file r)) ->
  id r = categorySlug r ++ js "-" ++ strip_svg (file r).
Proof.
  intros H Hr Hs Hl.
  pose proof (collect_icons_built _ _ _ _ _ H) as Hb.
  rewrite List.Forall_forall in Hb. destruct (Hb r Hr) as [md Hmd].
  destruct (icon_of_fields _ _ _ _ _ _ _ Hmd) as (-> & _ & -> & _).
  apply collapse_hyphens_fixed.
  change (js "-" ++ strip_svg (file r)) with (HYPHEN :: strip_svg (file r)).
  apply single_hyphens_join; try assumption.
  - apply slugify_single_hyphens.
  - apply slugify_no_trailing_hyphen.
Qed.

End Identifiers.

(* ===================================================================== *)
(** * More of the uploader: configuration and object keys *)
(* ===================================================================== *)

Lemma all_slashes (l : jsstring) :
  forallb is_slash l = true -> l = repeat SLASH (length l).
Proof.
  induction l as [|c l IH]; [reflexivity|]. simpl.
  intros H. apply andb_true_iff in H. destruct H as [Hc Hl].
  apply N.eqb_eq in Hc. subst c. now rewrite <- IH.
Qed.

(** [trim_slashes] removes slashes at the two ends and nothing else. *)
Lemma trim_slashes_spec (v : jsstring) :
  (exists i j, v = repeat SLASH i ++ trim_slashes v ++ repeat SLASH j)
  /\ (forall t, trim_slashes v <> SLASH :: t)
  /\ (forall t, trim_slashes v <> t ++ [SLASH]).
Proof.
  unfold trim_slashes.
  destruct (drop_leading_split is_slash v) as (pre & Hv & Hpre).
  destruct (drop_trailing_split is_slash (drop_leading is_slash v))
    as (post & Hd & Hpost).
  split; [|split].
  - exists (length pre), (length post).
    rewrite <- (all_slashes pre Hpre), <- (all_slashes post Hpost).
    now rewrite <- Hd.
  - intros t E. rewrite E in Hd. simpl in Hd.
    apply drop_while_head in Hd. discriminate Hd.
  - intros t E. apply drop_trailing_last in E. discriminate E.
Qed.

Lemma getConfig_prefix env config :
  getConfig env = Ok config ->
  prefix config = option_map trim_slashes (env !! "R2_PREFIX"%string).
Proof.
  unfold getConfig.
  destruct (0 <? length _)%nat; [discriminate|].
  intros H; injection H as <-. reflexivity.
Qed.

(** X11. The optional key prefix of the configuration is the value of
    [R2_PREFIX] with the slashes at its two ends removed, and nothing else:
    it neither starts nor ends with a slash; without the variable there is
    no prefix. *)
Theorem prefix_is_trimmed (env : gmap string jsstring) config :
  getConfig env = Ok config ->
  match env !! "R2_PREFIX"%string with
  | None => prefix config = None
  | Some v =>
      exists p i j,
        prefix config = Some p
        /\ v = repeat SLASH i ++ p ++ repeat SLASH j
        /\ (forall t, p <> SLASH :: t)
        /\ (forall t, p <> t ++ [SLASH])
  end.
Proof.
  intros H. rewrite (getConfig_prefix env config H).
  destruct (env !! "R2_PREFIX"%string) as [v|]; [|reflexivity].
  destruct (trim_slashes_spec v) as ((i & j & Hv) & Hl & Ht).
  exists (trim_slashes v), i, j. repeat split; assumption.
Qed.

Lemma to_slashes_no_backslash (s : jsstring) : ~ In BACKSLASH (to_slashes s).
Proof.
  unfold to_slashes. intros H. apply in_map_iff in H.
  destruct H as (c & Hc & _).
  destruct (N.eqb_spec c BACKSLASH) as [E|E]; [discriminate Hc | now apply E].
Qed.

Lemma to_slashes_plain (s : jsstring) :
  ~ In BACKSLASH s -> to_slashes s = s.
Proof.
  unfold to_slashes. induction s as [|c s IH]; [reflexivity|].
  intros H. simpl. rewrite IH by (intros Hin; apply H; now right).
  destruct (N.eqb_spec c BACKSLASH) as [E|E]; [|reflexivity].
  destruct H. now left.
Qed.

(** X12. The object key of a file is its relative path with every backslash
    turned into a slash, after the prefix and a slash when the configuration
    has a prefix that is not empty; a path without backslashes is kept as it
    is, and no key holds a backslash. *)
Theorem object_key_mirrors_path config (relativePath : jsstring) :
  relativePath <> [] ->
  ~ In BACKSLASH (object_key config relativePath)
  /\ (prefix config = None \/ prefix config = Some [] ->
      object_key config relativePath = to_slashes relativePath)
  /\ (forall p, prefix config = Some p -> p <> [] ->
        object_key config relativePath
        = to_slashes p ++ js "/" ++ to_slashes relativePath)
  /\ (~ In BACKSLASH relativePath ->
      prefix config = None \/ prefix config = Some [] ->
      object_key config relativePath = relativePath).
Proof.
  intros Hne. unfold object_key.
  destruct relativePath as [|c path]; [now destruct Hne|].
  destruct (prefix config) as [[|d p]|]; simpl List.filter; cbn [map join].
  - split; [apply to_slashes_no_backslash|].
    split; [reflexivity|]. split.
    + intros q Hq Hq'. injection Hq as <-. now destruct Hq'.
    + intros Hb _. now apply to_slashes_plain.
  - split; [|split; [|split]].
    + intros H. apply in_app_or in H. destruct H as [H|H];
        [now apply to_slashes_no_backslash in H|].
      apply in_app_or in H. destruct H as [H|H];
        [simpl in H; destruct H as [H|[]]; discriminate H
        |now apply to_slashes_no_backslash in H].
    + intros [H|H]; discriminate H.
    + intros q Hq _. now injection Hq as <-.
    + intros _ [H|H]; discriminate H.
  - split; [apply to_slashes_no_backslash|].
    split; [reflexivity|]. split.
    + intros q Hq. discriminate Hq.
    + intros Hb _. now apply to_slashes_plain.
Qed.

(* ===================================================================== *)
(** * More of the uploader: retries *)
(* ===================================================================== *)

(** The sends of a file up to the [k]-th, with the waits between them. *)
Definition attempts (key : jsstring) (first count : nat) : list Event :=
  flat_map (fun a => [Send key a; Sleep (backoff a)]) (seq first count).

(** The number of sends and the total of the waits in a log. *)
Definition sends (log : list Event) : nat :=
  length (List.filter (fun e => match e with Send _ _ => true | _ => false end)
            log).

Definition waited (log : list Event) : N :=
  fold_right (fun e t => match e with Sleep ms => ms + t | _ => t end) 0 log.

Section Retries.

Variable w : World.
Variable config : UploadConfig.

Lemma send_loop_success key p retries :
  forall fuel attempt k,
    (attempt <= k)%nat -> (k <= retries)%nat -> (k < attempt + fuel)%nat ->
    (forall a, (attempt <= a < k)%nat -> send_ok w key a = false) ->
    send_ok w key k = true ->
    send_loop w key p retries fuel attempt
    = (attempts key attempt (k - attempt) ++ [Send key k], true).
Proof.
  induction fuel as [|fuel IH]; intros attempt k H1 H2 H3 Hf Hk; [lia|].
  cbn [send_loop].
  assert ((attempt <=? retries)%nat = true) as -> by (apply Nat.leb_le; lia).
  destruct (Nat.eq_dec attempt k) as [->|Hne].
  - rewrite Hk, Nat.sub_diag. reflexivity.
  - rewrite (Hf attempt ltac:(lia)).
    assert ((attempt =? retries)%nat = false) as ->
      by (apply Nat.eqb_neq; lia).
    rewrite (IH (S attempt) k) by (try lia; try assumption;
                                   intros a Ha; apply Hf; lia).
    replace (k - attempt)%nat with (S (k - S attempt)) by lia.
    reflexivity.
Qed.

Lemma send_loop_failure key p retries :
  forall fuel attempt,
    (attempt + fuel = retries + 1)%nat -> (0 < fuel)%nat ->
    (forall a, (attempt <= a <= retries)%nat -> send_ok w key a = false) ->
    send_loop w key p retries fuel attempt
    = (attempts key attempt (retries - attempt)
       ++ [Send key retries; Failed p], false).
Proof.
  induction fuel as [|fuel IH]; intros attempt H1 H2 Hf; [lia|].
  cbn [send_loop].
  assert ((attempt <=? retries)%nat = true) as -> by (apply Nat.leb_le; lia).
  rewrite (Hf attempt ltac:(lia)).
  destruct (Nat.eqb_spec attempt retries) as [->|Hne].
  - rewrite Nat.sub_diag. reflexivity.
  - rewrite (IH (S attempt)) by (try lia; intros a Ha; apply Hf; lia).
    replace (retries - attempt)%nat with (S (retries - S attempt)) by lia.
    reflexivity.
Qed.

(** X13. A file that can be read is sent until a send succeeds, five times
    at most, waiting 1, 2, 4 and 8 seconds between the sends: when the
    [k]-th send is the first to succeed, the log is the read, the [k] sends
    and the waits between them, and the result is [true]; when all five
    fail, the failure is logged after the fifth send, with no wait after it,
    and the result is [false]. *)
Theorem uploadFile_retry_schedule relativePath buffer :
  file_content w relativePath = Some buffer ->
  (forall k,
      (1 <= k <= 5)%nat ->
      (forall a, (1 <= a < k)%nat ->
                 send_ok w (object_key config relativePath) a = false) ->
      send_ok w (object_key config relativePath) k = true ->
      uploadFile w config relativePath 5
      = (Read relativePath
           :: attempts (object_key config relativePath) 1 (k - 1)
           ++ [Send (object_key config relativePath) k],
         Ok true))
  /\ ((forall a, (1 <= a <= 5)%nat ->
                 send_ok w (object_key config relativePath) a = false) ->
      uploadFile w config relativePath 5
      = (Read relativePath
           :: attempts (object_key config relativePath) 1 4
           ++ [Send (object_key config relativePath) 5; Failed relativePath],
         Ok false))
  /\ map backoff (seq 1 4) = [1000; 2000; 4000; 8000].
Proof.
  intros Hread. unfold uploadFile. rewrite Hread.
  split; [|split; [|reflexivity]].
  - intros k Hk Hf Hs.
    now rewrite (send_loop_success _ relativePath 5 5 1 k
                   ltac:(lia) ltac:(lia) ltac:(lia) Hf Hs).
  - intros Hf.
    now rewrite (send_loop_failure _ relativePath 5 5 1 eq_refl
                   ltac:(lia) Hf).
Qed.

(** X14. Whatever the sends do, a file is read once, sent at least once and
    at most five times, and the waits between its sends add up to 15 seconds
    at most; a file that cannot be read is not sent at all. *)
Theorem uploadFile_is_bounded relativePath :
  match file_content w relativePath with
  | Some _ =>
      (1 <= sends (fst (uploadFile w config relativePath 5)) <= 5)%nat
      /\ waited (fst (uploadFile w config relativePath 5)) <= 15000
      /\ exists r, snd (uploadFile w config relativePath 5) = Ok r
  | None =>
      uploadFile w config relativePath 5
      = ([Read relativePath], Throw (ReadFileError relativePath))
  end.
Proof.
  unfold uploadFile.
  destruct (file_content w relativePath) as [buffer|]; [|reflexivity].
  cbn [send_loop Nat.leb Nat.eqb].
  destruct (send_ok w (object_key config relativePath) 1);
    [|destruct (send_ok w (object_key config relativePath) 2);
      [|destruct (send_ok w (object_key config relativePath) 3);
        [|destruct (send_ok w (object_key config relativePath) 4);
          [|destruct (send_ok w (object_key config relativePath) 5)]]]];
    (split; [split; vm_compute; lia|];
     split; [vm_compute; intros H; discriminate H | eexists; reflexivity]).
Qed.

End Retries.

(* ===================================================================== *)
(** * More of the uploader: batches and the run *)
(* ===================================================================== *)

(** The files that an event of the log is about: the file read or reported
    as failed, the file whose object key is sent. *)
Definition concerns (config : UploadConfig) (files : list jsstring)
    (ev : Event) : Prop :=
  match ev with
  | Read p | Failed p => In p files
  | Send key _ => exists p, In p files /\ key = object_key config p
  | Sleep _ => True
  end.

Section BatchOutcome.

Variable w : World.
Variable config : UploadConfig.

Lemma uploadFile_fulfilled f r :
  snd (uploadFile w config f 5) = Ok r -> file_content w f <> None.
Proof.
  unfold uploadFile. destruct (file_content w f); [discriminate|].
  simpl. discriminate.
Qed.

Lemma promise_all_fulfilled files results :
  promise_all (map snd (map (fun f => uploadFile w config f 5) files))
  = Ok results ->
  readable w files.
Proof.
  revert results; induction files as [|f files IH]; intros results H g Hg;
    [destruct Hg|].
  cbn [map promise_all] in H.
  destruct (snd (uploadFile w config f 5)) as [r|e] eqn:Ef;
    [|discriminate H].
  cbn [bind] in H.
  destruct (promise_all _) as [l|e] eqn:El; [|discriminate H].
  destruct Hg as [<-|Hg]; [now apply (uploadFile_fulfilled f r)|].
  now apply (IH l).
Qed.

Lemma send_loop_log_no_read key p retries g :
  forall fuel attempt,
    ~ In (Read g) (fst (send_loop w key p retries fuel attempt)).
Proof.
  induction fuel as [|fuel IH]; intros attempt; [intros []|].
  cbn [send_loop].
  destruct (attempt <=? retries)%nat; [|intros []].
  destruct (send_ok w key attempt); [intros [H|[]]; discriminate H|].
  destruct (attempt =? retries)%nat;
    [intros [H|[H|[]]]; discriminate H|].
  specialize (IH (S attempt)).
  destruct (send_loop w key p retries fuel (S attempt)) as [log r].
  intros [H|[H|H]]; [discriminate H | discriminate H | now apply IH].
Qed.

Lemma uploadFile_reads_only_itself f g :
  In (Read g) (fst (uploadFile w config f 5)) -> g = f.
Proof.
  unfold uploadFile. destruct (file_content w f) as [buffer|].
  - pose proof (send_loop_log_no_read (object_key config f) f 5 g 5 1) as Hn.
    destruct (send_loop w (object_key config f) f 5 5 1) as [log r].
    intros [H|H]; [now injection H | now destruct Hn].
  - intros [H|[]]. now injection H.
Qed.

Lemma uploadBatch_rejected files e :
  promise_all (map snd (map (fun f => uploadFile w config f 5) files))
  = Throw e ->
  uploadBatch w config files = (map Read files, Throw e).
Proof. intros H. unfold uploadBatch. now rewrite H. Qed.

Lemma uploadBatch_result files :
  snd (uploadBatch w config files)
  = (await results <-
       promise_all (map snd (map (fun f => uploadFile w config f 5) files));
     Ok (length (List.filter (fun r : bool => r) results),
         (length results
          - length (List.filter (fun r : bool => r) results))%nat)).
Proof.
  unfold uploadBatch. destruct (promise_all _); reflexivity.
Qed.

Lemma uploadBatch_needs_readable files c :
  snd (uploadBatch w config files) = Ok c ->
  forall f, In f files -> file_content w f = None -> False.
Proof.
  intros Hc f Hf Hnone. rewrite uploadBatch_result in Hc.
  destruct (promise_all _) as [results|e] eqn:E; [|discriminate Hc].
  exact (promise_all_fulfilled files results E f Hf Hnone).
Qed.

(** X15. A batch completes exactly when every file of it can be read, and
    then [success] counts the files one of whose sends succeeded, and
    [success] and [failed] add up to the number of files. *)
Theorem uploadBatch_counts_every_file files :
  (readable w files <-> exists c, snd (uploadBatch w config files) = Ok c)
  /\ forall success failed,
       snd (uploadBatch w config files) = Ok (success, failed) ->
       success = length (List.filter (uploaded w config) files)
       /\ (success + failed = length files)%nat.
Proof.
  split; [split|].
  - intros H. destruct (uploadBatch_readable w config files H) as [-> _].
    eexists; reflexivity.
  - intros [c Hc]. rewrite uploadBatch_result in Hc.
    destruct (promise_all _) as [results|e] eqn:E; [|discriminate Hc].
    now apply (promise_all_fulfilled files results).
  - intros s f H.
    assert (readable w files) as Hr.
    { rewrite uploadBatch_result in H.
      destruct (promise_all _) as [results|e] eqn:E; [|discriminate H].
      now apply (promise_all_fulfilled files results). }
    destruct (uploadBatch_readable w config files Hr) as [Hs _].
    rewrite Hs in H. injection H as <- <-.
    pose proof (List.filter_length_le (uploaded w config) files).
    split; [reflexivity | lia].
Qed.

Lemma upload_batches_app pre post :
  forall ts tf,
    upload_batches w config (pre ++ post) ts tf
    = match upload_batches w config pre ts tf with
      | (log, Throw e) => (log, Throw e)
      | (log, Ok (s, f)) =>
          let '(log', r) := upload_batches w config post s f in
          (log ++ log', r)
      end.
Proof.
  induction pre as [|b pre IH]; intros ts tf.
  - cbn [app upload_batches].
    destruct (upload_batches w config post ts tf) as [log r]. reflexivity.
  - cbn [app upload_batches].
    destruct (uploadBatch w config b) as [log [[s f]|e]]; [|reflexivity].
    rewrite IH.
    destruct (upload_batches w config pre (ts + s) (tf + f))
      as [log1 [[s1 f1]|e1]]; [|reflexivity].
    destruct (upload_batches w config post s1 f1) as [log2 r2].
    now rewrite app_assoc.
Qed.

Lemma concerns_incl files files' ev :
  (forall p, In p files -> In p files') ->
  concerns config files ev -> concerns config files' ev.
Proof.
  intros Hi. destruct ev as [p|key a|ms|p]; cbn [concerns]; auto.
  intros (p & Hp & ->). exists p. auto.
Qed.

Lemma send_loop_concerns p retries :
  forall fuel attempt,
    Forall (concerns config [p])
      (fst (send_loop w (object_key config p) p retries fuel attempt)).
Proof.
  assert (concerns config [p] (Failed p)) as HF by (left; reflexivity).
  assert (forall a, concerns config [p] (Send (object_key config p) a)) as HS
    by (intros a; exists p; split; [left|]; reflexivity).
  induction fuel as [|fuel IH]; intros attempt; [constructor|].
  cbn [send_loop].
  destruct (attempt <=? retries)%nat; [|constructor].
  destruct (send_ok w (object_key config p) attempt);
    [constructor; [apply HS | constructor]|].
  destruct (attempt =? retries)%nat;
    [constructor; [apply HS | constructor; [exact HF | constructor]]|].
  specialize (IH (S attempt)).
  destruct (send_loop w (object_key config p) p retries fuel (S attempt))
    as [log r].
  cbn [fst] in *.
  constructor; [apply HS | constructor; [exact I | exact IH]].
Qed.

Lemma uploadFile_concerns p :
  Forall (concerns config [p]) (fst (uploadFile w config p 5)).
Proof.
  unfold uploadFile. destruct (file_content w p) as [buffer|].
  - pose proof (send_loop_concerns p 5 5 1) as H.
    destruct (send_loop w (object_key config p) p 5 5 1) as [log r].
    cbn [fst] in *. constructor; [left; reflexivity | exact H].
  - constructor; [left; reflexivity | constructor].
Qed.

Lemma uploads_concern files :
  Forall (concerns config files)
    (concat (map fst (map (fun f => uploadFile w config f 5) files))).
Proof.
  induction files as [|f files IH]; [constructor|].
  cbn [map concat]. apply Forall_app. split.
  - eapply List.Forall_impl; [|apply uploadFile_concerns].
    intros ev. apply concerns_incl. intros p [<-|[]]. now left.
  - eapply List.Forall_impl; [|exact IH].
    intros ev. apply concerns_incl. intros p Hp. now right.
Qed.

Lemma upload_batches_concerns batches :
  forall ts tf,
    readable w (concat batches) ->
    Forall (concerns config (concat batches))
      (fst (upload_batches w config batches ts tf)).
Proof.
  induction batches as [|b rest IH]; intros ts tf H; [constructor|].
  cbn [upload_batches concat] in *.
  assert (readable w b) as Hb by (intros f Hf; apply H, in_or_app; now left).
  assert (readable w (concat rest)) as Hrest
    by (intros f Hf; apply H, in_or_app; now right).
  rewrite (uploadBatch_fulfilled w config b Hb).
  specialize (IH (ts + length (List.filter (uploaded w config) b))%nat
                 (tf + (length b
                        - length (List.filter (uploaded w config) b)))%nat
                 Hrest).
  destruct (upload_batches w config rest _ _) as [log' r']. cbn [fst] in *.
  apply Forall_app. split.
  - eapply List.Forall_impl; [|apply uploads_concern].
    intros ev. apply concerns_incl. intros p Hp. apply in_or_app. now left.
  - eapply List.Forall_impl; [|exact IH].
    intros ev. apply concerns_incl. intros p Hp. apply in_or_app. now right.
Qed.

(** X16. A file that cannot be read ends the run in its batch: the run
    throws, its log is the log of the batches before followed by the reads
    of that batch, whose files are all read and none of which gets sent
    before the process ends; every read, send and failure of the log is of a
    file of the batches before or, for a read, of that batch, so that no
    file of a later batch is read or sent. *)
Theorem read_failure_ends_the_run pre batch post f totalSuccess totalFailed :
  readable w (concat pre) -> In f batch -> file_content w f = None ->
  (exists e,
      snd (upload_batches w config (pre ++ batch :: post)
             totalSuccess totalFailed) = Throw e)
  /\ fst (upload_batches w config (pre ++ batch :: post)
            totalSuccess totalFailed)
     = fst (upload_batches w config pre totalSuccess totalFailed)
       ++ map Read batch
  /\ Forall (concerns config (concat pre))
       (fst (upload_batches w config pre totalSuccess totalFailed))
  /\ (forall g,
        In g (concat pre ++ batch) ->
        In (Read g)
          (fst (upload_batches w config (pre ++ batch :: post)
                  totalSuccess totalFailed)))
  /\ (forall g,
        ~ In g (concat pre ++ batch) ->
        ~ In (Read g)
            (fst (upload_batches w config (pre ++ batch :: post)
                    totalSuccess totalFailed)))
  /\ (forall key attempt,
        In (Send key attempt)
          (fst (upload_batches w config (pre ++ batch :: post)
                  totalSuccess totalFailed)) ->
        exists p, In p (concat pre) /\ key = object_key config p).
Proof.
  intros Hpre Hf Hnone.
  assert (exists e, uploadBatch w config batch = (map Read batch, Throw e))
    as [e He].
  { destruct (promise_all
                (map snd (map (fun f => uploadFile w config f 5) batch)))
      as [results|e] eqn:E.
    - destruct (promise_all_fulfilled batch results E f Hf Hnone).
    - exists e. now apply uploadBatch_rejected. }
  pose proof (upload_batches_concerns pre totalSuccess totalFailed Hpre)
    as Hconcerns.
  assert (upload_batches w config (pre ++ batch :: post)
            totalSuccess totalFailed
          = (fst (upload_batches w config pre totalSuccess totalFailed)
             ++ map Read batch, Throw e)) as Hrun.
  { rewrite upload_batches_app.
    destruct (upload_batches_readable w config pre totalSuccess totalFailed
                Hpre) as [Hs _].
    destruct (upload_batches w config pre totalSuccess totalFailed)
      as [log1 r1]. cbn [fst snd] in *. subst r1.
    cbn [upload_batches]. now rewrite He. }
  rewrite Hrun. cbn [fst snd].
  split; [exists e; reflexivity|]. split; [reflexivity|].
  split; [exact Hconcerns|].
  rewrite List.Forall_forall in Hconcerns.
  split; [|split].
  - intros g Hg. apply in_or_app. apply in_app_or in Hg.
    destruct Hg as [Hg|Hg]; [left | right; now apply in_map].
    now apply (upload_batches_readable w config pre totalSuccess totalFailed
                 Hpre).
  - intros g Hg Hin. apply Hg. apply in_or_app. apply in_app_or in Hin.
    destruct Hin as [Hin|Hin].
    + left. exact (Hconcerns _ Hin).
    + right. apply in_map_iff in Hin. destruct Hin as (p & Hp & Hin).
      now injection Hp as <-.
  - intros key attempt Hin. apply in_app_or in Hin.
    destruct Hin as [Hin|Hin]; [exact (Hconcerns _ Hin)|].
    apply in_map_iff in Hin. destruct Hin as (p & Hp & _). discriminate Hp.
Qed.

End BatchOutcome.

Lemma batches_from_nth (files : list jsstring) :
  forall fuel i k,
    (length files - i <= fuel)%nat ->
    nth_error (batches_from fuel i files) k
    = if (i + BATCH_SIZE * k <? length files)%nat
      then Some (slice (i + BATCH_SIZE * k) (i + BATCH_SIZE * k + BATCH_SIZE)
                   files)
      else None.
Proof.
  induction fuel as [|fuel IH]; intros i k H.
  - assert ((i + BATCH_SIZE * k <? length files)%nat = false) as ->
      by (apply Nat.ltb_ge; lia).
    destruct k; reflexivity.
  - cbn [batches_from].
    destruct (Nat.ltb_spec i (length files)) as [Hi|Hi].
    + destruct k as [|k].
      * cbn [nth_error]. rewrite Nat.mul_0_r, Nat.add_0_r.
        destruct (Nat.ltb_spec i (length files)); [reflexivity | lia].
      * cbn [nth_error]. rewrite IH by (unfold BATCH_SIZE; lia).
        replace (i + BATCH_SIZE + BATCH_SIZE * k)%nat
          with (i + BATCH_SIZE * S k)%nat by lia.
        reflexivity.
    + assert ((i + BATCH_SIZE * k <? length files)%nat = false) as ->
        by (apply Nat.ltb_ge; lia).
      destruct k; reflexivity.
Qed.

Lemma batches_from_length (files : list jsstring) :
  forall fuel i,
    (length files - i <= fuel)%nat ->
    length (batches_from fuel i files)
    = ((length files - i + (BATCH_SIZE - 1)) / BATCH_SIZE)%nat.
Proof.
  unfold BATCH_SIZE.
  induction fuel as [|fuel IH]; intros i H.
  - simpl. replace (length files - i)%nat with 0%nat by lia. reflexivity.
  - cbn [batches_from].
    destruct (Nat.ltb_spec i (length files)) as [Hi|Hi].
    + cbn [length]. unfold BATCH_SIZE. rewrite IH by lia.
      destruct (Nat.le_gt_cases 50 (length files - i)) as [Hge|Hlt].
      * replace (length files - i + (50 - 1))%nat
          with (length files - (i + 50) + (50 - 1) + 1 * 50)%nat by lia.
        rewrite Nat.div_add by lia. lia.
      * replace (length files - (i + 50))%nat with 0%nat by lia.
        rewrite (Nat.div_small (0 + (50 - 1)) 50) by lia.
        apply (Nat.div_unique _ 50 1 (length files - i - 1)); lia.
    + simpl. replace (length files - i)%nat with 0%nat by lia. reflexivity.
Qed.

(** X17. The batches are the file list cut every 50 files: the [k]-th
    batch is [files.slice(50k, 50k + 50)], there are [ceil(n / 50)] of them,
    none is empty, none has more than 50 files, and together they are the
    file list in its order; an empty list gives no batch. *)
Theorem split_batches_cuts_every_50 (files : list jsstring) :
  (forall k,
      nth_error (split_batches files) k
      = if (50 * k <? length files)%nat
        then Some (slice (50 * k) (50 * k + 50) files)
        else None)
  /\ length (split_batches files) = ((length files + 49) / 50)%nat
  /\ Forall (fun batch => (1 <= length batch <= 50)%nat) (split_batches files)
  /\ concat (split_batches files) = files.
Proof.
  assert (forall k,
      nth_error (split_batches files) k
      = if (50 * k <? length files)%nat
        then Some (slice (50 * k) (50 * k + 50) files)
        else None) as Hnth.
  { intros k. unfold split_batches.
    rewrite (batches_from_nth files (length files) 0 k) by lia.
    reflexivity. }
  split; [exact Hnth|]. split; [|split; [|apply split_batches_concat]].
  - unfold split_batches.
    rewrite (batches_from_length files (length files) 0) by lia.
    unfold BATCH_SIZE. now rewrite Nat.sub_0_r.
  - apply List.Forall_forall. intros batch Hb.
    apply In_nth_error in Hb. destruct Hb as [k Hk].
    rewrite Hnth in Hk.
    destruct (Nat.ltb_spec (50 * k) (length files)) as [Hlt|];
      [|discriminate Hk].
    injection Hk as <-. unfold slice.
    rewrite length_firstn, length_skipn. lia.
Qed.

(** X18. With a complete configuration and files that can all be read,
    [main] completes a run over a list that is not empty with the totals of
    the batches: the files one of whose sends succeeded, and the others;
    the two add up to the number of files.  With no file at all it returns
    at once and nothing is read or sent. *)
Theorem main_totals env w config files :
  getConfig env = Ok config ->
  readable w files ->
  (files = [] -> main env w (Ok files) = ([], Ok None))
  /\ (files <> [] ->
      exists failed,
        snd (main env w (Ok files))
        = Ok (Some (length (List.filter (uploaded w config) files), failed))
        /\ (length (List.filter (uploaded w config) files) + failed
            = length files)%nat
        /\ forall f, In f files -> In (Read f) (fst (main env w (Ok files)))).
Proof.
  intros Hc Hr. unfold main. rewrite Hc. split.
  - intros ->. reflexivity.
  - intros Hne.
    assert ((length files =? 0)%nat = false) as ->
      by (apply Nat.eqb_neq; destruct files; [now destruct Hne | discriminate]).
    pose proof (upload_batches_readable w config (split_batches files) 0 0)
      as Hu.
    rewrite split_batches_concat in Hu. destruct (Hu Hr) as [Hs Hl].
    destruct (upload_batches w config (split_batches files) 0 0) as [log r].
    cbn [fst snd] in *. subst r. cbn [fst snd].
    eexists. split; [reflexivity|].
    pose proof (List.filter_length_le (uploaded w config) files).
    split; [lia|]. intros f Hf. now destruct (Hl f Hf).
Qed.

(* ===================================================================== *)
(** * Sample runs of the two scripts *)
(* ===================================================================== *)

Definition misc_entry : Dirent :=
  DirEntry (js "Misc") MetadataMissing
    (SvgDirectory (Ok [js "a_16_bold.svg"; js "notes.txt"; js "b-c.SVG"])).

Definition sample_entries : list Dirent :=
  [FileEntry (js "README.md"); access_time_entry;
   DirEntry (js "Empty") MetadataMissing SvgMissing; misc_entry].

Definition locked_entry : Dirent :=
  DirEntry (js "Locked") MetadataMissing
    (SvgDirectory (Throw (FsException EACCES))).

Definition sample_icons : list IconRecord :=
  match
    IconIndex.collect_icons ascii_toLowerCase ascii_normalizeNFD cdn_env
      sample_entries
  with
  | Ok icons => icons
  | Throw _ => []
  end.

Lemma collect_icons_sample :
  IconIndex.collect_icons ascii_toLowerCase ascii_normalizeNFD cdn_env
    sample_entries
  = Ok sample_icons.
Proof. vm_compute; reflexivity. Qed.

Lemma sample_icons_first :
  In (access_time_record (Some access_time_url)) sample_icons.
Proof. left; vm_compute; reflexivity. Qed.

Lemma sample_icons_length : length sample_icons = 3%nat.
Proof. vm_compute; reflexivity. Qed.

Lemma catalogue_follows_enumeration_order_witness :
  map (record_key) sample_icons
  = flat_map (listed_files ascii_toLowerCase) sample_entries
  /\ length sample_icons
     = length (flat_map (listed_files ascii_toLowerCase) sample_entries).
Proof.
  exact (catalogue_follows_enumeration_order ascii_toLowerCase
           ascii_normalizeNFD cdn_env sample_entries sample_icons
           collect_icons_sample).
Defined.

Lemma record_fields_from_own_category_witness :
  exists metadataFile svgFiles,
    In (DirEntry (category (access_time_record (Some access_time_url)))
          metadataFile (SvgDirectory (Ok svgFiles))) sample_entries
    /\ In (file (access_time_record (Some access_time_url))) svgFiles
    /\ has_svg_suffix ascii_toLowerCase
         (file (access_time_record (Some access_time_url))) = true
    /\ name (access_time_record (Some access_time_url))
       = default (category (access_time_record (Some access_time_url)))
           (md_name (default empty_metadata (readJsonFile metadataFile)))
    /\ tags (access_time_record (Some access_time_url))
       = default []
           (md_metaphor (default empty_metadata (readJsonFile metadataFile)))
    /\ description (access_time_record (Some access_time_url))
       = md_description (default empty_metadata (readJsonFile metadataFile))
    /\ keyword (access_time_record (Some access_time_url))
       = md_keyword (default empty_metadata (readJsonFile metadataFile))
    /\ relativePath (access_time_record (Some access_time_url))
       = js "assets/" ++ category (access_time_record (Some access_time_url))
         ++ js "/SVG/" ++ file (access_time_record (Some access_time_url)).
Proof.
  exact (record_fields_from_own_category ascii_toLowerCase ascii_normalizeNFD
           cdn_env sample_entries sample_icons
           (access_time_record (Some access_time_url))
           collect_icons_sample sample_icons_first).
Defined.

Lemma unlistable_svg_directory_aborts_witness :
  IconIndex.collect_icons ascii_toLowerCase ascii_normalizeNFD cdn_env
    (sample_entries ++ locked_entry :: [misc_entry])
  = Throw (FsException EACCES)
  /\ IconIndex.generateManifest ascii_toLowerCase ascii_normalizeNFD
       sample_stringify cdn_env
       (Ok (sample_entries ++ locked_entry :: [misc_entry]))
       (js "2025-12-13T03:31:34.284Z")
     = Throw (FsException EACCES).
Proof.
  exact (unlistable_svg_directory_aborts ascii_toLowerCase ascii_normalizeNFD
           sample_stringify cdn_env sample_entries [misc_entry] (js "Locked")
           MetadataMissing (FsException EACCES) sample_icons
           (js "2025-12-13T03:31:34.284Z") collect_icons_sample).
Defined.

Lemma catalogue_is_built_witness :
  exists icons,
    IconIndex.collect_icons ascii_toLowerCase ascii_normalizeNFD cdn_env
      sample_entries = Ok icons
    /\ IconIndex.generateManifest ascii_toLowerCase ascii_normalizeNFD
         sample_stringify cdn_env (Ok sample_entries)
         (js "2025-12-13T03:31:34.284Z")
       = Ok (sample_stringify
               {| generatedAt := js "2025-12-13T03:31:34.284Z";
                  count := length icons; icons := icons |}).
Proof.
  apply (catalogue_is_built ascii_toLowerCase ascii_normalizeNFD
           sample_stringify cdn_env sample_entries
           (js "2025-12-13T03:31:34.284Z")).
  - reflexivity.
  - right; reflexivity.
Defined.

Lemma cdn_base_has_no_trailing_slash_witness :
  (exists k, cdn_env !! "ICON_CDN_BASE_URL"%string
             = Some (js "https://cdn.example.com/icons" ++ repeat SLASH k))
  /\ forall t, js "https://cdn.example.com/icons" <> t ++ [SLASH].
Proof.
  apply (cdn_base_has_no_trailing_slash cdn_env
           (js "https://cdn.example.com/icons")).
  vm_compute; reflexivity.
Defined.

Lemma cdnUrl_has_two_encoded_segments_witness :
  exists base c f,
    ICON_CDN_BASE_URL cdn_env = Some base
    /\ access_time_url = base ++ js "/" ++ c ++ js "/SVG/" ++ f
    /\ encodeURIComponent (category (access_time_record (Some access_time_url)))
       = Some c
    /\ encodeURIComponent (file (access_time_record (Some access_time_url)))
       = Some f
    /\ (forall u, In u (c ++ f) ->
          u <> SLASH /\ u <> 32 /\ u <> 35 /\ u <> 63 /\ is_ascii u = true).
Proof.
  apply (cdnUrl_has_two_encoded_segments ascii_toLowerCase ascii_normalizeNFD
           cdn_env sample_entries sample_icons
           (access_time_record (Some access_time_url)) access_time_url
           collect_icons_sample sample_icons_first);
    reflexivity.
Defined.

Lemma id_ignores_a_leading_hyphen_witness :
  exists r1,
    IconIndex.icon_of ascii_toLowerCase None (js "Access Time")
      (js "access-time") access_time_metadata
      (HYPHEN :: js "access_time_20_filled" ++ js ".svg") = Ok r1
    /\ id r1 = id (access_time_record None)
    /\ file r1 <> file (access_time_record None).
Proof.
  eexists. split; [vm_compute; reflexivity|].
  apply (id_ignores_a_leading_hyphen ascii_toLowerCase None (js "Access Time")
           (js "access-time") access_time_metadata
           (js "access_time_20_filled") (js ".svg")).
  - reflexivity.
  - vm_compute; reflexivity.
  - vm_compute; reflexivity.
Defined.

Lemma slug_ignores_case_and_separators_witness :
  IconIndex.slugify ascii_toLowerCase ascii_normalizeNFD (js "ACCESS time")
  = IconIndex.slugify ascii_toLowerCase ascii_normalizeNFD (js "Access Time")
  /\ IconIndex.slugify ascii_toLowerCase ascii_normalizeNFD
       (js "Access" ++ js " " ++ js "Time")
     = IconIndex.slugify ascii_toLowerCase ascii_normalizeNFD
         (js "Access" ++ js "__/ " ++ js "Time").
Proof.
  destruct (slug_ignores_case_and_separators ascii_toLowerCase
              ascii_normalizeNFD ascii_toLowerCase_ascii
              ascii_normalizeNFD_ascii) as [Hcase Hsep].
  split.
  - apply Hcase; reflexivity.
  - apply Hsep; try reflexivity; discriminate.
Defined.

Lemma id_is_slug_hyphen_stem_witness :
  id (access_time_record (Some access_time_url))
  = categorySlug (access_time_record (Some access_time_url)) ++ js "-"
    ++ strip_svg (file (access_time_record (Some access_time_url))).
Proof.
  apply (id_is_slug_hyphen_stem ascii_toLowerCase ascii_normalizeNFD cdn_env
           sample_entries sample_icons
           (access_time_record (Some access_time_url))
           collect_icons_sample sample_icons_first).
  - apply no_hyphen_pair_single. vm_compute; reflexivity.
  - intros t E. vm_compute in E. discriminate E.
Defined.

(** ** A complete configuration *)

Definition full_env : gmap string jsstring :=
  {[ "R2_ACCOUNT_ID"%string := js "account";
     "R2_ACCESS_KEY_ID"%string := js "key";
     "R2_SECRET_ACCESS_KEY"%string := js "secret";
     "R2_BUCKET_NAME"%string := js "icons";
     "R2_PREFIX"%string := js "//cdn/icons/" ]}.

Definition full_config : UploadConfig :=
  {| accountId := js "account";
     accessKeyId := js "key";
     secretAccessKey := js "secret";
     bucketName := js "icons";
     prefix := Some (js "cdn/icons") |}.

Lemma getConfig_full_env : getConfig full_env = Ok full_config.
Proof. vm_compute; reflexivity. Qed.

Lemma prefix_is_trimmed_witness :
  match full_env !! "R2_PREFIX"%string with
  | None => prefix full_config = None
  | Some v =>
      exists p i j,
        prefix full_config = Some p
        /\ v = repeat SLASH i ++ p ++ repeat SLASH j
        /\ (forall t, p <> SLASH :: t)
        /\ (forall t, p <> t ++ [SLASH])
  end.
Proof. exact (prefix_is_trimmed full_env full_config getConfig_full_env). Defined.

Lemma object_key_mirrors_path_witness :
  ~ In BACKSLASH (object_key full_config (numbered_file 7))
  /\ (prefix full_config = None \/ prefix full_config = Some [] ->
      object_key full_config (numbered_file 7) = to_slashes (numbered_file 7))
  /\ (forall p, prefix full_config = Some p -> p <> [] ->
        object_key full_config (numbered_file 7)
        = to_slashes p ++ js "/" ++ to_slashes (numbered_file 7))
  /\ (~ In BACKSLASH (numbered_file 7) ->
      prefix full_config = None \/ prefix full_config = Some [] ->
      object_key full_config (numbered_file 7) = numbered_file 7).
Proof.
  apply (object_key_mirrors_path full_config (numbered_file 7)).
  discriminate.
Defined.

(** The third send is the first to succeed. *)
Definition third_time_world : World :=
  {| file_content := fun _ => Some [];
     send_ok := fun _ attempt => (3 <=? attempt)%nat |}.

Lemma uploadFile_retry_schedule_witness :
  uploadFile third_time_world plain_config (numbered_file 7) 5
  = (Read (numbered_file 7)
       :: attempts (object_key plain_config (numbered_file 7)) 1 (3 - 1)%nat
       ++ [Send (object_key plain_config (numbered_file 7)) 3%nat],
     Ok true).
Proof.
  apply (proj1 (uploadFile_retry_schedule third_time_world plain_config
                  (numbered_file 7) [] eq_refl) 3%nat).
  - lia.
  - intros a Ha. change ((3 <=? a)%nat = false). apply Nat.leb_gt. lia.
  - reflexivity.
Defined.

(** The second file of the second batch cannot be read; every send
    succeeds. *)
Definition late_unreadable_world : World :=
  {| file_content :=
       fun p => if bool_decide (p = numbered_file 51) then None else Some [];
     send_ok := fun _ _ => true |}.

Lemma readable_check (w : World) (files : list jsstring) :
  forallb (fun f => match file_content w f with Some _ => true | None => false end)
    files = true ->
  readable w files.
Proof.
  intros H f Hf. rewrite forallb_forall in H. specialize (H f Hf).
  destruct (file_content w f); [discriminate | discriminate H].
Qed.

Lemma read_failure_ends_the_run_witness :
  (exists e,
      snd (upload_batches late_unreadable_world plain_config
             ([firstn 50 discovered_files]
              ++ [numbered_file 50; numbered_file 51]
              :: [[numbered_file 52]]) 0 0)
      = Throw e)
  /\ fst (upload_batches late_unreadable_world plain_config
            ([firstn 50 discovered_files]
             ++ [numbered_file 50; numbered_file 51]
             :: [[numbered_file 52]]) 0 0)
     = fst (upload_batches late_unreadable_world plain_config
              [firstn 50 discovered_files] 0 0)
       ++ map Read [numbered_file 50; numbered_file 51]
  /\ Forall (concerns plain_config (concat [firstn 50 discovered_files]))
       (fst (upload_batches late_unreadable_world plain_config
               [firstn 50 discovered_files] 0 0))
  /\ (forall g,
        In g (concat [firstn 50 discovered_files]
              ++ [numbered_file 50; numbered_file 51]) ->
        In (Read g)
          (fst (upload_batches late_unreadable_world plain_config
                  ([firstn 50 discovered_files]
                   ++ [numbered_file 50; numbered_file 51]
                   :: [[numbered_file 52]]) 0 0)))
  /\ (forall g,
        ~ In g (concat [firstn 50 discovered_files]
                ++ [numbered_file 50; numbered_file 51]) ->
        ~ In (Read g)
            (fst (upload_batches late_unreadable_world plain_config
                    ([firstn 50 discovered_files]
                     ++ [numbered_file 50; numbered_file 51]
                     :: [[numbered_file 52]]) 0 0)))
  /\ (forall key attempt,
        In (Send key attempt)
          (fst (upload_batches late_unreadable_world plain_config
                  ([firstn 50 discovered_files]
                   ++ [numbered_file 50; numbered_file 51]
                   :: [[numbered_file 52]]) 0 0)) ->
        exists p,
          In p (concat [firstn 50 discovered_files])
          /\ key = object_key plain_config p).
Proof.
  apply (read_failure_ends_the_run late_unreadable_world plain_config
           [firstn 50 discovered_files]
           [numbered_file 50; numbered_file 51] [[numbered_file 52]]
           (numbered_file 51) 0 0).
  - apply readable_check. vm_compute; reflexivity.
  - right; left; reflexivity.
  - vm_compute; reflexivity.
Defined.

Lemma main_totals_witness :
  (discovered_files = [] ->
   main full_env flaky_world (Ok discovered_files) = ([], Ok None))
  /\ (discovered_files <> [] ->
      exists failed,
        snd (main full_env flaky_world (Ok discovered_files))
        = Ok (Some (length (List.filter (uploaded flaky_world full_config)
                              discovered_files), failed))
        /\ (length (List.filter (uploaded flaky_world full_config)
                      discovered_files) + failed
            = length discovered_files)%nat
        /\ forall f, In f discovered_files ->
             In (Read f) (fst (main full_env flaky_world (Ok discovered_files)))).
Proof.
  apply (main_totals full_env flaky_world full_config discovered_files).
  - exact getConfig_full_env.
  - intros f _; discriminate.
Defined.

(* ===================================================================== *)
(** * scripts/upload-r2.ts: the discovery of the files *)
(* ===================================================================== *)

Module Discovery.
Import Js.

#[local] Set Warnings "-register-all".

(** An entry of a directory, [readdir(dir, {withFileTypes: true})]: a
    regular file, a directory with what its own [readdir] completes with
    ([listable = false]: it rejects), or an entry that is neither. *)
Inductive Tree : Type :=
| File (entry_name : jsstring)
| Other (entry_name : jsstring)
| Folder (entry_name : jsstring) (listable : bool) (entries : list Tree).

Inductive WalkError : Type :=
| ReaddirError (relative : jsstring).

Section Walk.

(** [String.prototype.toLowerCase] and [path.sep]. *)
Variable toLowerCase : jsstring -> jsstring.
Variable sep : N.

(** [path.join(base, name)] for a name that [readdir] returned: an empty
    [base] is skipped, nothing else is normalised away. *)
Definition path_join (base name : jsstring) : jsstring :=
  if truthy base then base ++ sep :: name else name.

(** One turn of the loop of [collectSvgFiles(dir, base)], pushing onto
    [files]: a directory is walked by the recursive call, which starts with
    its own [readdir] and runs the same loop over its entries. *)
Fixpoint visit (base : jsstring) (entry : Tree) (files : list jsstring)
    {struct entry} : result WalkError (list jsstring) :=
  match entry with
  | Folder entry_name listable sub =>
      let relative := path_join base entry_name in
      if listable then
        await nested <-
          (fix each (entries : list Tree) (nested : list jsstring)
             {struct entries} : result WalkError (list jsstring) :=
             match entries with
             | [] => Ok nested
             | entry :: rest =>
                 await nested' <- visit relative entry nested;
                 each rest nested'
             end) sub [];
        Ok (files ++ nested)
      else Throw (ReaddirError relative)
  | File entry_name =>
      if endsWith (toLowerCase entry_name) (js ".svg")
      then Ok (files ++ [path_join base entry_name])
      else Ok files
  | Other _ => Ok files
  end.

(** [for (const entry of entries)] *)
Fixpoint collect_entries (base : jsstring) (entries : list Tree)
    (files : list jsstring) : result WalkError (list jsstring) :=
  match entries with
  | [] => Ok files
  | entry :: rest =>
      await files' <- visit base entry files;
      collect_entries base rest files'
  end.

(** [collectSvgFiles(dir, base)] for a directory [dir] with these entries. *)
Definition collectSvgFiles (listable : bool) (entries : list Tree)
    (base : jsstring) : result WalkError (list jsstring) :=
  if listable then collect_entries base entries []
  else Throw (ReaddirError base).

End Walk.

(** Every directory of the tree can be listed. *)
Fixpoint listable_tree (entry : Tree) : bool :=
  match entry with
  | Folder _ listable sub => listable && forallb listable_tree sub
  | _ => true
  end.

Definition all_listable (entries : list Tree) : bool :=
  forallb listable_tree entries.

End Discovery.

Import Discovery.

(** Induction on a tree with the property for the entries of a directory. *)
Lemma Tree_induction (P : Tree -> Prop) :
  (forall n, P (File n)) ->
  (forall n, P (Other n)) ->
  (forall n listable sub, Forall P sub -> P (Folder n listable sub)) ->
  forall entry, P entry.
Proof.
  intros HF HO HD. fix IH 1. intros [n|n|n listable sub].
  - apply HF.
  - apply HO.
  - apply HD. induction sub as [|entry sub IHs]; constructor;
      [apply IH | exact IHs].
Qed.

Section DiscoveryFacts.

Variable toLowerCase : jsstring -> jsstring.
Variable sep : N.

#[local] Abbreviation path_join := (Discovery.path_join sep).
#[local] Abbreviation visit := (Discovery.visit toLowerCase sep).
#[local] Abbreviation collect_entries :=
  (Discovery.collect_entries toLowerCase sep).

(** [path] is the relative path of a regular file of the tree whose
    lowercased name ends with [.svg]. *)
Inductive svg_file_at : jsstring -> list Tree -> jsstring -> Prop :=
| svg_here base entries entry_name :
    In (File entry_name) entries ->
    has_svg_suffix toLowerCase entry_name = true ->
    svg_file_at base entries (path_join base entry_name)
| svg_below base entries entry_name listable sub path :
    In (Folder entry_name listable sub) entries ->
    svg_file_at (path_join base entry_name) sub path ->
    svg_file_at base entries path.

Lemma visit_folder base entry_name sub files :
  visit base (Folder entry_name true sub) files
  = (await nested <- collect_entries (path_join base entry_name) sub [];
     Ok (files ++ nested)).
Proof.
  cbn [Discovery.visit]. f_equal.
  generalize (@nil jsstring).
  induction sub as [|e sub IH]; intros acc; [reflexivity|].
  cbn [Discovery.collect_entries].
  destruct (visit (path_join base entry_name) e acc); cbn [bind];
    [apply IH | reflexivity].
Qed.

Lemma svg_file_at_cons base entry rest path :
  svg_file_at base (entry :: rest) path <->
  svg_file_at base [entry] path \/ svg_file_at base rest path.
Proof.
  split.
  - intros H. inversion H as [b es n Hin Hs|b es n l sub p Hin Hs]; subst.
    + destruct Hin as [Hin|Hin].
      * left. apply svg_here; [left; exact Hin | exact Hs].
      * right. now apply svg_here.
    + destruct Hin as [Hin|Hin].
      * left. eapply svg_below; [left; exact Hin | exact Hs].
      * right. eapply svg_below; eassumption.
  - intros [H|H];
      inversion H as [b es n Hin Hs|b es n l sub p Hin Hs]; subst.
    + destruct Hin as [Hin|[]]. apply svg_here; [left; exact Hin | exact Hs].
    + destruct Hin as [Hin|[]].
      eapply svg_below; [left; exact Hin | exact Hs].
    + apply svg_here; [now right | exact Hs].
    + eapply svg_below; [right; eassumption | exact Hs].
Qed.

Lemma svg_file_at_nil base path : ~ svg_file_at base [] path.
Proof. intros H; inversion H; subst; contradiction. Qed.

(** What one turn of the loop does, for every entry. *)
Definition visit_spec (entry : Tree) : Prop :=
  forall base files,
    (listable_tree entry = true ->
     exists found,
       visit base entry files = Ok (files ++ found)
       /\ forall path, In path found <-> svg_file_at base [entry] path)
    /\ (listable_tree entry = false ->
        exists e, visit base entry files = Throw e).

Lemma collect_entries_spec entries :
  Forall visit_spec entries ->
  forall base files,
    (all_listable entries = true ->
     exists found,
       collect_entries base entries files = Ok (files ++ found)
       /\ forall path, In path found <-> svg_file_at base entries path)
    /\ (all_listable entries = false ->
        exists e, collect_entries base entries files = Throw e).
Proof.
  induction 1 as [|entry rest Hentry _ IH]; intros base files.
  - split; [|discriminate]. intros _. exists []. rewrite app_nil_r.
    split; [reflexivity|]. intros path; split; [intros [] |].
    apply svg_file_at_nil.
  - cbn [Discovery.collect_entries all_listable forallb].
    destruct (Hentry base files) as [Hok Hthrow].
    destruct (listable_tree entry).
    + destruct (Hok eq_refl) as (found1 & -> & Hfound1). cbn [bind andb].
      destruct (IH base (files ++ found1)) as [IHok IHthrow]. split.
      * intros Hl. destruct (IHok Hl) as (found2 & -> & Hfound2).
        exists (found1 ++ found2). split; [now rewrite app_assoc|].
        intros path. rewrite in_app_iff, svg_file_at_cons, Hfound1, Hfound2.
        reflexivity.
      * intros Hl. exact (IHthrow Hl).
    + split; [discriminate|]. intros _.
      destruct (Hthrow eq_refl) as [e ->]. exists e; reflexivity.
Qed.

Lemma visit_spec_all entry : visit_spec entry.
Proof.
  induction entry as [n|n|n listable sub IH] using Tree_induction;
    intros base files.
  - split; [|discriminate]. intros _. cbn [Discovery.visit].
    destruct (endsWith (toLowerCase n) (js ".svg")) eqn:E.
    + exists [path_join base n]. split; [reflexivity|].
      intros path; split.
      * intros [<-|[]]. apply svg_here; [left; reflexivity | exact E].
      * intros H. inversion H as [b es m Hin Hs|b es m l sub p Hin Hs]; subst.
        -- destruct Hin as [Hin|[]]. injection Hin as <-. left; reflexivity.
        -- destruct Hin as [Hin|[]]. discriminate Hin.
    + exists []. rewrite app_nil_r. split; [reflexivity|].
      intros path; split; [intros []|].
      intros H. inversion H as [b es m Hin Hs|b es m l sub p Hin Hs]; subst.
      * destruct Hin as [Hin|[]]. injection Hin as <-.
        unfold has_svg_suffix in Hs. rewrite E in Hs. discriminate Hs.
      * destruct Hin as [Hin|[]]. discriminate Hin.
  - split; [|discriminate]. intros _. exists []. rewrite app_nil_r.
    split; [reflexivity|]. intros path; split; [intros []|].
    intros H. inversion H as [b es m Hin Hs|b es m l sub p Hin Hs]; subst;
      destruct Hin as [Hin|[]]; discriminate Hin.
  - destruct listable.
    + rewrite visit_folder. cbn [listable_tree andb].
      destruct (collect_entries_spec sub IH (path_join base n) [])
        as [Hok Hthrow].
      change (forallb listable_tree sub) with (all_listable sub). split.
      * intros Hl. destruct (Hok Hl) as (found & Hc & Hfound).
        simpl in Hc. rewrite Hc. cbn [bind]. exists found.
        split; [reflexivity|]. intros path. rewrite Hfound. split.
        -- intros H. eapply svg_below; [left; reflexivity | exact H].
        -- intros H.
           inversion H as [b es m Hin Hs|b es m l sub' p Hin Hs]; subst;
             destruct Hin as [Hin|[]]; [discriminate Hin|].
           injection Hin as <- <- <-. exact Hs.
      * intros Hl. destruct (Hthrow Hl) as [e ->]. exists e; reflexivity.
    + split; [discriminate|]. intros _. eexists; reflexivity.
Qed.

(** X19. [collectSvgFiles] completes exactly when every directory of the
    tree can be listed, and the paths it returns are exactly the relative
    paths of the regular files, at any depth, whose lowercased name ends
    with [.svg]: no directory, no other kind of entry, no other file. *)
Theorem collectSvgFiles_finds_the_svg_files entries base :
  (all_listable entries = true <->
   exists files, collectSvgFiles toLowerCase sep true entries base = Ok files)
  /\ forall files,
       collectSvgFiles toLowerCase sep true entries base = Ok files ->
       forall path, In path files <-> svg_file_at base entries path.
Proof.
  unfold collectSvgFiles.
  assert (Forall visit_spec entries) as Hall
    by (apply List.Forall_forall; intros e _; apply visit_spec_all).
  destruct (collect_entries_spec entries Hall base []) as [Hok Hthrow].
  split; [split|].
  - intros Hl. destruct (Hok Hl) as (found & -> & _). eexists; reflexivity.
  - intros [files Hf]. destruct (all_listable entries); [reflexivity|].
    destruct (Hthrow eq_refl) as [e He]. rewrite He in Hf. discriminate Hf.
  - intros files Hf.
    destruct (all_listable entries).
    + destruct (Hok eq_refl) as (found & Hc & Hfound).
      rewrite Hc in Hf. injection Hf as <-. exact Hfound.
    + destruct (Hthrow eq_refl) as [e He]. rewrite He in Hf. discriminate Hf.
Qed.

End DiscoveryFacts.

(* ===================================================================== *)
(** * The two scripts on one assets directory *)
(* ===================================================================== *)

(** In the directory tree that the uploader walks, [file] is a regular file
    of the directory [SVG] of the directory [category].  ([readdir(svgDir)]
    of [generateManifest] returns names without their types: a name of its
    listing can also be a directory or a symbolic link.) *)
Definition regular_svg_file (trees : list Tree) (category file : jsstring)
  : Prop :=
  exists listable children listable' svgEntries,
    In (Folder category listable children) trees
    /\ In (Folder (js "SVG") listable' svgEntries) children
    /\ In (File file) svgEntries.

Section SharedPaths.

Variable toLowerCase : jsstring -> jsstring.
Variable normalizeNFD : jsstring -> jsstring.

#[local] Abbreviation collect_icons :=
  (IconIndex.collect_icons toLowerCase normalizeNFD).

Lemma catalogue_record_origin env entries icons r :
  collect_icons env entries = Ok icons -> In r icons ->
  exists metadataFile svgFiles,
    In (DirEntry (category r) metadataFile (SvgDirectory (Ok svgFiles)))
      entries
    /\ In (file r) svgFiles
    /\ has_svg_suffix toLowerCase (file r) = true
    /\ relativePath r = relativePath_of (category r) (file r).
Proof.
  intros H Hr.
  pose proof (visit_entries_contents _ _ _ _ _ _ H) as (recs & E & K & F).
  simpl in E; subst recs.
  rewrite List.Forall_forall in F.
  destruct (F r Hr) as (mf & files & Hin & Hf & Hic).
  exists mf, files.
  destruct (icon_of_fields _ _ _ _ _ _ _ Hic)
    as (_ & _ & _ & _ & _ & _ & _ & _ & _ & _ & Hp & _).
  repeat split; try assumption.
  assert (In (record_key r) (flat_map (listed_files toLowerCase) entries))
    as Hk' by (rewrite <- K; now apply in_map).
  apply in_flat_map in Hk'. destruct Hk' as (e & _ & He).
  destruct e as [|n mf' [| |[fs|x]]]; simpl in He; try contradiction.
  apply in_map_iff in He. destruct He as (f & Hpair & Hfilter).
  injection Hpair as _ ->. apply List.filter_In in Hfilter. tauto.
Qed.

(** X20. The uploader finds the file of every record of the catalogue that
    is a regular file: when, in the tree that [collectSvgFiles] walks with
    [/] as path separator, the file of a record is a regular file of the
    [SVG] directory of the record's category directory, the list returned
    holds the path [<category>/SVG/<file>], and the record's [relativePath]
    is [assets/] followed by that path. *)
Theorem uploader_finds_regular_catalogue_files env entries icons r trees
    files :
  collect_icons env entries = Ok icons -> In r icons -> category r <> [] ->
  collectSvgFiles toLowerCase SLASH true trees [] = Ok files ->
  regular_svg_file trees (category r) (file r) ->
  In (category r ++ js "/SVG/" ++ file r) files
  /\ relativePath r = js "assets/" ++ category r ++ js "/SVG/" ++ file r.
Proof.
  intros Hc Hr Hne Hfiles (l & children & l' & svgEntries & Hcat & Hsvg & Hf).
  destruct (catalogue_record_origin _ _ _ _ Hc Hr)
    as (mf & svgFiles & _ & _ & Hs & Hp).
  split; [|exact Hp].
  unfold collectSvgFiles in Hfiles.
  assert (Forall (visit_spec toLowerCase SLASH) trees)
    as Hall by (apply List.Forall_forall; intros e _; apply visit_spec_all).
  destruct (collect_entries_spec toLowerCase SLASH _ Hall [] [])
    as [Hok Hthrow].
  destruct (all_listable trees);
    [|destruct (Hthrow eq_refl) as [e He]; rewrite He in Hfiles;
      discriminate Hfiles].
  destruct (Hok eq_refl) as (found & Hfound & Hspec).
  rewrite Hfound in Hfiles. injection Hfiles as <-.
  change ([] ++ found) with found. apply Hspec.
  eapply svg_below; [exact Hcat|].
  eapply svg_below; [exact Hsvg|].
  assert (category r ++ js "/SVG/" ++ file r
          = Discovery.path_join SLASH
              (Discovery.path_join SLASH
                 (Discovery.path_join SLASH [] (category r)) (js "SVG"))
              (file r)) as ->.
  { unfold Discovery.path_join. cbn [truthy].
    destruct (category r) as [|c cat]; [now destruct Hne|].
    cbn [truthy app]. rewrite <- !app_assoc. reflexivity. }
  apply svg_here; [exact Hf | exact Hs].
Qed.

End SharedPaths.

(* ===================================================================== *)
(** * scripts/upload-r2.ts (the sequential uploader) *)
(* ===================================================================== *)

Module SequentialUpload.
Import Js UploadR2.

Inductive Failure : Type :=
| ConfigError (e : UploadR2.Failure)
| AssetsError
| ReadFileError (relativePath : jsstring)
| SendError (key : jsstring).

Inductive Event : Type :=
| Read (relativePath : jsstring)
| Send (key : jsstring)
| Uploaded (relativePath key : jsstring).

(** [uploadFile]: one [readFile], one [client.send], nothing is caught; the
    only send of a key is the first one of [send_ok]. *)
Definition uploadFile (w : World) (config : UploadConfig)
    (relativePath : jsstring) : list Event * result Failure unit :=
  match file_content w relativePath with
  | None => ([Read relativePath], Throw (ReadFileError relativePath))
  | Some buffer =>
      let key := object_key config relativePath in
      if send_ok w key 1
      then ([Read relativePath; Send key; Uploaded relativePath key], Ok tt)
      else ([Read relativePath; Send key], Throw (SendError key))
  end.

(** [for (const relativePath of files) await uploadFile(..)] *)
Fixpoint upload_each (w : World) (config : UploadConfig)
    (files : list jsstring) : list Event * result Failure unit :=
  match files with
  | [] => ([], Ok tt)
  | relativePath :: rest =>
      match uploadFile w config relativePath with
      | (log, Throw e) => (log, Throw e)
      | (log, Ok _) =>
          let '(log', r) := upload_each w config rest in
          (log ++ log', r)
      end
  end.

(** [main]: [assets] is what the [stat] and [collectSvgFiles] of the assets
    directory complete with. *)
Definition main (env : gmap string jsstring) (w : World)
    (assets : option (list jsstring)) : list Event * result Failure unit :=
  match getConfig env with
  | Throw e => ([], Throw (ConfigError e))
  | Ok config =>
      match assets with
      | None => ([], Throw AssetsError)
      | Some files =>
          if (length files =? 0)%nat then ([], Ok tt)
          else upload_each w config files
      end
  end.

End SequentialUpload.

(** The file is read and its single send succeeds. *)
Definition goes_through (w : World) (config : UploadConfig) (f : jsstring)
  : bool :=
  match file_content w f with
  | Some _ => send_ok w (object_key config f) 1
  | None => false
  end.

Section SequentialRun.

Variable w : World.
Variable config : UploadConfig.

Lemma upload_each_app pre post :
  SequentialUpload.upload_each w config (pre ++ post)
  = match SequentialUpload.upload_each w config pre with
    | (log, Throw e) => (log, Throw e)
    | (log, Ok _) =>
        let '(log', r) := SequentialUpload.upload_each w config post in
        (log ++ log', r)
    end.
Proof.
  induction pre as [|f pre IH]; cbn [app SequentialUpload.upload_each].
  - destruct (SequentialUpload.upload_each w config post); reflexivity.
  - destruct (SequentialUpload.uploadFile w config f) as [log [u|e]];
      [|reflexivity].
    rewrite IH.
    destruct (SequentialUpload.upload_each w config pre) as [log1 [u1|e1]];
      [|reflexivity].
    destruct (SequentialUpload.upload_each w config post) as [log2 r2].
    now rewrite app_assoc.
Qed.

Lemma upload_each_all files :
  forallb (goes_through w config) files = true ->
  SequentialUpload.upload_each w config files
  = (flat_map
       (fun f => [SequentialUpload.Read f;
                  SequentialUpload.Send (object_key config f);
                  SequentialUpload.Uploaded f (object_key config f)]) files,
     Ok tt).
Proof.
  induction files as [|f files IH]; [reflexivity|].
  cbn [forallb]. intros H. apply andb_true_iff in H. destruct H as [Hf Hfs].
  cbn [SequentialUpload.upload_each flat_map].
  unfold SequentialUpload.uploadFile. unfold goes_through in Hf.
  destruct (file_content w f); [|discriminate Hf].
  rewrite Hf, (IH Hfs). reflexivity.
Qed.

(** X21. The sequential uploader sends each file once, in the order of the
    list, and stops at the first file that cannot be read or whose send
    fails: the files before it are uploaded, the run throws the error of
    that file, and nothing is read or sent for the files after it. *)
Theorem sequential_upload_stops_at_first_failure pre f post :
  forallb (goes_through w config) pre = true ->
  goes_through w config f = false ->
  exists e,
    SequentialUpload.upload_each w config (pre ++ f :: post)
    = (fst (SequentialUpload.upload_each w config pre)
       ++ fst (SequentialUpload.uploadFile w config f),
       Throw e)
    /\ snd (SequentialUpload.uploadFile w config f) = Throw e
    /\ fst (SequentialUpload.upload_each w config pre)
       = flat_map
           (fun g => [SequentialUpload.Read g;
                      SequentialUpload.Send (object_key config g);
                      SequentialUpload.Uploaded g (object_key config g)]) pre
    /\ (fst (SequentialUpload.uploadFile w config f)
        = [SequentialUpload.Read f]
        \/ fst (SequentialUpload.uploadFile w config f)
           = [SequentialUpload.Read f;
              SequentialUpload.Send (object_key config f)]).
Proof.
  intros Hpre Hf.
  rewrite upload_each_app, (upload_each_all pre Hpre).
  cbn [SequentialUpload.upload_each fst].
  unfold goes_through in Hf. unfold SequentialUpload.uploadFile.
  destruct (file_content w f).
  - rewrite Hf. eexists. repeat split. right; reflexivity.
  - eexists. repeat split. left; reflexivity.
Qed.

(** X22. When every file can be read and sent, the sequential run completes
    and its log is, for each file in turn, one read, one send and the line
    that reports it. *)
Theorem sequential_upload_completes env files :
  getConfig env = Ok config ->
  forallb (goes_through w config) files = true ->
  SequentialUpload.main env w (Some files)
  = (flat_map
       (fun f => [SequentialUpload.Read f;
                  SequentialUpload.Send (object_key config f);
                  SequentialUpload.Uploaded f (object_key config f)]) files,
     Ok tt).
Proof.
  intros Hc Hall. unfold SequentialUpload.main. rewrite Hc.
  destruct files as [|f files]; [reflexivity|].
  cbn [length Nat.eqb]. now apply upload_each_all.
Qed.

End SequentialRun.

(* ===================================================================== *)
(** * src/intents/design_editor/app.tsx: the gallery over the manifest *)
(* ===================================================================== *)

Module Gallery.
Import Js IconIndex.

(** [WhiteSpace] and [LineTerminator] code units, as [trim] removes them. *)
Definition is_whitespace (c : N) : bool :=
  bool_decide (In c [9; 10; 11; 12; 13; 32; 160; 5760; 8232; 8233; 8239; 8287;
                     12288; 65279])
  || in_range 8192 8202 c.

(** [s.trim()] *)
Definition trim (s : jsstring) : jsstring :=
  drop_trailing is_whitespace (drop_leading is_whitespace s).

(** [s.startsWith(prefix)] *)
Fixpoint startsWith (s prefix : jsstring) {struct prefix} : bool :=
  match prefix with
  | [] => true
  | p :: prefix' =>
      match s with
      | c :: s' => (c =? p) && startsWith s' prefix'
      | [] => false
      end
  end.

(** [s.includes(needle)] *)
Fixpoint includes (s needle : jsstring) : bool :=
  startsWith s needle
  || match s with
     | [] => false
     | _ :: s' => includes s' needle
     end.

Section Component.

(** [String.prototype.toLowerCase], and [new URL(path, origin + "/")] turned
    into a string. *)
Variable toLowerCase : jsstring -> jsstring.
Variable resolve : jsstring -> jsstring.

(** [getIconUrl] *)
Definition getIconUrl (icon : IconRecord) : jsstring :=
  let otherwise :=
    if startsWith (relativePath icon) (js "http") then relativePath icon
    else resolve (relativePath icon) in
  match cdnUrl icon with
  | Some url => if truthy url then url else otherwise
  | None => otherwise
  end.

(** The predicate of [filteredIcons]; [selected] is the state [category]. *)
Definition matches (search selected styleFilter : jsstring)
    (icon : IconRecord) : bool :=
  let matchesCategory :=
    bool_decide (selected = js "all")
    || bool_decide (categorySlug icon = selected) in
  let matchesStyle :=
    bool_decide (styleFilter = js "all")
    || match style icon with
       | Some s => if truthy s then bool_decide (s = styleFilter) else false
       | None => false
       end in
  let needle := toLowerCase (trim search) in
  let matchesSearch :=
    (length needle =? 0)%nat
    || includes (toLowerCase (name icon)) needle
    || existsb (fun tag => includes (toLowerCase tag) needle) (tags icon)
    || includes (toLowerCase (category icon)) needle in
  matchesCategory && matchesStyle && matchesSearch.

Definition filteredIcons (search selected styleFilter : jsstring)
    (ICONS : list IconRecord) : list IconRecord :=
  List.filter (matches search selected styleFilter) ICONS.

End Component.

(** [filteredIcons.slice(0, visibleCount)] *)
Definition visibleIcons (visibleCount : nat) (filtered : list IconRecord)
  : list IconRecord :=
  firstn visibleCount filtered.

(** [setVisibleCount((count) => count + 60)] *)
Definition onLoadMore (visibleCount : nat) : nat := visibleCount + 60.

(** [visibleIcons.length < filteredIcons.length]: the button is rendered. *)
Definition showLoadMore (visibleCount : nat) (filtered : list IconRecord)
  : bool :=
  (length (visibleIcons visibleCount filtered) <? length filtered)%nat.

(** ** The category options

    [result], a [Map] from slug to count, keeps its keys in the order of
    their first insertion. *)
Definition map_get (m : list (jsstring * nat)) (k : jsstring) : option nat :=
  option_map snd (find (fun e => bool_decide (fst e = k)) m).

Fixpoint map_set (m : list (jsstring * nat)) (k : jsstring) (v : nat)
  : list (jsstring * nat) :=
  match m with
  | [] => [(k, v)]
  | (k', v') :: rest =>
      if bool_decide (k' = k) then (k', v) :: rest
      else (k', v') :: map_set rest k v
  end.

(** [ICONS.forEach((icon) => result.set(slug, (result.get(slug) ?? 0) + 1))] *)
Definition count_slugs (ICONS : list IconRecord) : list (jsstring * nat) :=
  fold_left
    (fun result icon =>
       map_set result (categorySlug icon)
         (default 0%nat (map_get result (categorySlug icon)) + 1))
    ICONS [].

Record CategoryOption : Type := mkCategoryOption {
  slug : jsstring;
  label : jsstring;
  count : nat
}.

(** [Array.from(result.entries()).map(..)], before it is sorted by label. *)
Definition categories (ICONS : list IconRecord) : list CategoryOption :=
  map
    (fun e : jsstring * nat =>
       let icon :=
         find (fun entry => bool_decide (categorySlug entry = fst e)) ICONS in
       {| slug := fst e;
          label := match icon with
                   | Some i => category i
                   | None => fst e
                   end;
          count := snd e |})
    (count_slugs ICONS).

End Gallery.

Lemma startsWith_spec (s prefix : jsstring) :
  Gallery.startsWith s prefix = true <-> exists post, s = prefix ++ post.
Proof.
  revert s; induction prefix as [|p prefix IH]; intros s; simpl.
  - split; [intros _; now exists s | intros _; reflexivity].
  - destruct s as [|c s].
    + split; [discriminate | intros [post H]; discriminate H].
    + rewrite andb_true_iff, N.eqb_eq, IH. split.
      * intros [-> [post ->]]. now exists post.
      * intros [post H]. injection H as -> ->. split; [reflexivity|].
        now exists post.
Qed.

(** [includes] is the test that the needle occurs in the string. *)
Lemma includes_spec (s needle : jsstring) :
  Gallery.includes s needle = true <-> exists pre post, s = pre ++ needle ++ post.
Proof.
  induction s as [|c s IH]; cbn [Gallery.includes];
    rewrite orb_true_iff, startsWith_spec.
  - split.
    + intros [[post H]|H]; [|discriminate H]. now exists [], post.
    + intros (pre & post & H). left.
      destruct pre; [|discriminate H]. now exists post.
  - rewrite IH. split.
    + intros [[post H]|(pre & post & H)].
      * now exists [], post.
      * exists (c :: pre), post. now rewrite H.
    + intros (pre & post & H). destruct pre as [|c' pre].
      * left. now exists post.
      * right. injection H as _ H. now exists pre, post.
Qed.

Lemma trim_blank (s : jsstring) :
  forallb Gallery.is_whitespace s = true -> Gallery.trim s = [].
Proof.
  intros H. unfold Gallery.trim, drop_leading.
  assert (drop_while Gallery.is_whitespace s = []) as ->; [|reflexivity].
  induction s as [|c s IH]; [reflexivity|]. simpl in H |- *.
  apply andb_true_iff in H. destruct H as [-> H]. now apply IH.
Qed.

(** The needle occurs in the string. *)
Definition occurs_in (needle s : jsstring) : Prop :=
  exists pre post, s = pre ++ needle ++ post.

Section GalleryFilters.

Variable toLowerCase : jsstring -> jsstring.
Hypothesis toLowerCase_ascii :
  forall s, all_ascii s = true -> toLowerCase s = ascii_toLowerCase s.

#[local] Abbreviation filteredIcons := (Gallery.filteredIcons toLowerCase).

(** X23. The gallery shows an icon exactly when it passes the three
    filters: its slug is the selected one unless [all] is selected, its
    style is the selected one unless [all] is selected (an icon without
    style passes only [all]), and the trimmed, lowercased search text is
    empty or occurs in the lowercased name, in one of the lowercased tags or
    in the lowercased category.  With a blank search and both selections on
    [all], every icon is shown, in the order of the manifest. *)
Theorem gallery_filters search selected styleFilter ICONS :
  (forall icon,
      In icon (filteredIcons search selected styleFilter ICONS) <->
      In icon ICONS
      /\ (selected = js "all" \/ categorySlug icon = selected)
      /\ (styleFilter = js "all"
          \/ (style icon = Some styleFilter /\ styleFilter <> []))
      /\ (toLowerCase (Gallery.trim search) = []
          \/ occurs_in (toLowerCase (Gallery.trim search))
               (toLowerCase (name icon))
          \/ (exists tag, In tag (tags icon)
                /\ occurs_in (toLowerCase (Gallery.trim search))
                     (toLowerCase tag))
          \/ occurs_in (toLowerCase (Gallery.trim search))
               (toLowerCase (category icon))))
  /\ (forallb Gallery.is_whitespace search = true ->
      filteredIcons search (js "all") (js "all") ICONS = ICONS).
Proof.
  split.
  - intros icon. unfold Gallery.filteredIcons.
    rewrite List.filter_In. unfold Gallery.matches.
    rewrite !andb_true_iff, !orb_true_iff, !bool_decide_eq_true,
      Nat.eqb_eq, !includes_spec, existsb_exists.
    assert ((match style icon with
             | Some s => if truthy s then bool_decide (s = styleFilter)
                         else false
             | None => false
             end = true)
            <-> (style icon = Some styleFilter /\ styleFilter <> [])) as ->.
    { destruct (style icon) as [[|c s]|]; cbn [truthy].
      - split; [discriminate | intros [H Hne]; injection H as <-; easy].
      - rewrite bool_decide_eq_true. split.
        + intros <-. split; [reflexivity | discriminate].
        + intros [H _]. now injection H.
      - split; [discriminate | intros [H _]; discriminate H]. }
    assert (forall l : jsstring, length l = 0%nat <-> l = []) as Hnil
      by (intros [|x l]; split; easy).
    rewrite Hnil. unfold occurs_in.
    split.
    + intros (Hin & (Hc & Hs) & [[[H|H]|(tag & Ht & H)]|H]);
        repeat split; try assumption; auto.
      * right; right; left. exists tag. rewrite includes_spec in H. auto.
    + intros (Hin & Hc & Hs & [H|[H|[(tag & Ht & H)|H]]]);
        repeat split; try assumption; auto.
      * left; right. exists tag. rewrite includes_spec. auto.
  - intros Hblank. unfold Gallery.filteredIcons.
    induction ICONS as [|icon ICONS IH]; [reflexivity|].
    cbn [List.filter]. rewrite IH.
    assert (Gallery.matches toLowerCase search (js "all") (js "all") icon
            = true) as ->; [|reflexivity].
    unfold Gallery.matches.
    rewrite (trim_blank search Hblank), (toLowerCase_ascii [] eq_refl).
    rewrite !(bool_decide_eq_true_2 (js "all" = js "all") eq_refl).
    reflexivity.
Qed.

End GalleryFilters.

(** X24. The gallery shows the first 60 filtered icons and 60 more for each
    click on the button; the button is rendered exactly while some filtered
    icon is not shown. *)
Theorem load_more_shows_sixty_more (filtered : list IconRecord) (clicks : nat) :
  Nat.iter clicks Gallery.onLoadMore 60%nat = (60 + 60 * clicks)%nat
  /\ length (Gallery.visibleIcons (Nat.iter clicks Gallery.onLoadMore 60%nat)
               filtered)
     = Nat.min (60 + 60 * clicks) (length filtered)
  /\ (exists hidden,
        filtered
        = Gallery.visibleIcons (Nat.iter clicks Gallery.onLoadMore 60%nat)
            filtered ++ hidden)
  /\ (Gallery.showLoadMore (Nat.iter clicks Gallery.onLoadMore 60%nat) filtered
      = false
      <-> Gallery.visibleIcons (Nat.iter clicks Gallery.onLoadMore 60%nat)
            filtered = filtered).
Proof.
  assert (Nat.iter clicks Gallery.onLoadMore 60%nat = (60 + 60 * clicks)%nat)
    as ->.
  { induction clicks as [|k IH]; [reflexivity|].
    cbn [Nat.iter nat_rect]. unfold Nat.iter in IH. rewrite IH.
    unfold Gallery.onLoadMore. lia. }
  unfold Gallery.showLoadMore, Gallery.visibleIcons.
  split; [reflexivity|]. split; [apply length_firstn|]. split.
  - exists (skipn (60 + 60 * clicks) filtered). symmetry; apply firstn_skipn.
  - rewrite Nat.ltb_ge, length_firstn. split.
    + intros H. apply firstn_all2. lia.
    + intros H. apply (f_equal (@length IconRecord)) in H.
      rewrite length_firstn in H. lia.
Qed.

Section GalleryLocation.

Variable toLowerCase : jsstring -> jsstring.
Variable normalizeNFD : jsstring -> jsstring.
Variable resolve : jsstring -> jsstring.

#[local] Abbreviation collect_icons :=
  (IconIndex.collect_icons toLowerCase normalizeNFD).

(** X25. For a record of the catalogue, the gallery loads the icon from its
    [cdnUrl] when the record has one, and otherwise from its [relativePath]
    resolved against the origin of the page: a [cdnUrl] is never empty and a
    [relativePath] never starts with [http]. *)
Theorem gallery_prefers_the_cdn_location env entries icons r :
  collect_icons env entries = Ok icons -> In r icons ->
  (forall url, cdnUrl r = Some url -> Gallery.getIconUrl resolve r = url)
  /\ (cdnUrl r = None ->
      Gallery.getIconUrl resolve r = resolve (relativePath r)).
Proof.
  intros H Hr.
  pose proof (collect_icons_built _ _ _ _ _ H) as Hb.
  rewrite List.Forall_forall in Hb. destruct (Hb r Hr) as [md Hmd].
  destruct (icon_of_fields _ _ _ _ _ _ _ Hmd)
    as (_ & _ & _ & _ & _ & _ & _ & _ & _ & _ & Hp & Hu).
  unfold Gallery.getIconUrl. rewrite Hp. split.
  - intros url E. rewrite E in Hu |- *. unfold cdnUrl_of in Hu.
    destruct (ICON_CDN_BASE_URL env) as [[|c b]|]; try discriminate Hu.
    cbn [truthy] in Hu.
    destruct (encodeURIComponent (category r)); [|discriminate Hu].
    destruct (encodeURIComponent (file r)); [|discriminate Hu].
    injection Hu as <-. reflexivity.
  - intros ->. reflexivity.
Qed.

End GalleryLocation.

(** ** The category options *)

Lemma map_get_set m k v k' :
  Gallery.map_get (Gallery.map_set m k v) k'
  = if bool_decide (k = k') then Some v else Gallery.map_get m k'.
Proof.
  unfold Gallery.map_get.
  induction m as [|[a b] m IH]; cbn [Gallery.map_set find fst].
  - destruct (bool_decide (k = k')); reflexivity.
  - destruct (bool_decide_reflect (a = k)) as [->|Hak]; cbn [find fst].
    + destruct (bool_decide_reflect (k = k')); reflexivity.
    + destruct (bool_decide_reflect (a = k')) as [->|Hak'].
      * now rewrite bool_decide_eq_false_2 by congruence.
      * exact IH.
Qed.

Lemma map_set_keys m k v x :
  In x (map fst (Gallery.map_set m k v)) <-> x = k \/ In x (map fst m).
Proof.
  induction m as [|[a b] m IH]; cbn [Gallery.map_set map fst In].
  - split; [intros [<-|[]]; now left | intros [->|[]]; now left].
  - destruct (bool_decide_reflect (a = k)) as [->|Hak]; cbn [map fst In].
    + intuition congruence.
    + rewrite IH. tauto.
Qed.

Lemma map_set_NoDup m k v :
  List.NoDup (map fst m) -> List.NoDup (map fst (Gallery.map_set m k v)).
Proof.
  induction m as [|[a b] m IH]; cbn [Gallery.map_set map fst]; intros H.
  - constructor; [intros [] | constructor].
  - inversion H as [|? ? Hnot Hrest]; subst.
    destruct (bool_decide_reflect (a = k)) as [->|Hak]; cbn [map fst].
    + now constructor.
    + constructor; [|now apply IH].
      rewrite map_set_keys. intros [->|Hin]; [now apply Hak | now apply Hnot].
Qed.

Lemma map_set_sum m k :
  list_sum (map snd (Gallery.map_set m k
                       (default 0%nat (Gallery.map_get m k) + 1)))
  = S (list_sum (map snd m)).
Proof.
  unfold Gallery.map_get.
  induction m as [|[a b] m IH]; cbn [Gallery.map_set find fst].
  - reflexivity.
  - destruct (bool_decide (a = k)).
    + simpl. lia.
    + change (list_sum (map snd ((a, b) :: ?x))) with (b + list_sum (map snd x))%nat.
      cbn [map snd]. change (list_sum (b :: ?x)) with (b + list_sum x)%nat.
      rewrite IH. simpl. lia.
Qed.

Lemma map_get_In m k v :
  List.NoDup (map fst m) -> In (k, v) m -> Gallery.map_get m k = Some v.
Proof.
  unfold Gallery.map_get.
  induction m as [|[a b] m IH]; intros Hnd Hin; [destruct Hin|].
  inversion Hnd as [|? ? Hnot Hrest]; subst. cbn [find fst].
  destruct Hin as [E|Hin].
  - injection E as -> ->. now rewrite bool_decide_eq_true_2.
  - rewrite bool_decide_eq_false_2; [now apply IH|].
    intros ->. apply Hnot. apply in_map_iff. now exists (k, v).
Qed.

(** The number of icons with the slug. *)
Definition icons_with_slug (k : jsstring) (ICONS : list IconRecord) : nat :=
  length (List.filter (fun icon => bool_decide (categorySlug icon = k)) ICONS).

Lemma count_slugs_invariant ICONS :
  forall acc done,
    List.NoDup (map fst acc) ->
    list_sum (map snd acc) = length done ->
    (forall k, Gallery.map_get acc k
               = if (icons_with_slug k done =? 0)%nat then None
                 else Some (icons_with_slug k done)) ->
    let result :=
      fold_left
        (fun result icon =>
           Gallery.map_set result (categorySlug icon)
             (default 0%nat (Gallery.map_get result (categorySlug icon)) + 1))
        ICONS acc in
    List.NoDup (map fst result)
    /\ list_sum (map snd result) = length (done ++ ICONS)
    /\ forall k, Gallery.map_get result k
                 = if (icons_with_slug k (done ++ ICONS) =? 0)%nat then None
                   else Some (icons_with_slug k (done ++ ICONS)).
Proof.
  induction ICONS as [|icon ICONS IH]; intros acc done Hnd Hsum Hget.
  - cbn [fold_left]. rewrite app_nil_r. repeat split; assumption.
  - cbn [fold_left]. cbv zeta.
    replace (done ++ icon :: ICONS) with ((done ++ [icon]) ++ ICONS)
      by now rewrite <- app_assoc.
    apply IH.
    + now apply map_set_NoDup.
    + rewrite map_set_sum, Hsum, length_app. simpl. lia.
    + intros k. rewrite map_get_set, !Hget.
      unfold icons_with_slug. rewrite List.filter_app, length_app.
      cbn [List.filter].
      destruct (bool_decide (categorySlug icon = k)) eqn:E.
      * apply bool_decide_eq_true in E. rewrite E.
        cbn [length].
        destruct (length (List.filter _ done)) as [|n] eqn:En;
          cbn [Nat.eqb default]; [reflexivity|].
        replace (S n + 1)%nat with (S (n + 1)) by lia. cbn [Nat.eqb].
        f_equal; lia.
      * cbn [length]. now rewrite Nat.add_0_r.
Qed.

(** X26. The category options of the gallery, before they are sorted: one
    option for each slug that occurs among the icons and no other, whose
    count is the number of icons with that slug and whose label is the
    category of the first such icon; the counts add up to the number of
    icons. *)
Theorem category_options_count_the_icons (ICONS : list IconRecord) :
  List.NoDup (map Gallery.slug (Gallery.categories ICONS))
  /\ list_sum (map Gallery.count (Gallery.categories ICONS)) = length ICONS
  /\ (forall icon, In icon ICONS ->
        exists opt, In opt (Gallery.categories ICONS)
                    /\ Gallery.slug opt = categorySlug icon)
  /\ (forall opt, In opt (Gallery.categories ICONS) ->
        Gallery.count opt = icons_with_slug (Gallery.slug opt) ICONS
        /\ exists before icon after,
             ICONS = before ++ icon :: after
             /\ categorySlug icon = Gallery.slug opt
             /\ Forall (fun i => categorySlug i <> Gallery.slug opt) before
             /\ Gallery.label opt = category icon).
Proof.
  destruct (count_slugs_invariant ICONS [] [] (List.NoDup_nil _) eq_refl
              (fun k => eq_refl)) as (Hnd & Hsum & Hget).
  cbn [app] in Hsum, Hget. fold (Gallery.count_slugs ICONS) in Hnd, Hsum, Hget.
  unfold Gallery.categories.
  split; [now rewrite map_map|]. split; [now rewrite map_map|]. split.
  - intros icon Hin.
    specialize (Hget (categorySlug icon)).
    assert (icons_with_slug (categorySlug icon) ICONS <> 0%nat) as Hpos.
    { unfold icons_with_slug. intros Hz. apply length_zero_iff_nil in Hz.
      assert (In icon (List.filter
                (fun i => bool_decide (categorySlug i = categorySlug icon))
                ICONS)) as Hf
        by (apply List.filter_In; split;
            [exact Hin | now apply bool_decide_eq_true]).
      rewrite Hz in Hf. destruct Hf. }
    apply Nat.eqb_neq in Hpos. rewrite Hpos in Hget.
    unfold Gallery.map_get in Hget.
    destruct (find _ (Gallery.count_slugs ICONS)) as [e|] eqn:Ef;
      [|discriminate Hget].
    apply find_some in Ef. destruct Ef as [He Hk].
    apply bool_decide_eq_true in Hk.
    eexists. split; [apply in_map; exact He | exact Hk].
  - intros opt Hopt. apply in_map_iff in Hopt.
    destruct Hopt as ([k v] & <- & He). cbn [Gallery.slug Gallery.count
      Gallery.label fst snd].
    pose proof (map_get_In _ _ _ Hnd He) as Hg. rewrite Hget in Hg.
    destruct (icons_with_slug k ICONS =? 0)%nat eqn:Ez; [discriminate Hg|].
    injection Hg as Hv. split; [now symmetry|].
    destruct (find (fun entry => bool_decide (categorySlug entry = k)) ICONS)
      as [icon|] eqn:Ef.
    + clear -Ef. induction ICONS as [|i ICONS IH]; [discriminate Ef|].
      cbn [find] in Ef.
      destruct (bool_decide_reflect (categorySlug i = k)) as [Hi|Hi].
      * injection Ef as ->. exists [], icon, ICONS. repeat split;
          [exact Hi | constructor].
      * destruct (IH Ef) as (before & ic & after & -> & Hs & Hb & Hl).
        exists (i :: before), ic, after. repeat split; try assumption.
        now constructor.
    + exfalso. apply Nat.eqb_neq in Ez. apply Ez. unfold icons_with_slug.
      apply length_zero_iff_nil.
      destruct (List.filter _ ICONS) as [|i l] eqn:El; [reflexivity|].
      assert (In i (i :: l)) as Hi by now left.
      rewrite <- El in Hi. apply List.filter_In in Hi.
      destruct Hi as [Hi Hs].
      pose proof (find_none _ _ Ef i Hi) as Hn. simpl in Hn.
      rewrite Hs in Hn. discriminate Hn.
Qed.

(* ===================================================================== *)
(** * Sample runs of the discovery, the sequential uploader and the gallery *)
(* ===================================================================== *)

Definition sample_paths : list jsstring :=
  [js "Access Time/SVG/access_time_20_filled.svg";
   js "Misc/SVG/a_16_bold.svg"; js "Misc/SVG/b-c.SVG"].

(** The assets directory of the sample run, as the uploader walks it. *)
Definition sample_trees : list Tree :=
  [File (js "README.md");
   Folder (js "Access Time") true
     [File (js "metadata.json");
      Folder (js "SVG") true [File (js "access_time_20_filled.svg")]];
   Folder (js "Empty") true [];
   Folder (js "Misc") true
     [Folder (js "SVG") true
        [File (js "a_16_bold.svg"); File (js "notes.txt");
         File (js "b-c.SVG")]]].

Lemma collectSvgFiles_sample :
  collectSvgFiles ascii_toLowerCase SLASH true sample_trees []
  = Ok sample_paths.
Proof. vm_compute; reflexivity. Qed.

Lemma uploader_finds_regular_catalogue_files_witness :
  In (category (access_time_record (Some access_time_url)) ++ js "/SVG/"
      ++ file (access_time_record (Some access_time_url))) sample_paths
  /\ relativePath (access_time_record (Some access_time_url))
     = js "assets/" ++ category (access_time_record (Some access_time_url))
       ++ js "/SVG/" ++ file (access_time_record (Some access_time_url)).
Proof.
  apply (uploader_finds_regular_catalogue_files ascii_toLowerCase
           ascii_normalizeNFD cdn_env sample_entries sample_icons
           (access_time_record (Some access_time_url)) sample_trees
           sample_paths collect_icons_sample sample_icons_first).
  - discriminate.
  - exact collectSvgFiles_sample.
  - exists true, [File (js "metadata.json");
                  Folder (js "SVG") true
                    [File (js "access_time_20_filled.svg")]],
      true, [File (js "access_time_20_filled.svg")].
    split; [right; left; reflexivity|].
    split; [right; left; reflexivity | left; reflexivity].
Defined.

(** A directory whose name ends with [.svg] is listed by the [readdir] of
    [generateManifest], which makes a record for it; the uploader walks into
    it and returns the files inside, not the directory. *)
Definition bundle_entries : list Dirent :=
  [DirEntry (js "Misc") MetadataMissing
     (SvgDirectory (Ok [js "a.svg"; js "bundle.svg"]))].

Definition bundle_trees : list Tree :=
  [Folder (js "Misc") true
     [Folder (js "SVG") true
        [File (js "a.svg");
         Folder (js "bundle.svg") true [File (js "inner.svg")]]]].

Example directory_named_svg_is_recorded_not_uploaded :
  option_map (map relativePath)
    (match
       IconIndex.collect_icons ascii_toLowerCase ascii_normalizeNFD
         (∅ : gmap string jsstring) bundle_entries
     with
     | Ok icons => Some icons
     | Throw _ => None
     end)
  = Some [js "assets/Misc/SVG/a.svg"; js "assets/Misc/SVG/bundle.svg"]
  /\ collectSvgFiles ascii_toLowerCase SLASH true bundle_trees []
     = Ok [js "Misc/SVG/a.svg"; js "Misc/SVG/bundle.svg/inner.svg"].
Proof. split; vm_compute; reflexivity. Qed.

(** The send of the third path fails. *)
Definition third_fails_world : World :=
  {| file_content := fun _ => Some [];
     send_ok := fun key _ => negb (bool_decide (key = js "Misc/SVG/b-c.SVG")) |}.

Lemma sequential_upload_stops_at_first_failure_witness :
  exists e,
    SequentialUpload.upload_each third_fails_world plain_config
      ([js "Access Time/SVG/access_time_20_filled.svg";
        js "Misc/SVG/a_16_bold.svg"]
       ++ js "Misc/SVG/b-c.SVG" :: [js "Misc/SVG/d.svg"])
    = (fst (SequentialUpload.upload_each third_fails_world plain_config
              [js "Access Time/SVG/access_time_20_filled.svg";
               js "Misc/SVG/a_16_bold.svg"])
       ++ fst (SequentialUpload.uploadFile third_fails_world plain_config
                 (js "Misc/SVG/b-c.SVG")),
       Throw e)
    /\ snd (SequentialUpload.uploadFile third_fails_world plain_config
              (js "Misc/SVG/b-c.SVG")) = Throw e
    /\ fst (SequentialUpload.upload_each third_fails_world plain_config
              [js "Access Time/SVG/access_time_20_filled.svg";
               js "Misc/SVG/a_16_bold.svg"])
       = flat_map
           (fun g => [SequentialUpload.Read g;
                      SequentialUpload.Send (object_key plain_config g);
                      SequentialUpload.Uploaded g (object_key plain_config g)])
           [js "Access Time/SVG/access_time_20_filled.svg";
            js "Misc/SVG/a_16_bold.svg"]
    /\ (fst (SequentialUpload.uploadFile third_fails_world plain_config
               (js "Misc/SVG/b-c.SVG"))
        = [SequentialUpload.Read (js "Misc/SVG/b-c.SVG")]
        \/ fst (SequentialUpload.uploadFile third_fails_world plain_config
                  (js "Misc/SVG/b-c.SVG"))
           = [SequentialUpload.Read (js "Misc/SVG/b-c.SVG");
              SequentialUpload.Send
                (object_key plain_config (js "Misc/SVG/b-c.SVG"))]).
Proof.
  apply (sequential_upload_stops_at_first_failure third_fails_world
           plain_config
           [js "Access Time/SVG/access_time_20_filled.svg";
            js "Misc/SVG/a_16_bold.svg"]
           (js "Misc/SVG/b-c.SVG") [js "Misc/SVG/d.svg"]);
    vm_compute; reflexivity.
Defined.

Lemma sequential_upload_completes_witness :
  SequentialUpload.main full_env flaky_world (Some sample_paths)
  = (flat_map
       (fun f => [SequentialUpload.Read f;
                  SequentialUpload.Send (object_key full_config f);
                  SequentialUpload.Uploaded f (object_key full_config f)])
       sample_paths,
     Ok tt).
Proof.
  apply (sequential_upload_completes flaky_world full_config full_env
           sample_paths getConfig_full_env).
  vm_compute; reflexivity.
Defined.

Lemma gallery_filters_witness :
  Gallery.filteredIcons ascii_toLowerCase [32; 9; 160] (js "all") (js "all")
    sample_icons
  = sample_icons.
Proof.
  apply (proj2 (gallery_filters ascii_toLowerCase ascii_toLowerCase_ascii
                  [32; 9; 160] (js "all") (js "all") sample_icons)).
  reflexivity.
Defined.

(** A stand-in for the resolution against the origin of the page. *)
Definition sample_resolve (path : jsstring) : jsstring :=
  js "https://app.example/" ++ path.

Lemma gallery_prefers_the_cdn_location_witness :
  (forall url,
      cdnUrl (access_time_record (Some access_time_url)) = Some url ->
      Gallery.getIconUrl sample_resolve
        (access_time_record (Some access_time_url)) = url)
  /\ (cdnUrl (access_time_record (Some access_time_url)) = None ->
      Gallery.getIconUrl sample_resolve
        (access_time_record (Some access_time_url))
      = sample_resolve
          (relativePath (access_time_record (Some access_time_url)))).
Proof.
  exact (gallery_prefers_the_cdn_location ascii_toLowerCase
           ascii_normalizeNFD sample_resolve cdn_env sample_entries
           sample_icons (access_time_record (Some access_time_url))
           collect_icons_sample sample_icons_first).
Defined.

Example gallery_search_sample :
  map file
    (Gallery.filteredIcons ascii_toLowerCase (js "  BOLD ") (js "misc")
       (js "all") sample_icons)
  = []
  /\ map file
       (Gallery.filteredIcons ascii_toLowerCase (js " circ ") (js "all")
          (js "filled") sample_icons)
     = [js "access_time_20_filled.svg"]
  /\ map (fun o => (Gallery.slug o, Gallery.label o, Gallery.count o))
       (Gallery.categories sample_icons)
     = [(js "access-time", js "Access Time", 1%nat);
        (js "misc", js "Misc", 2%nat)].
Proof. repeat split; vm_compute; reflexivity. Qed.
